(** * confy: flags persisted in a user editable configuration file

    A shallow embedding of the Go package [confy] (the two revisions of
    its single source file: [confy.go], which reads and writes the file
    through [ioutil.ReadFile]/[ioutil.WriteFile], and the revision that
    keeps the file open and rewrites it by seek, truncate and write),
    together with the parts of the Go standard library it calls
    ([strings], [unicode/utf8], [bufio], [flag]), and of the test
    [TestParse] of [test.go].

    Go strings are byte sequences: they are modelled by [string], whose
    characters are the 256 byte values.  Effects are modelled by explicit
    state passing over a [World]; every external effect is also appended
    to an event trace. *)

From Stdlib Require Import ZArith Ascii String.
From stdpp Require Import base decidable option functions list sorting gmap
  strings pretty.

Local Open Scope Z_scope.

(** ** Byte strings *)

Definition byte (c : ascii) : Z := Z.of_N (N_of_ascii c).

(** [len(s)] *)
Definition len (s : string) : Z := Z.of_nat (String.length s).

(** [s[lo:hi]] and [s[lo:]], for indices in range *)
Definition slice (s : string) (lo hi : Z) : string :=
  String.substring (Z.to_nat lo) (Z.to_nat (hi - lo)) s.

Definition sliceFrom (s : string) (lo : Z) : string := slice s lo (len s).

(** [s[i]] for an index in range *)
Definition at_ (s : string) (i : Z) : ascii :=
  match String.get (Z.to_nat i) s with Some c => c | None => "000"%char end.

Definition containsByte (chars : string) (c : ascii) : bool :=
  bool_decide (c ∈ list_ascii_of_string chars).

(** ** Package [strings] *)
Module Strings.

(** [strings.HasPrefix] *)
Definition HasPrefix (s prefix : string) : bool := String.prefix prefix s.

(** [strings.IndexAny(s, chars)] for a set [chars] of ASCII bytes, which
    Go scans for byte by byte: the index of the first byte of [s] that
    is in [chars], or -1. *)
Fixpoint IndexAny_from (i : Z) (s chars : string) : Z :=
  match s with
  | EmptyString => -1
  | String c s' =>
      if containsByte chars c then i else IndexAny_from (i + 1) s' chars
  end.
Definition IndexAny (s chars : string) : Z := IndexAny_from 0 s chars.

(** The six ASCII bytes of [unicode.IsSpace]. *)
Definition asciiSpace (c : ascii) : bool :=
  match c with
  | "009" | "010" | "011" | "012" | "013" | " " => true
  | _ => false
  end%char.

(** [strings.TrimSpace] removes from both ends every rune accepted by
    [unicode.IsSpace].  Besides the six ASCII bytes these are U+0085,
    U+00A0, U+1680, U+2000..U+200A, U+2028, U+2029, U+202F, U+205F and
    U+3000; the decoder accepts only their shortest UTF-8 encodings,
    which [spaceRune2] and [spaceRune3] list.  Any other leading or
    trailing byte, also one of a malformed sequence, decodes to a rune
    that is not a space and stops the trimming. *)
Definition spaceRune2 (a b : ascii) : bool :=
  (byte a =? 194) && ((byte b =? 133) || (byte b =? 160)).

Definition spaceRune3 (a b c : ascii) : bool :=
  ((byte a =? 225) && (byte b =? 154) && (byte c =? 128))
  || ((byte a =? 226) && (byte b =? 128)
      && (((128 <=? byte c) && (byte c <=? 138))
          || (byte c =? 168) || (byte c =? 169) || (byte c =? 175)))
  || ((byte a =? 226) && (byte b =? 129) && (byte c =? 159))
  || ((byte a =? 227) && (byte b =? 128) && (byte c =? 128)).

(** [strings.TrimLeftFunc(s, unicode.IsSpace)] *)
Fixpoint TrimLeftSpace (s : string) : string :=
  match s with
  | EmptyString => EmptyString
  | String a s1 =>
      if asciiSpace a then TrimLeftSpace s1
      else
        match s1 with
        | String b s2 =>
            if spaceRune2 a b then TrimLeftSpace s2
            else
              match s2 with
              | String c s3 =>
                  if spaceRune3 a b c then TrimLeftSpace s3 else s
              | EmptyString => s
              end
        | EmptyString => s
        end
  end.

(** The same scan over the reversed string: it meets the bytes of a
    rune last byte first. *)
Fixpoint TrimLeftSpace_rev (s : string) : string :=
  match s with
  | EmptyString => EmptyString
  | String a s1 =>
      if asciiSpace a then TrimLeftSpace_rev s1
      else
        match s1 with
        | String b s2 =>
            if spaceRune2 b a then TrimLeftSpace_rev s2
            else
              match s2 with
              | String c s3 =>
                  if spaceRune3 c b a then TrimLeftSpace_rev s3 else s
              | EmptyString => s
              end
        | EmptyString => s
        end
  end.

(** [strings.TrimRightFunc(s, unicode.IsSpace)] *)
Definition TrimRightSpace (s : string) : string :=
  String.rev (TrimLeftSpace_rev (String.rev s)).

Definition TrimSpace (s : string) : string :=
  TrimRightSpace (TrimLeftSpace s).

(** [strings.Replace(s, old, new, -1)] for a non-empty [old]: every
    non-overlapping occurrence of [old], found from the left, becomes
    [new].  [skip] counts the bytes of a matched occurrence that are
    still to be passed over. *)
Fixpoint Replace_go (old new : string) (skip : nat) (s : string) : string :=
  match s with
  | EmptyString => EmptyString
  | String c s' =>
      match skip with
      | S k => Replace_go old new k s'
      | O =>
          if String.prefix old s
          then new +:+ Replace_go old new (String.length old - 1) s'
          else String c (Replace_go old new 0 s')
      end
  end.
Definition ReplaceAll (s old new : string) : string := Replace_go old new 0 s.

End Strings.

(** ** Package [unicode/utf8] *)
Module Utf8.

(** The table [first]: [None] for a byte that cannot start a rune of
    more than one byte ([as] and [xx]), otherwise the size of the
    sequence and the range accepted for its second byte. *)
Definition first (c : Z) : option (nat * (Z * Z)) :=
  if c <? 194 then None
  else if c <? 224 then Some (2%nat, (128, 191))
  else if c =? 224 then Some (3%nat, (160, 191))
  else if c <? 237 then Some (3%nat, (128, 191))
  else if c =? 237 then Some (3%nat, (128, 159))
  else if c <? 240 then Some (3%nat, (128, 191))
  else if c =? 240 then Some (4%nat, (144, 191))
  else if c <? 244 then Some (4%nat, (128, 191))
  else if c =? 244 then Some (4%nat, (128, 143))
  else None.

Definition continuation (c : ascii) : bool :=
  (128 <=? byte c) && (byte c <=? 191).

(** The number of bytes the loop of [RuneCountInString] advances by
    at a position whose byte is [c] and whose remaining bytes are
    [rest]. *)
Definition runeSize (c : ascii) (rest : string) : nat :=
  if byte c <? 128 then 1%nat
  else
    match first (byte c) with
    | None => 1%nat
    | Some (size, (lo, hi)) =>
        if (String.length rest <? size - 1)%nat then 1%nat
        else
          let c1 := at_ rest 0 in
          if (byte c1 <? lo) || (hi <? byte c1) then 1%nat
          else if (size =? 2)%nat then 2%nat
          else if negb (continuation (at_ rest 1)) then 1%nat
          else if (size =? 3)%nat then 3%nat
          else if negb (continuation (at_ rest 2)) then 1%nat
          else 4%nat
    end.

Fixpoint RuneCount_go (skip : nat) (s : string) : nat :=
  match s with
  | EmptyString => 0%nat
  | String c s' =>
      match skip with
      | S k => RuneCount_go k s'
      | O => S (RuneCount_go (runeSize c s' - 1) s')
      end
  end.

(** [utf8.RuneCountInString]; a byte that starts no well-formed
    sequence counts as one rune. *)
Definition RuneCountInString (s : string) : nat := RuneCount_go 0 s.

End Utf8.

(** ** Package [bufio]: the line scanner *)
Module Bufio.

(** The pieces of the input between line feeds; a last piece without
    its line feed is a line when it is not empty. *)
Fixpoint splitLines (s : string) : list string :=
  match s with
  | EmptyString => []
  | String c s' =>
      if Ascii.eqb c "010"
      then EmptyString :: splitLines s'
      else
        match splitLines s' with
        | [] => [String c EmptyString]
        | l :: ls => String c l :: ls
        end
  end.

(** [dropCR] drops one trailing carriage return. *)
Definition dropCR (data : string) : string :=
  if (0 <? len data) && (byte (at_ data (len data - 1)) =? 13)
  then slice data 0 (len data - 1)
  else data.

(** The tokens a [bufio.Scanner] with the default split function
    [ScanLines] delivers for an input it reads to the end.  (Lines that
    exceed the scanner's token limit and read faults are outside the
    model.) *)
Definition ScanLines (input : string) : list string :=
  dropCR <$> splitLines input.

End Bufio.

(** ** Errors, results and events *)

(** A Go [error] value, by its text. *)
Definition error := string.

Inductive result (A : Type) :=
| Ok (a : A)
| Err (e : error).
Arguments Ok {A} a.
Arguments Err {A} e.

(** How a call ends: it returns (an error or [nil]), or the process
    exits inside it with a status code. *)
Inductive outcome :=
| Returns (err : option error)
| Exits (code : Z).

(** The identity of the variable a [flag.Value] points to.  Two flags
    hold the same [flag.Value] exactly when their [ref]s are equal. *)
Definition ref := nat.

Global Instance ref_eq_dec : EqDecision ref := Nat.eq_dec.
Global Instance ref_countable : Countable ref := nat_countable.

(** The errors of the command-line scan of package [flag]. *)
Inductive flagError :=
| ErrHelp
| BadFlagSyntax (s : string)
| NotDefined (name : string)
| InvalidBooleanValue (value name : string) (cause : error)
| InvalidBooleanFlag (name : string) (cause : error)
| NeedsArgument (name : string)
| InvalidValue (value name : string) (cause : error).

Inductive Event :=
| EvGetenv (name : string)
| EvUserCurrent
| EvOpen (path : string)
| EvSeek
| EvTruncate
| EvWrite (data : string)
| EvClose
| EvReadFile (path : string)
| EvWriteFile (path data : string)
| EvStderr (text : string)
| EvLog (text : string)
| EvValueSet (r : ref) (s : string)
| EvFlagParse (arguments : list string)
| EvFlagUsage
| EvFlagDiag (e : flagError).

(** ** Package [flag] *)

(** The interface [flag.Value], with the optional method [IsBoolFlag]
    (absent means [false]).  [vSet] returns the state the variable is
    left in, also when it reports an error. *)
Class ValueImpl (V : Type) := {
  vString : V → string;
  vSet : V → string → V * option error;
  vIsBoolFlag : V → bool;
}.

(** [flag.Flag] *)
Record Flag := {
  Name : string;
  Usage : string;
  Value : ref;
  DefValue : string;
}.

(** What [flag.Var] records besides the name. *)
Record FlagDecl := {
  declUsage : string;
  declValue : ref;
  declDefValue : string;
}.

Definition mkFlag (name : string) (d : FlagDecl) : Flag :=
  {| Name := name; Usage := declUsage d; Value := declValue d;
     DefValue := declDefValue d |}.

(** [flag.FlagSet].  [formal] keeps every flag under its own name, so
    the map sends a name to the other fields of its flag. *)
Record FlagSet := {
  formal : gmap string FlagDecl;
  actual : gset string;
  parsed : bool;
  args : list string;
}.

Definition lookupFlag (f : FlagSet) (name : string) : option Flag :=
  mkFlag name <$> formal f !! name.

Definition flag_le (a b : Flag) : Prop := String.le (Name a) (Name b).

Global Instance flag_le_dec : RelDecision flag_le.
Proof. intros a b. unfold flag_le. apply _. Defined.

(** [sortFlags]: the flags in lexicographical order of their names;
    [VisitAll] visits them in this order. *)
Definition sortFlags (m : gmap string FlagDecl) : list Flag :=
  merge_sort flag_le ((λ kd, mkFlag kd.1 kd.2) <$> map_to_list m).

Definition VisitAll (f : FlagSet) : list Flag := sortFlags (formal f).

(** [flag.UnquoteUsage], second result: the usage text with the first
    pair of back quotes removed. *)
Definition backquote : ascii := "`"%char.

Fixpoint indexByte_from (i : Z) (s : string) (c : ascii) : Z :=
  match s with
  | EmptyString => -1
  | String d s' => if Ascii.eqb d c then i else indexByte_from (i + 1) s' c
  end.

Definition UnquoteUsage (f : Flag) : string :=
  let usage := Usage f in
  let i := indexByte_from 0 usage backquote in
  if i <? 0 then usage
  else
    let j := indexByte_from (i + 1) (sliceFrom usage (i + 1)) backquote in
    if j <? 0 then usage
    else slice usage 0 i +:+ slice usage (i + 1) j +:+ sliceFrom usage (j + 1).

(** ** The world *)

(** What the process finds around it and cannot change: the
    environment, the current user, the arguments, and which file
    operations fail. *)
Record Env := {
  environ : string → string;
  currentUser : result string;
  osArgs : list string;
  readFault : string → option error;
  openFault : string → option error;
  seekResult : Z * option error;
  truncateFault : option error;
  writeFault : option (nat * error);
  rangeOrder : gmap string string → list (string * string);
}.

(** Library functions taken as given: [strings.ToUpper],
    [strings.ToLower], [path.Join] and [filepath.Join] of two
    elements. *)
Class GoLib := {
  ToUpper : string → string;
  ToLower : string → string;
  path_Join : string → string → string;
  filepath_Join : string → string → string;
}.

Section World.
Context {V : Type}.

Record World := {
  flags : FlagSet;
  heap : ref → V;
  files : gmap string string;
  trace : list Event;
}.

Definition M (A : Type) : Type := World → World * A.

Definition ret {A} (a : A) : M A := λ w, (w, a).

Definition bind {A B} (m : M A) (k : A → M B) : M B :=
  λ w, let '(w', a) := m w in k a w'.

Definition set_flags (f : FlagSet) (w : World) : World :=
  {| flags := f; heap := heap w; files := files w; trace := trace w |}.

Definition set_heap (h : ref → V) (w : World) : World :=
  {| flags := flags w; heap := h; files := files w; trace := trace w |}.

Definition set_files (fs : gmap string string) (w : World) : World :=
  {| flags := flags w; heap := heap w; files := fs; trace := trace w |}.

Definition emit (e : Event) : M unit :=
  λ w, ({| flags := flags w; heap := heap w; files := files w;
           trace := trace w ++ [e] |}, tt).

End World.
Arguments World V : clear implicits.
Arguments M V A : clear implicits.

Notation "x <- m ;; k" := (bind m (λ x, k))
  (at level 100, m at next level, right associativity).
Notation "m ;;; k" := (bind m (λ _, k))
  (at level 100, right associativity).

Definition nl : string := String "010"%char EmptyString.
Definition tab : string := String "009"%char EmptyString.
Definition dq : string := String (ascii_of_nat 34) EmptyString.

(** [%v] of an error that may be [nil] *)
Definition errText (err : option error) : string :=
  match err with Some e => e | None => "<nil>" end.

Section Flag.
Context {V : Type} `{!ValueImpl V}.

Definition gets {A} (f : World V → A) : M V A := λ w, (w, f w).

Definition set_args (a : list string) (w : World V) : World V :=
  set_flags {| formal := formal (flags w); actual := actual (flags w);
               parsed := parsed (flags w); args := a |} w.

Definition set_actual (name : string) (w : World V) : World V :=
  set_flags {| formal := formal (flags w);
               actual := {[name]} ∪ actual (flags w);
               parsed := parsed (flags w); args := args (flags w) |} w.

Definition set_parsed (w : World V) : World V :=
  set_flags {| formal := formal (flags w); actual := actual (flags w);
               parsed := true; args := args (flags w) |} w.

(** [flag.Parsed] *)
Definition flag_Parsed : M V bool := gets (λ w, parsed (flags w)).

(** A call of the method [Set] of the value at [r]. *)
Definition Value_Set (r : ref) (s : string) : M V (option error) :=
  emit (EvValueSet r s) ;;;
  λ w, let '(v, err) := vSet (heap w r) s in
       (set_heap (<[r:=v]> (heap w)) w, err).

(** [flag.Set] *)
Definition flag_Set (name value : string) : M V (option error) :=
  fl <- gets (λ w, lookupFlag (flags w) name) ;;
  match fl with
  | None => ret (Some ("no such flag -" +:+ name))
  | Some fl =>
      err <- Value_Set (Value fl) value ;;
      match err with
      | Some e => ret (Some e)
      | None => (λ w, (set_actual name w, tt)) ;;; ret None
      end
  end.

Definition failf (e : flagError) : M V (bool * option flagError) :=
  emit (EvFlagDiag e) ;;; ret (false, Some e).

(** The loop of [parseOne] that looks for an equals sign, which cannot
    be first: the name, whether a value follows, and the value. *)
Definition splitValue (name : string) : string * bool * string :=
  let i := indexByte_from 1 (sliceFrom name 1) "="%char in
  if i <? 0 then (name, false, EmptyString)
  else (slice name 0 i, true, sliceFrom name (i + 1)).

(** [FlagSet.parseOne] *)
Definition parseOne : M V (bool * option flagError) :=
  a <- gets (λ w, args (flags w)) ;;
  match a with
  | [] => ret (false, None)
  | s :: rest =>
      if (len s <? 2) || negb (Ascii.eqb (at_ s 0) "-")
      then ret (false, None)
      else if Ascii.eqb (at_ s 1) "-" && (len s =? 2)
      then (λ w, (set_args rest w, tt)) ;;; ret (false, None)
      else
        let numMinuses := if Ascii.eqb (at_ s 1) "-" then 2 else 1 in
        let name := sliceFrom s numMinuses in
        if (len name =? 0) || Ascii.eqb (at_ name 0) "-"
           || Ascii.eqb (at_ name 0) "="
        then failf (BadFlagSyntax s)
        else
          (λ w, (set_args rest w, tt)) ;;;
          let '(name, hasValue, value) := splitValue name in
          fl <- gets (λ w, lookupFlag (flags w) name) ;;
          match fl with
          | None =>
              if String.eqb name "help" || String.eqb name "h"
              then emit EvFlagUsage ;;; ret (false, Some ErrHelp)
              else failf (NotDefined name)
          | Some fl =>
              isBool <- gets (λ w, vIsBoolFlag (heap w (Value fl))) ;;
              r <- (if isBool then
                      if hasValue then
                        err <- Value_Set (Value fl) value ;;
                        ret (InvalidBooleanValue value name <$> err)
                      else
                        err <- Value_Set (Value fl) "true" ;;
                        ret (InvalidBooleanFlag name <$> err)
                    else
                      match hasValue, rest with
                      | false, [] => ret (Some (NeedsArgument name))
                      | false, value :: rest' =>
                          (λ w, (set_args rest' w, tt)) ;;;
                          err <- Value_Set (Value fl) value ;;
                          ret (InvalidValue value name <$> err)
                      | true, _ =>
                          err <- Value_Set (Value fl) value ;;
                          ret (InvalidValue value name <$> err)
                      end) ;;
              match r with
              | Some e => failf e
              | None => (λ w, (set_actual name w, tt)) ;;; ret (true, None)
              end
          end
  end.

(** The loop of [FlagSet.Parse] for [flag.CommandLine], whose error
    handling is [ExitOnError].  Every round that goes on consumes an
    argument, so [fuel] beyond the number of arguments is never used
    up. *)
Fixpoint parseLoop (fuel : nat) : M V outcome :=
  match fuel with
  | O => ret (Returns None)
  | S n =>
      r <- parseOne ;;
      match r with
      | (true, _) => parseLoop n
      | (false, None) => ret (Returns None)
      | (false, Some ErrHelp) => ret (Exits 0)
      | (false, Some _) => ret (Exits 2)
      end
  end.

(** [flag.Parse()], that is [CommandLine.Parse(os.Args[1:])] *)
Definition flag_Parse (E : Env) : M V outcome :=
  emit (EvFlagParse (osArgs E)) ;;;
  (λ w, (set_args (osArgs E) (set_parsed w), tt)) ;;;
  parseLoop (S (length (osArgs E))).

End Flag.

(** ** Package [confy]

    [updateWarning], [parseConfig] and [saveConfig] are the same in both
    revisions of the source file. *)

(** [fmt.Sprintf(updateWarning, appName, cPath)] *)
Definition updateWarning (appName cPath : string) : string :=
  "!!!!!!!!!!" +:+ nl +:+
  "! WARNING: ." +:+ appName +:+ "inf0 was probably updated," +:+ nl +:+
  "! Check and update " +:+ cPath +:+ " as necessary" +:+ nl +:+
  "! and remove the last " +:+ dq +:+ "deprecated" +:+ dq +:+
  " paragraph to disable this message!" +:+ nl +:+
  "!!!!!!!!!!" +:+ nl.

Section Confy.
Context {V : Type} `{!ValueImpl V}.

(** The body of the scanning loop of [parseConfig] for one line. *)
Definition parseConfig_line (obsKeys : gmap string string) (text : string)
  : M V (gmap string string) :=
  let line := Strings.TrimSpace text in
  if Strings.HasPrefix line "#" || String.eqb line EmptyString
  then ret obsKeys
  else
    let i := Strings.IndexAny line "=:" in
    if i =? -1 then ret obsKeys
    else
      let key := Strings.TrimSpace (slice line 0 i) in
      let val := Strings.TrimSpace (sliceFrom line (i + 1)) in
      err <- flag_Set key val ;;
      match err with
      | Some _ => ret (<[key:=val]> obsKeys)
      | None => ret obsKeys
      end.

Fixpoint parseConfig_loop (obsKeys : gmap string string)
    (lines : list string) : M V (gmap string string) :=
  match lines with
  | [] => ret obsKeys
  | text :: rest =>
      obsKeys <- parseConfig_line obsKeys text ;;
      parseConfig_loop obsKeys rest
  end.

(** [parseConfig(r)], where [r] delivers the bytes [input] *)
Definition parseConfig (input : string) : M V (gmap string string) :=
  parseConfig_loop ∅ (Bufio.ScanLines input).

(** The first visit of [saveConfig]. *)
Definition dedupVisit (deduped : gmap ref Flag) (f : Flag)
  : gmap ref Flag :=
  match deduped !! Value f with
  | Some cur =>
      if (Utf8.RuneCountInString (Name cur)
            <? Utf8.RuneCountInString (Name f))%nat
      then <[Value f:=f]> deduped
      else deduped
  | None => <[Value f:=f]> deduped
  end.

(** The second visit of [saveConfig], which writes to the buffer. *)
Definition writeVisit (w : World V) (deduped : gmap ref Flag)
    (buf : string) (f : Flag) : string :=
  match deduped !! Value f with
  | Some cur =>
      if bool_decide (Name cur = Name f) then
        let usage := UnquoteUsage f in
        let usage :=
          Strings.ReplaceAll usage (nl +:+ "    " +:+ tab) (nl +:+ "# ") in
        (buf +:+ (nl +:+ "# " +:+ usage +:+ " (default " +:+ DefValue f
                  +:+ ")" +:+ nl))
        +:+ (Name f +:+ "=" +:+ vString (heap w (Value f)) +:+ nl)
      else buf
  | None => buf
  end.

Definition obsoleteHeading : string :=
  nl +:+ nl +:+
  "# The following options are probably deprecated and not used currently!"
  +:+ nl.

(** [saveConfig(w, obsKeys)]: the contents of the buffer behind [w]
    afterwards, [buf] being its contents before.  The order in which
    [range] goes through [obsKeys] is the environment's choice. *)
Definition saveConfig (E : Env) (w : World V) (buf : string)
    (obsKeys : gmap string string) : string :=
  let deduped := foldl dedupVisit ∅ (VisitAll (flags w)) in
  let buf := foldl (writeVisit w deduped) buf (VisitAll (flags w)) in
  if (0 <? size obsKeys)%nat then
    foldl (λ buf kv, buf +:+ (kv.1 +:+ "=" +:+ kv.2 +:+ nl))
          (buf +:+ obsoleteHeading) (rangeOrder E obsKeys)
  else buf.

(** [os.Getenv] and [user.Current] *)
Definition Getenv (E : Env) (name : string) : M V string :=
  emit (EvGetenv name) ;;; ret (environ E name).

Definition user_Current (E : Env) : M V (result string) :=
  emit EvUserCurrent ;;; ret (currentUser E).

End Confy.

(** *** The revision that keeps the file open *)
Module Part000.
Section Part000.
Context {V : Type} `{!ValueImpl V} `{!GoLib}.
Variable E : Env.

(** [fmt.Sprintf(configHeader, appName)] *)
Definition configHeader (appName : string) : string :=
  "# " +:+ appName +:+ " configuration" +:+ nl +:+
  "# " +:+ nl +:+
  "# Empty lines or lines starting with # will be ignored." +:+ nl +:+
  "# All other lines must look like " +:+ dq +:+ "KEY=VALUE" +:+ dq +:+
  " (without the quotes)." +:+ nl +:+
  "# The VALUE must not be enclosed in quotes as well!" +:+ nl.

(** [openOrCreate(name, os.O_RDWR|os.O_CREATE, 0666)]; the open file
    is known by its path. *)
Definition openOrCreate (name : string) : M V (result string) :=
  emit (EvOpen name) ;;;
  match openFault E name with
  | Some err => ret (Err err)
  | None =>
      λ w, (match files w !! name with
            | Some _ => w
            | None => set_files (<[name:=EmptyString]> (files w)) w
            end, Ok name)
  end.

(** What reading [cf] to its end delivers. *)
Definition readAll (cf : string) : M V string :=
  gets (λ w, default EmptyString (files w !! cf)).

(** [cf.Seek(0, 0)] *)
Definition Seek (cf : string) : M V (Z * option error) :=
  emit EvSeek ;;; ret (seekResult E).

(** [cf.Truncate(0)] *)
Definition Truncate (cf : string) : M V (option error) :=
  emit EvTruncate ;;;
  match truncateFault E with
  | Some err => ret (Some err)
  | None =>
      (λ w, (set_files (<[cf:=EmptyString]> (files w)) w, tt)) ;;; ret None
  end.

(** [newConf.WriteTo(cf)] at the start of the emptied file; a failing
    write leaves the bytes that were written before it failed. *)
Definition WriteTo (cf data : string) : M V (option error) :=
  emit (EvWrite data) ;;;
  match writeFault E with
  | Some (n, err) =>
      (λ w, (set_files (<[cf:=String.substring 0 n data]> (files w)) w, tt)) ;;;
      ret (Some err)
  | None => (λ w, (set_files (<[cf:=data]> (files w)) w, tt)) ;;; ret None
  end.

Definition getConfigPath (appName : string) : M V (string * option error) :=
  let envname := ToUpper appName +:+ "INF0" in
  cPath <- Getenv E envname ;;
  if String.eqb cPath EmptyString then
    usr <- user_Current E ;;
    match usr with
    | Err err =>
        ret (EmptyString,
             Some (err +:+ nl +:+ "You can set the environment variable "
                   +:+ envname
                   +:+ " to point to your config file as a workaround"))
    | Ok HomeDir =>
        ret (path_Join HomeDir ("." +:+ ToLower appName +:+ "inf0"), None)
    end
  else ret (cPath, None).

(** The rewrite of the changed file. *)
Definition rewriteFile (cPath cf newConf : string) : M V (option error) :=
  sk <- Seek cf ;;
  if bool_decide (is_Some sk.2) || negb (sk.1 =? 0) then
    ret (Some ("failed to seek to beginning of " +:+ cPath +:+ ": "
               +:+ errText sk.2))
  else
    err <- Truncate cf ;;
    match err with
    | Some err => ret (Some ("failed to truncate " +:+ cPath +:+ ": " +:+ err))
    | None =>
        err <- WriteTo cf newConf ;;
        match err with
        | Some err =>
            ret (Some ("failed to write " +:+ cPath +:+ ": " +:+ err))
        | None => ret None
        end
    end.

(** [Parse] from the point where the file is open; the deferred
    [cf.Close()] runs when this part returns, not when the process
    exits inside it. *)
Definition Parse_opened (appName cPath cf : string) : M V outcome :=
  oldConf <- readAll cf ;;
  obsoleteKeys <- parseConfig oldConf ;;
  (if (0 <? size obsoleteKeys)%nat
   then emit (EvStderr (updateWarning appName cPath)) else ret tt) ;;;
  newConf <- gets (λ w, saveConfig E w (configHeader appName) obsoleteKeys) ;;
  err <- (if negb (String.eqb oldConf newConf)
          then rewriteFile cPath cf newConf else ret None) ;;
  match err with
  | Some err => ret (Returns (Some err))
  | None => flag_Parse E
  end.

Definition Parse (appName : string) : M V outcome :=
  p <- flag_Parsed ;;
  if p then ret (Returns (Some "flags have been parsed already"))
  else
    r <- getConfigPath appName ;;
    match r with
    | (_, Some err) => ret (Returns (Some err))
    | (cPath, None) =>
        cf <- openOrCreate cPath ;;
        match cf with
        | Err err =>
            ret (Returns
                   (Some ("unable to open " +:+ appName +:+ " config file "
                          +:+ cPath +:+ " for reading and writing: "
                          +:+ err)))
        | Ok cf =>
            out <- Parse_opened appName cPath cf ;;
            match out with
            | Exits _ => ret out
            | Returns _ => emit EvClose ;;; ret out
            end
        end
    end.

End Part000.
End Part000.

(** *** [confy.go] *)
Module ConfyGo.
Section ConfyGo.
Context {V : Type} `{!ValueImpl V} `{!GoLib}.
Variable E : Env.

(** [fmt.Sprintf(configHeader, appName)] *)
Definition configHeader (appName : string) : string :=
  "# " +:+ appName +:+ " configuration" +:+ nl +:+
  "# " +:+ nl +:+
  "# This config has https://github.com/schachmat/ingo syntax." +:+ nl +:+
  "# Empty lines or lines starting with # will be ignored." +:+ nl +:+
  "# All other lines must look like " +:+ dq +:+ "KEY=VALUE" +:+ dq +:+
  " (without the quotes)." +:+ nl +:+
  "# The VALUE must not be enclosed in quotes as well!" +:+ nl.

(** The result of [ioutil.ReadFile]: the contents, an error for which
    [os.IsNotExist] holds, or another error. *)
Inductive readResult :=
| ReadOk (data : string)
| ReadNotExist
| ReadErr (err : error).

Definition ReadFile (name : string) : M V readResult :=
  emit (EvReadFile name) ;;;
  match readFault E name with
  | Some err => ret (ReadErr err)
  | None =>
      gets (λ w, match files w !! name with
                 | Some data => ReadOk data
                 | None => ReadNotExist
                 end)
  end.

(** [ioutil.WriteFile(name, data, 0666)]: the file is opened for
    writing, created or emptied, and written. *)
Definition WriteFile (name data : string) : M V (option error) :=
  emit (EvWriteFile name data) ;;;
  match openFault E name with
  | Some err => ret (Some err)
  | None =>
      match writeFault E with
      | Some (n, err) =>
          (λ w, (set_files (<[name:=String.substring 0 n data]> (files w)) w,
                 tt)) ;;;
          ret (Some err)
      | None =>
          (λ w, (set_files (<[name:=data]> (files w)) w, tt)) ;;; ret None
      end
  end.

Definition getConfigFilePath (appName : string)
  : M V (string * option error) :=
  let envname := ToUpper appName +:+ "INF0" in
  cPath <- Getenv E envname ;;
  if String.eqb cPath EmptyString then
    usr <- user_Current E ;;
    match usr with
    | Err err =>
        ret (EmptyString,
             Some (err +:+ nl +:+ "You can set the environment variable "
                   +:+ envname
                   +:+ " to point to your config file as a workaround"))
    | Ok HomeDir =>
        ret (filepath_Join HomeDir ("." +:+ ToLower appName +:+ "inf0"),
             None)
    end
  else ret (cPath, None).

(** [Parse] from the point where the old contents are in hand. *)
Definition Parse_read (appName cPath oldConf : string) : M V outcome :=
  obsoleteKeys <- parseConfig oldConf ;;
  (if (0 <? size obsoleteKeys)%nat
   then emit (EvLog (updateWarning appName cPath)) else ret tt) ;;;
  newConf <- gets (λ w, saveConfig E w (configHeader appName) obsoleteKeys) ;;
  err <- (if negb (String.eqb oldConf newConf)
          then WriteFile cPath newConf else ret None) ;;
  match err with
  | Some err =>
      ret (Returns (Some ("failed to write " +:+ cPath +:+ ": " +:+ err)))
  | None => flag_Parse E
  end.

Definition Parse (appName : string) : M V outcome :=
  p <- flag_Parsed ;;
  if p then ret (Returns (Some "flags have been parsed already"))
  else
    r <- getConfigFilePath appName ;;
    match r with
    | (_, Some err) => ret (Returns (Some err))
    | (cPath, None) =>
        rd <- ReadFile cPath ;;
        match rd with
        | ReadErr err =>
            ret (Returns
                   (Some ("unable to read " +:+ appName +:+ " config file "
                          +:+ cPath +:+ ": " +:+ err)))
        | ReadNotExist => Parse_read appName cPath EmptyString
        | ReadOk oldConf => Parse_read appName cPath oldConf
        end
    end.

End ConfyGo.
End ConfyGo.

(** ** Instances used in the examples *)

(** Two of the value types of package [flag]. *)
Inductive goValue :=
| stringValue (s : string)
| boolValue (b : bool).

(** [strconv.ParseBool] *)
Definition ParseBool (str : string) : option bool :=
  if bool_decide (str ∈ ["1"; "t"; "T"; "TRUE"; "true"; "True"])
  then Some true
  else if bool_decide (str ∈ ["0"; "f"; "F"; "FALSE"; "false"; "False"])
  then Some false
  else None.

(** [stringValue.Set] stores its argument; [boolValue.Set] stores the
    result of [ParseBool], which is [false] when it reports an error. *)
Global Instance goValue_impl : ValueImpl goValue := {|
  vString v :=
    match v with
    | stringValue s => s
    | boolValue b => if b then "true" else "false"
    end;
  vSet v s :=
    match v with
    | stringValue _ => (stringValue s, None)
    | boolValue _ =>
        match ParseBool s with
        | Some b => (boolValue b, None)
        | None => (boolValue false, Some "parse error")
        end
    end;
  vIsBoolFlag v := match v with boolValue _ => true | stringValue _ => false end
|}.

(** Case mapping of the ASCII letters, which is what [strings.ToUpper]
    and [strings.ToLower] do to a string of ASCII bytes, and the join of
    a clean directory with a file name. *)
Definition upperByte (c : ascii) : ascii :=
  if (97 <=? byte c) && (byte c <=? 122)
  then ascii_of_N (Z.to_N (byte c - 32)) else c.

Definition lowerByte (c : ascii) : ascii :=
  if (65 <=? byte c) && (byte c <=? 90)
  then ascii_of_N (Z.to_N (byte c + 32)) else c.

Fixpoint mapBytes (f : ascii → ascii) (s : string) : string :=
  match s with
  | EmptyString => EmptyString
  | String c s' => String (f c) (mapBytes f s')
  end.

Definition asciiLib : GoLib := {|
  ToUpper := mapBytes upperByte;
  ToLower := mapBytes lowerByte;
  path_Join dir name := dir +:+ "/" +:+ name;
  filepath_Join dir name := dir +:+ "/" +:+ name;
|}.

(** ** Vocabulary of the statements *)

(** The line format in the words of its description: a line is trimmed;
    an empty line and a line that begins with [#] are skipped; the line
    is cut at its first [=] or [:], and a line with neither is skipped;
    the key is what stands before the cut, the value what stands after
    it, both trimmed. *)
Definition isSeparator (c : ascii) : bool :=
  Ascii.eqb c "="%char || Ascii.eqb c ":"%char.

Fixpoint cutAtSeparator (s : string) : option (string * string) :=
  match s with
  | EmptyString => None
  | String c s' =>
      if isSeparator c then Some (EmptyString, s')
      else
        match cutAtSeparator s' with
        | Some (before, after) => Some (String c before, after)
        | None => None
        end
  end.

Fixpoint noSeparator (s : string) : Prop :=
  match s with
  | EmptyString => True
  | String c s' => isSeparator c = false ∧ noSeparator s'
  end.

Definition beginsWithHash (s : string) : bool :=
  match s with
  | String c _ => Ascii.eqb c "#"%char
  | EmptyString => false
  end.

Definition spec_parseLine (text : string) : option (string * string) :=
  let line := Strings.TrimSpace text in
  if String.eqb line EmptyString || beginsWithHash line then None
  else
    match cutAtSeparator line with
    | Some (before, after) =>
        Some (Strings.TrimSpace before, Strings.TrimSpace after)
    | None => None
    end.

Fixpoint concatS (l : list string) : string :=
  match l with
  | [] => EmptyString
  | x :: l => x +:+ concatS l
  end.

Definition runes (f : Flag) : nat := Utf8.RuneCountInString (Name f).

(** Whether the second visit of [saveConfig] writes [f], given the map
    the first visit has built. *)
Definition isWritten (deduped : gmap ref Flag) (f : Flag) : bool :=
  match deduped !! Value f with
  | Some cur => bool_decide (Name cur = Name f)
  | None => false
  end.

(** The flags of an enumeration that [saveConfig] writes, in their
    order. *)
Definition representatives (fl : list Flag) : list Flag :=
  List.filter (isWritten (foldl dedupVisit ∅ fl)) fl.

(** [c] stands at a place of [fl] where every flag before it that shares
    its value has fewer runes in its name, and every flag after it that
    shares its value has no more. *)
Definition longestFirst (fl : list Flag) (c : Flag) : Prop :=
  ∃ l1 l2, fl = l1 ++ c :: l2
    ∧ (∀ g, g ∈ l1 → Value g = Value c → (runes g < runes c)%nat)
    ∧ (∀ g, g ∈ l2 → Value g = Value c → (runes g ≤ runes c)%nat).

(** The usage text as [saveConfig] writes it. *)
Definition usageComment (f : Flag) : string :=
  Strings.ReplaceAll (UnquoteUsage f) (nl +:+ "    " +:+ tab) (nl +:+ "# ").

Definition obsoleteLine (kv : string * string) : string :=
  kv.1 +:+ "=" +:+ kv.2 +:+ nl.

(** The trailing section of the obsolete entries. *)
Definition obsoleteSection (E : Env) (obsKeys : gmap string string)
  : string :=
  if (0 <? size obsKeys)%nat
  then obsoleteHeading +:+ concatS (obsoleteLine <$> rangeOrder E obsKeys)
  else EmptyString.

(** The text after the one or two minus signs of a flag argument, by
    the syntax of package [flag]: an argument shorter than two bytes or
    without a leading minus sign is no flag, [--] ends the flags, and a
    name is not empty and begins with neither [-] nor [=]. *)
Definition argName (s : string) : option string :=
  if (len s <? 2) || negb (Ascii.eqb (at_ s 0) "-") then None
  else if String.eqb s "--" then None
  else
    let name := sliceFrom s (if Ascii.eqb (at_ s 1) "-" then 2 else 1) in
    if (len name =? 0) || Ascii.eqb (at_ name 0) "-"
       || Ascii.eqb (at_ name 0) "="
    then None
    else Some name.

(** The assignments that a command line denotes, in its order:
    [-name=value] assigns [value]; [-name] assigns [true] to a Boolean
    flag, and to another flag the argument that follows; the
    assignments end before the first argument that is no flag and
    behind [--]. *)
Fixpoint cmdlineAssignments (isBool : string → bool)
    (arguments : list string) : list (string * string) :=
  match arguments with
  | [] => []
  | s :: rest =>
      match argName s with
      | None => []
      | Some text =>
          let '(name, hasValue, value) := splitValue text in
          if hasValue then (name, value) :: cmdlineAssignments isBool rest
          else if isBool name
          then (name, "true") :: cmdlineAssignments isBool rest
          else
            match rest with
            | [] => []
            | value :: rest' =>
                (name, value) :: cmdlineAssignments isBool rest'
            end
      end
  end.

Section Vocabulary.
Context {V : Type} `{!ValueImpl V}.

(** The block of a flag: an empty line, one comment line with the usage
    text and the default value, and the assignment of the current
    value. *)
Definition optionBlock (w : World V) (f : Flag) : string :=
  nl +:+ ("# " +:+ usageComment f +:+ " (default " +:+ DefValue f +:+ ")")
  +:+ nl +:+ (Name f +:+ "=" +:+ vString (heap w (Value f))) +:+ nl.


(** The heap after the [Set] calls that a list of events records. *)
Definition replayEvent (h : ref → V) (e : Event) : ref → V :=
  match e with
  | EvValueSet r s => <[r:=(vSet (h r) s).1]> h
  | _ => h
  end.

Definition replay (evs : list Event) (h : ref → V) : ref → V :=
  foldl replayEvent h evs.

Definition isValueSet (e : Event) : Prop :=
  match e with EvValueSet _ _ => True | _ => False end.

(** The events of the command-line scan. *)
Definition isFlagEvent (e : Event) : Prop :=
  match e with
  | EvValueSet _ _ | EvFlagUsage | EvFlagDiag _ => True
  | _ => False
  end.

(** Worlds with the same registry: the same flag set and the same
    values. *)
Definition sim (w1 w2 : World V) : Prop :=
  flags w1 = flags w2 ∧ heap w1 = heap w2.

(** A computation that only reads and sets the registry: it leaves the
    files alone, its events are calls of [Set], which account for the
    new heap, and what it does depends on the registry only. *)
Definition registry_only {A} (m : M V A) : Prop :=
  ∀ w, ∃ evs,
    files (m w).1 = files w
    ∧ trace (m w).1 = trace w ++ evs
    ∧ heap (m w).1 = replay evs (heap w)
    ∧ Forall isValueSet evs
    ∧ formal (flags (m w).1) = formal (flags w)
    ∧ parsed (flags (m w).1) = parsed (flags w)
    ∧ args (flags (m w).1) = args (flags w)
    ∧ ∀ w2, sim w w2 →
        sim (m w).1 (m w2).1 ∧ (m w).2 = (m w2).2
        ∧ trace (m w2).1 = trace w2 ++ evs ∧ files (m w2).1 = files w2.

(** A computation of the command-line scan: it leaves the files and
    the registered flags alone, and its events, which are those of the
    scan, account for the new heap. *)
Definition cmdline_only {A} (m : M V A) : Prop :=
  ∀ w, ∃ evs,
    files (m w).1 = files w
    ∧ trace (m w).1 = trace w ++ evs
    ∧ heap (m w).1 = replay evs (heap w)
    ∧ Forall isFlagEvent evs
    ∧ formal (flags (m w).1) = formal (flags w)
    ∧ parsed (flags (m w).1) = parsed (flags w).

(** Whether a value is a Boolean flag does not change when it is set:
    the method [IsBoolFlag] depends on the type of the value only. *)
Definition boolStable : Prop :=
  ∀ (x : V) (s : string), vIsBoolFlag (vSet x s).1 = vIsBoolFlag x.

(** Whether a name is that of a Boolean flag of the registry. *)
Definition isBoolIn (w : World V) (name : string) : bool :=
  match lookupFlag (flags w) name with
  | Some fl => vIsBoolFlag (heap w (Value fl))
  | None => false
  end.

(** The event is the call of [Set] that applies the assignment to the
    flag of its name. *)
Definition setsAs (w : World V) (e : Event) (nv : string * string) : Prop :=
  ∃ fl, lookupFlag (flags w) nv.1 = Some fl ∧ e = EvValueSet (Value fl) nv.2.

(** The events are the calls of [Set] for the assignments of the
    command line, one for each, in their order. *)
Definition scanned (w : World V) (arguments : list string)
    (cmd : list Event) : Prop :=
  Forall2 (setsAs w) cmd (cmdlineAssignments (isBoolIn w) arguments).


(** Recording pairs one after the other; a later pair replaces an
    earlier one with the same key. *)
Definition recordAll (obsKeys : gmap string string)
    (l : list (string * string)) : gmap string string :=
  foldl (λ m kv, <[kv.1:=kv.2]> m) obsKeys l.

(** The line [text], which follows the lines [before], assigns [v] to
    the key [k] and is applied without an error. *)
Definition appliedAt (w : World V) (before : list string)
    (text k v : string) : Prop :=
  spec_parseLine text = Some (k, v)
  ∧ (flag_Set k v (parseConfig_loop ∅ before w).1).2 = None.

(** C10 as it is worded: when the key of a registered flag stands on
    more than one line that is applied without an error, the value of
    the flag after parsing is the one the last such line gave it. *)
Definition LastLineWins (w : World V) (lines : list string) : Prop :=
  ∀ lines1 text lines2 k v fl,
    lines = lines1 ++ text :: lines2 →
    lookupFlag (flags w) k = Some fl →
    appliedAt w lines1 text k v →
    (∃ l0 t0 l0' v0, lines1 = l0 ++ t0 :: l0' ∧ appliedAt w l0 t0 k v0) →
    (∀ l2 t l2' v', lines2 = l2 ++ t :: l2' →
       ¬ appliedAt w (lines1 ++ text :: l2) t k v') →
    heap (parseConfig_loop ∅ lines w).1 (Value fl)
    = heap (flag_Set k v (parseConfig_loop ∅ lines1 w).1).1 (Value fl).

(** Classes of events. *)
Definition isPathEvent (e : Event) : Prop :=
  match e with EvGetenv _ | EvUserCurrent => True | _ => False end.

Definition isWriteEvent (e : Event) : Prop :=
  match e with
  | EvSeek | EvTruncate | EvWrite _ | EvWriteFile _ _ => True
  | _ => False
  end.

Definition isWarning (e : Event) : Prop :=
  match e with EvStderr _ | EvLog _ => True | _ => False end.

(** The events from the call of [flag.Parse] on. *)
Definition isTailEvent (e : Event) : Prop :=
  match e with
  | EvFlagParse _ | EvClose => True
  | _ => isFlagEvent e
  end.

(** The file that is generated for the registry of [w] when there are
    no obsolete entries: the header followed by what [saveConfig]
    writes. *)
Definition generatedFile (E : Env) (header : string) (w : World V)
  : string :=
  saveConfig E w header ∅.


(** The errors of the rewrite of the file. *)
Definition isConfigIOError (cPath : string) (err : error) : Prop :=
  ∃ cause,
    err = "failed to seek to beginning of " +:+ cPath +:+ ": " +:+ cause
    ∨ err = "failed to truncate " +:+ cPath +:+ ": " +:+ cause
    ∨ err = "failed to write " +:+ cPath +:+ ": " +:+ cause.

(** Some step of the rewrite by seek, truncate and write fails. *)
Definition rewriteFails (E : Env) : Prop :=
  is_Some (seekResult E).2 ∨ (seekResult E).1 ≠ 0
  ∨ is_Some (truncateFault E) ∨ is_Some (writeFault E).

End Vocabulary.

(** A generated file, line by line.  A text is plain when it holds
    neither a line feed nor a carriage return. *)
Fixpoint plainb (s : string) : bool :=
  match s with
  | EmptyString => true
  | String c s' =>
      negb (Ascii.eqb c "010") && negb (Ascii.eqb c "013") && plainb s'
  end.

Definition unlines (l : list string) : string :=
  concatS ((λ x, x +:+ nl) <$> l).

Definition commentLine (f : Flag) : string :=
  "# " +:+ usageComment f +:+ " (default " +:+ DefValue f +:+ ")".

Definition commentLines (l : list string) : Prop :=
  Forall (λ a, plainb a = true ∧ beginsWithHash a = true) l.

Definition assignmentLine {V : Type} `{!ValueImpl V} (w : World V)
    (f : Flag) : string :=
  Name f +:+ "=" +:+ vString (heap w (Value f)).

Definition blockLines {V : Type} `{!ValueImpl V} (w : World V) (f : Flag)
  : list string :=
  [EmptyString; commentLine f; assignmentLine w f].

(** The block that was rendered for [f] in the state [wgen] reads back
    in [w]: its comment and its assignment are one line each, the
    assignment parses as the name and the rendered value, and the value
    of the flag in [w] accepts the rendered value and then renders it
    the same way. *)
Definition readsBack {V : Type} `{!ValueImpl V} (w wgen : World V)
    (f : Flag) : Prop :=
  let value := vString (heap wgen (Value f)) in
  plainb (commentLine f) = true
  ∧ plainb (assignmentLine wgen f) = true
  ∧ spec_parseLine (assignmentLine wgen f) = Some (Name f, value)
  ∧ (vSet (heap w (Value f)) value).2 = None
  ∧ vString (vSet (heap w (Value f)) value).1 = value.

Definition headerLines_Part000 (appName : string) : list string :=
  ["# " +:+ appName +:+ " configuration";
   "# ";
   "# Empty lines or lines starting with # will be ignored.";
   "# All other lines must look like " +:+ dq +:+ "KEY=VALUE" +:+ dq +:+
     " (without the quotes).";
   "# The VALUE must not be enclosed in quotes as well!"].

Definition headerLines_ConfyGo (appName : string) : list string :=
  ["# " +:+ appName +:+ " configuration";
   "# ";
   "# This config has https://github.com/schachmat/ingo syntax.";
   "# Empty lines or lines starting with # will be ignored.";
   "# All other lines must look like " +:+ dq +:+ "KEY=VALUE" +:+ dq +:+
     " (without the quotes).";
   "# The VALUE must not be enclosed in quotes as well!"].


(** ** Example worlds *)

Definition exPath : string := "/home/u/.myappinf0".

(** An environment without the override variable and without faults,
    in which [range] enumerates a map in the order of [map_to_list]. *)
Definition exEnvWith (arguments : list string)
    (wr : option (nat * error)) : Env :=
  {| environ := λ _, EmptyString;
     currentUser := Ok "/home/u";
     osArgs := arguments;
     readFault := λ _, None;
     openFault := λ _, None;
     seekResult := (0, None);
     truncateFault := None;
     writeFault := wr;
     rangeOrder := map_to_list |}.

Definition exEnv : Env := exEnvWith ["-host=example.org"] None.

(** A command line that assigns [host] twice and [v] once, in the
    three forms of an assignment, and ends the flags with an argument
    that is none. *)
Definition exEnvCmdline : Env :=
  exEnvWith ["--host"; "example.org"; "-v=false"; "-host=example.net";
             "rest"; "-host=late"] None.
Definition exEnvNoArgs : Env := exEnvWith [] None.
Definition exEnvDiskFull : Env := exEnvWith [] (Some (3%nat, "disk full")).

Definition exWorldOf (fl : gmap string FlagDecl) (h : ref → goValue)
    (fs : gmap string string) : World goValue :=
  {| flags := {| formal := fl; actual := ∅; parsed := false; args := [] |};
     heap := h; files := fs; trace := [] |}.

(** A string flag [host], and a Boolean with the two names [v] and
    [verbose]; a file that sets both, with an entry for no flag and a
    line without a separator. *)
Definition exFormal : gmap string FlagDecl :=
  {[ "host" := {| declUsage := "Host `address` for the server";
                  declValue := 0%nat; declDefValue := EmptyString |};
     "v" := {| declUsage := "verbose output";
               declValue := 1%nat; declDefValue := "false" |};
     "verbose" := {| declUsage := "verbose output";
                     declValue := 1%nat; declDefValue := "false" |} ]}.

Definition exHeap : ref → goValue :=
  λ r, match r with
       | O => stringValue EmptyString
       | _ => boolValue false
       end.

Definition exFile : string :=
  "host = localhost" +:+ nl +:+ "old-flag: 42" +:+ nl +:+ "v=true" +:+ nl
  +:+ "just some text" +:+ nl.

Definition exWorld : World goValue :=
  exWorldOf exFormal exHeap {[ exPath := exFile ]}.

(** The same flags with the file that [saveConfig] generates for
    them. *)
Definition exWorldGenerated : World goValue :=
  exWorldOf exFormal exHeap
    {[ exPath := saveConfig exEnvNoArgs (exWorldOf exFormal exHeap ∅)
                   (Part000.configHeader "MyApp") ∅ ]}.

(** A string flag whose default value ends in a space, without a file
    and with the file generated for it. *)
Definition sepFormal : gmap string FlagDecl :=
  {[ "sep" := {| declUsage := "separator of the fields";
                 declValue := 0%nat; declDefValue := ", " |} ]}.

Definition sepWorldNoFile : World goValue :=
  exWorldOf sepFormal (λ _, stringValue ", ") ∅.

Definition sepWorld : World goValue :=
  exWorldOf sepFormal (λ _, stringValue ", ")
    {[ exPath := saveConfig exEnvNoArgs sepWorldNoFile
                   (Part000.configHeader "MyApp") ∅ ]}.


(** A string with the two names [v] and [verbose]. *)
Definition aliasWorld : World goValue :=
  exWorldOf
    {[ "v" := {| declUsage := "level"; declValue := 0%nat;
                 declDefValue := EmptyString |};
       "verbose" := {| declUsage := "level"; declValue := 0%nat;
                       declDefValue := EmptyString |} ]}
    (λ _, stringValue EmptyString) ∅.

Definition verboseFlag : Flag :=
  {| Name := "verbose"; Usage := "level"; Value := 0%nat;
     DefValue := EmptyString |}.

(** ** Vocabulary of the further properties *)

Section Vocabulary2.
Context {V : Type} `{!ValueImpl V}.

(** A computation whose result and registry depend on the registry
    only, not on the files or the trace. *)
Definition respects_sim {A} (m : M V A) : Prop :=
  ∀ w w2 : World V, sim w w2 → sim (m w).1 (m w2).1 ∧ (m w).2 = (m w2).2.

(** No registered flag points to the variable at [r]. *)
Definition unregistered (w : World V) (r : ref) : Prop :=
  ∀ name fl, lookupFlag (flags w) name = Some fl → Value fl ≠ r.

End Vocabulary2.

(** The open file of [Parse] after the open: the file is there, empty
    if it was not before. *)
Definition opened (fs : gmap string string) (cPath : string)
  : gmap string string :=
  match fs !! cPath with
  | Some _ => fs
  | None => <[cPath:=EmptyString]> fs
  end.

(** No step of the rewrite by seek, truncate and write fails. *)
Definition rewriteWorks (E : Env) : Prop :=
  seekResult E = (0, None) ∧ truncateFault E = None ∧ writeFault E = None.

(** The files after the rewrite of [cf] with [data], as the faults of
    the environment make it end: a failing seek or truncate leaves the
    files as they are, a failing write leaves the bytes written before
    it failed. *)
Definition rewrittenFiles (E : Env) (cf data : string)
    (fs : gmap string string) : gmap string string :=
  if bool_decide (is_Some (seekResult E).2) || negb ((seekResult E).1 =? 0)
  then fs
  else
    match truncateFault E with
    | Some _ => fs
    | None =>
        match writeFault E with
        | Some (n, _) => <[cf:=String.substring 0 n data]> fs
        | None => <[cf:=data]> fs
        end
    end.

(** The command line begins with no flag: it is empty, or its first
    argument is shorter than two bytes or does not begin with [-]. *)
Definition noFlagArgs (arguments : list string) : bool :=
  match arguments with
  | [] => true
  | s :: _ => (len s <? 2) || negb (Ascii.eqb (at_ s 0) "-")
  end.

(** Whether a string begins with a rune that [unicode.IsSpace] accepts,
    and the same for a reversed string, which begins with the last
    byte of its last rune. *)
Definition startsSpace (s : string) : bool :=
  match s with
  | String a s1 =>
      Strings.asciiSpace a
      || match s1 with
         | String b s2 =>
             Strings.spaceRune2 a b
             || match s2 with
                | String c _ => Strings.spaceRune3 a b c
                | EmptyString => false
                end
         | EmptyString => false
         end
  | EmptyString => false
  end.

Definition startsSpace_rev (s : string) : bool :=
  match s with
  | String a s1 =>
      Strings.asciiSpace a
      || match s1 with
         | String b s2 =>
             Strings.spaceRune2 b a
             || match s2 with
                | String c _ => Strings.spaceRune3 c b a
                | EmptyString => false
                end
         | EmptyString => false
         end
  | EmptyString => false
  end.

(** A text without a line feed. *)
Fixpoint noLF (s : string) : bool :=
  match s with
  | EmptyString => true
  | String c s' => negb (Ascii.eqb c "010") && noLF s'
  end.

(** The line ends of a file written on Windows. *)
Definition crlf : string := String "013"%char nl.

Definition unlinesCRLF (l : list string) : string :=
  concatS ((λ x, x +:+ crlf) <$> l).

(** ** The test of [test.go] *)

(** [strconv.ParseInt(s, 0, strconv.IntSize)], with the value it
    returns beside an error, and [strconv.Itoa], taken as given. *)
Class Strconv := {
  ParseInt : string → Z * option error;
  Itoa : Z → string;
}.

Module Test.

(** The values behind the flags of the test: the [int] of [flag.Int],
    whose [Set] stores what [ParseInt] returns, also beside an error,
    and the string and boolean values. *)
Inductive testValue :=
| intValue (i : Z)
| otherValue (v : goValue).

Section Test.
Context `{!GoLib} `{!Strconv}.

Global Instance testValue_impl : ValueImpl testValue := {|
  vString v :=
    match v with
    | intValue i => Itoa i
    | otherValue v => vString v
    end;
  vSet v s :=
    match v with
    | intValue _ => let '(i, err) := ParseInt s in (intValue i, err)
    | otherValue v => let '(v', err) := vSet v s in (otherValue v', err)
    end;
  vIsBoolFlag v :=
    match v with
    | intValue _ => false
    | otherValue v => vIsBoolFlag v
    end
|}.

(** [os.Setenv] *)
Definition Setenv (name value : string) (E : Env) : Env :=
  {| environ := λ n, if String.eqb n name then value else environ E n;
     currentUser := currentUser E;
     osArgs := osArgs E;
     readFault := readFault E;
     openFault := openFault E;
     seekResult := seekResult E;
     truncateFault := truncateFault E;
     writeFault := writeFault E;
     rangeOrder := rangeOrder E |}.

(** [flag.Int], [flag.String] and [flag.Bool] for a name that neither
    begins with [-] nor holds [=]: the new variable, at [r], gets the
    default value, and [FlagSet.Var] registers the flag with the string
    form of that value as its default, or panics when the name is
    registered already. *)
Definition flag_Var (r : ref) (value : testValue) (name usage : string)
  : M testValue (option string) :=
  (λ w, (set_heap (<[r:=value]> (heap w)) w, tt)) ;;;
  fl <- gets (λ w, formal (flags w) !! name) ;;
  match fl with
  | Some _ => ret (Some ("flag redefined: " +:+ name))
  | None =>
      (λ w, (set_flags
               {| formal := <[name:={| declUsage := usage; declValue := r;
                                       declDefValue := vString value |}]>
                              (formal (flags w));
                  actual := actual (flags w);
                  parsed := parsed (flags w);
                  args := args (flags w) |} w, tt)) ;;;
      ret None
  end.

(** [flag.NewFlagSet(os.Args[0], flag.ExitOnError)] *)
Definition NewFlagSet : FlagSet :=
  {| formal := ∅; actual := ∅; parsed := false; args := [] |}.

(** How the test function ends: it returns, with the failures that
    [t.Errorf] reported; [t.Fatalf] stops it; it panics; or the process
    exits. *)
Inductive verdict :=
| Finished (failures : list string)
| FailedNow (msg : string)
| Panicked (msg : string)
| Exited (code : Z).

Definition orPanic (m : M testValue (option string))
    (k : M testValue verdict) : M testValue verdict :=
  p <- m ;;
  match p with
  | Some msg => ret (Panicked msg)
  | None => k
  end.

Definition configContent : string :=
  "port=8080" +:+ nl +:+
  tab +:+ tab +:+ "host=localhost" +:+ nl +:+
  tab +:+ tab +:+ "debug=false" +:+ nl +:+
  tab +:+ tab +:+ "log-level=info".

(** The variables behind the pointers that the flag functions
    return. *)
Definition intOf (v : testValue) : Z :=
  match v with intValue i => i | otherValue _ => 0 end.

Definition stringOf (v : testValue) : string :=
  match v with otherValue (stringValue s) => s | _ => EmptyString end.

Definition boolOf (v : testValue) : bool :=
  match v with otherValue (boolValue b) => b | _ => false end.

Section TestParse.
Variable E : Env.
(** What [ioutil.TempDir] returns, and the new variables of the four
    flags. *)
Variable tmp : result string.
Variable port host debug logLevel : ref.

(** The four checks at the end of the test. *)
Definition checks (w : World testValue) : list string :=
  (if intOf (heap w port) =? 8080 then []
   else ["Expected port 8080, got " +:+ Itoa (intOf (heap w port))])
  ++ (if String.eqb (stringOf (heap w host)) "localhost" then []
      else ["Expected host 'localhost', got '" +:+ stringOf (heap w host)
            +:+ "'"])
  ++ (if boolOf (heap w debug) then ["Expected debug false, got true"]
      else [])
  ++ (if String.eqb (stringOf (heap w logLevel)) "info" then []
      else ["Expected log-level 'info', got '"
            +:+ stringOf (heap w logLevel) +:+ "'"]).

(** [TestParse].  The directory of [ioutil.TempDir] is new, so the
    deferred [os.RemoveAll] removes the one file the test has written
    there; it runs unless the process exits. *)
Definition TestParse : M testValue verdict :=
  match tmp with
  | Err err => ret (FailedNow ("Failed to create temp dir: " +:+ err))
  | Ok dir =>
      let configFilePath := filepath_Join dir ".myappconfig" in
      let E' := Setenv "MYAPPRC" configFilePath E in
      v <- (err <- ConfyGo.WriteFile E' configFilePath configContent ;;
            match err with
            | Some err =>
                ret (FailedNow ("Failed to write temp config file: "
                                +:+ err))
            | None =>
                orPanic (flag_Var port (intValue 0) "port"
                           "Port to run the server on")
                (orPanic (flag_Var host (otherValue (stringValue EmptyString))
                            "host" "Host address for the server")
                (orPanic (flag_Var debug (otherValue (boolValue false))
                            "debug" "Enable debug mode")
                (orPanic (flag_Var logLevel
                            (otherValue (stringValue EmptyString))
                            "log-level" "Log level for the application")
                ((λ w, (set_flags NewFlagSet w, tt)) ;;;
                 out <- ConfyGo.Parse E' "myapp" ;;
                 match out with
                 | Returns (Some err) =>
                     ret (FailedNow ("Parse() error: " +:+ err))
                 | Exits code => ret (Exited code)
                 | Returns None =>
                     failures <- gets checks ;;
                     ret (Finished failures)
                 end))))
            end) ;;
      match v with
      | Exited _ => ret v
      | _ =>
          (λ w, (set_files (delete configFilePath (files w)) w, tt)) ;;;
          ret v
      end
  end.

End TestParse.
End Test.
End Test.

(** ** Example worlds of the further properties *)

(** The flags of the examples without a file. *)
Definition exWorldNoFile : World goValue := exWorldOf exFormal exHeap ∅.

(** Environments in which the file cannot be opened, and cannot be
    read. *)
Definition exEnvNoOpen : Env :=
  {| environ := λ _, EmptyString;
     currentUser := Ok "/home/u";
     osArgs := [];
     readFault := λ _, None;
     openFault := λ _, Some "permission denied";
     seekResult := (0, None);
     truncateFault := None;
     writeFault := None;
     rangeOrder := map_to_list |}.

Definition exEnvNoRead : Env :=
  {| environ := λ _, EmptyString;
     currentUser := Ok "/home/u";
     osArgs := [];
     readFault := λ _, Some "input/output error";
     openFault := λ _, None;
     seekResult := (0, None);
     truncateFault := None;
     writeFault := None;
     rangeOrder := map_to_list |}.

(** A command line that begins with a positional argument. *)
Definition exEnvPositional : Env := exEnvWith ["serve"; "-host=h"] None.

(** A flag whose name holds a colon, and a file that names it. *)
Definition colonWorld : World goValue :=
  exWorldOf
    {[ "a:b" := {| declUsage := "ratio"; declValue := 0%nat;
                   declDefValue := "1" |} ]}
    (λ _, stringValue "1") ∅.

(** Decimal numerals without a sign, as [strconv.Itoa] writes them for
    a number that is not negative and as [strconv.ParseInt] reads them
    when they do not begin with a zero. *)
Fixpoint decimal (acc : Z) (s : string) : option Z :=
  match s with
  | EmptyString => Some acc
  | String c s' =>
      if (48 <=? byte c) && (byte c <=? 57)
      then decimal (10 * acc + (byte c - 48)) s'
      else None
  end.

Definition exStrconv : Strconv :=
  {| ParseInt s :=
       match s, decimal 0 s with
       | String _ _, Some i => (i, None)
       | _, _ => (0, Some "parse error")
       end;
     Itoa i := pretty i |}.

(** The world in which the test starts: no flag, no file. *)
Definition exTestWorld : World Test.testValue :=
  {| flags := Test.NewFlagSet; heap := λ _, Test.intValue 0; files := ∅;
     trace := [] |}.

(** The flags of the examples with the file that an earlier run
    generated for them, with its section of two entries that name no
    flag; and an environment in which [range] enumerates a map the
    other way round. *)
Definition exTwoEntries : string := "a=1" +:+ nl +:+ "b=2" +:+ nl.

Definition exWorldEntries : World goValue :=
  exWorldOf exFormal exHeap
    {[ exPath := saveConfig exEnvNoArgs exWorldNoFile
                   (Part000.configHeader "MyApp")
                   (parseConfig exTwoEntries exWorldNoFile).2 ]}.

Definition exEnvReversed : Env :=
  {| environ := λ _, EmptyString;
     currentUser := Ok "/home/u";
     osArgs := [];
     readFault := λ _, None;
     openFault := λ _, None;
     seekResult := (0, None);
     truncateFault := None;
     writeFault := None;
     rangeOrder := λ m, reverse (map_to_list m) |}.

(** * Properties *)

(** ** Byte strings *)

Lemma sapp_cons (c : ascii) (a b : string) :
  String c a +:+ b = String c (a +:+ b).
Proof. reflexivity. Qed.

Lemma sapp_nil_l (s : string) : EmptyString +:+ s = s.
Proof. reflexivity. Qed.

Lemma sapp_nil_r (s : string) : s +:+ EmptyString = s.
Proof.
  induction s as [|c s IH]; [done|]. by rewrite sapp_cons, IH.
Qed.

Lemma sapp_assoc (a b c : string) : (a +:+ b) +:+ c = a +:+ (b +:+ c).
Proof.
  induction a as [|x a IH]; [done|]. by rewrite !sapp_cons, IH.
Qed.

Lemma slength_app (a b : string) :
  String.length (a +:+ b) = (String.length a + String.length b)%nat.
Proof.
  induction a as [|x a IH]; [done|]. rewrite sapp_cons. simpl. by rewrite IH.
Qed.

(** ** The monad *)

Lemma substring_0_app (a b : string) :
  String.substring 0 (String.length a) (a +:+ b) = a.
Proof.
  induction a as [|x a IH]; simpl.
  - by destruct b.
  - rewrite ?sapp_cons. simpl. by rewrite IH.
Qed.

Lemma substring_all (b : string) :
  String.substring 0 (String.length b) b = b.
Proof. induction b as [|x b IH]; simpl; [done|]. by rewrite IH. Qed.

Lemma substring_skip (a b : string) (n m : nat) :
  String.substring (String.length a + n) m (a +:+ b) = String.substring n m b.
Proof.
  induction a as [|x a IH]; simpl; [done|]. rewrite ?sapp_cons. simpl. done.
Qed.

Lemma slice_prefix (a b : string) : slice (a +:+ b) 0 (len a) = a.
Proof.
  unfold slice, len. rewrite Z.sub_0_r, Nat2Z.id. simpl.
  apply substring_0_app.
Qed.

Lemma sliceFrom_suffix (a b : string) : sliceFrom (a +:+ b) (len a) = b.
Proof.
  unfold sliceFrom, slice, len. rewrite slength_app, Nat2Z.id.
  replace (Z.to_nat (Z.of_nat (String.length a + String.length b)
                     - Z.of_nat (String.length a)))
    with (String.length b) by lia.
  rewrite <- (Nat.add_0_r (String.length a)) at 1.
  rewrite substring_skip. apply substring_all.
Qed.

(** ** The line format *)

Lemma containsByte_separator (c : ascii) :
  containsByte "=:" c = isSeparator c.
Proof.
  unfold containsByte, isSeparator. simpl.
  destruct (Ascii.eqb_spec c "="%char) as [->|Hne1]; [done|].
  destruct (Ascii.eqb_spec c ":"%char) as [->|Hne2]; [done|].
  simpl. apply bool_decide_eq_false. intros Hin.
  apply elem_of_cons in Hin as [?|Hin]; [done|].
  apply elem_of_cons in Hin as [?|Hin]; [done|].
  by apply elem_of_nil in Hin.
Qed.

Lemma cutAtSeparator_Some (s before after : string) :
  cutAtSeparator s = Some (before, after) →
  ∃ c, s = before +:+ String c after ∧ isSeparator c = true
       ∧ noSeparator before.
Proof.
  revert before. induction s as [|x s IH]; intros before Hcut; [done|].
  simpl in Hcut. destruct (isSeparator x) eqn:Hx.
  - simplify_eq. exists x. done.
  - destruct (cutAtSeparator s) as [[b a]|] eqn:Hs; [|done]. simplify_eq.
    destruct (IH b eq_refl) as (c & -> & Hc & Hb).
    exists c. rewrite sapp_cons. done.
Qed.

Lemma cutAtSeparator_None (s : string) :
  cutAtSeparator s = None ↔ noSeparator s.
Proof.
  induction s as [|x s IH]; simpl; [done|].
  destruct (isSeparator x); [by split; [|intros [? _]]|].
  destruct (cutAtSeparator s) as [[b a]|].
  - split; [done|]. intros [_ Hs]. by apply IH in Hs.
  - split; [|done]. intros _. split; [done|]. by apply IH.
Qed.

Lemma IndexAny_from_cut (s : string) (i : Z) :
  0 ≤ i →
  match cutAtSeparator s with
  | Some (before, _) => Strings.IndexAny_from i s "=:" = i + len before
  | None => Strings.IndexAny_from i s "=:" = -1
  end.
Proof.
  revert i. induction s as [|x s IH]; intros i Hi; simpl; [done|].
  rewrite containsByte_separator. destruct (isSeparator x).
  - unfold len. simpl. lia.
  - specialize (IH (i + 1) ltac:(lia)).
    destruct (cutAtSeparator s) as [[b a]|]; [|done].
    rewrite IH. unfold len. simpl. lia.
Qed.

Ltac unfold_M :=
  unfold bind, ret, gets, emit, set_flags, set_heap, set_files, set_args,
    set_actual, set_parsed in *.

Section Correctness.
Context {V : Type} `{!ValueImpl V} `{!GoLib}.
Implicit Types (w : World V) (E : Env).

(** *** Path resolution *)

(** C7.  The path is the value of the variable named by the upper-cased
    application name followed by [INF0] when that value is not empty;
    otherwise it is the home directory of the current user joined with
    ["."], the lower-cased application name and ["inf0"]; the call
    fails exactly when the variable is empty or unset and the current
    user cannot be found.  This holds for [getConfigPath] and for
    [getConfigFilePath], which differ in the join they use. *)
Theorem getConfigPath_resolves E appName w :
  let envname := ToUpper appName +:+ "INF0" in
  let override := environ E envname in
  let dotfile := "." +:+ ToLower appName +:+ "inf0" in
  let r1 := (Part000.getConfigPath E appName w).2 in
  let r2 := (ConfyGo.getConfigFilePath E appName w).2 in
  (override ≠ EmptyString → r1 = (override, None) ∧ r2 = (override, None))
  ∧ (override = EmptyString → ∀ home, currentUser E = Ok home →
       r1 = (path_Join home dotfile, None)
       ∧ r2 = (filepath_Join home dotfile, None))
  ∧ (is_Some r1.2 ↔ override = EmptyString ∧ ∃ e, currentUser E = Err e)
  ∧ (is_Some r2.2 ↔ override = EmptyString ∧ ∃ e, currentUser E = Err e).
Proof.
  intros envname override dotfile r1 r2.
  subst r1 r2. unfold Part000.getConfigPath, ConfyGo.getConfigFilePath,
    Getenv, user_Current. unfold_M. simpl.
  fold envname. fold override. fold dotfile.
  destruct (String.eqb_spec override EmptyString) as [Heq|Hne].
  - split; [done|]. split.
    + intros _ home Hu. rewrite Hu. done.
    + destruct (currentUser E) as [home|e]; simpl; split.
      * split; [intros [? ?]; done|]. intros [_ [e ?]]. done.
      * split; [intros [? ?]; done|]. intros [_ [e ?]]. done.
      * split; [eauto|]. intros _. eauto.
      * split; [eauto|]. intros _. eauto.
  - simpl. split; [done|]. split; [done|].
    split; (split; [intros [? ?]; done | intros [? _]; done]).
Qed.

(** *** Computations on the registry *)

Lemma replay_app (e1 e2 : list Event) (h : ref → V) :
  replay (e1 ++ e2) h = replay e2 (replay e1 h).
Proof. unfold replay. by rewrite foldl_app. Qed.

Lemma registry_only_ret {A} (a : A) : registry_only (ret a : M V A).
Proof.
  intros w. exists []. unfold ret. simpl. rewrite app_nil_r.
  do 7 (split; [done|]). intros w2 Hsim. rewrite app_nil_r. done.
Qed.

Lemma registry_only_bind {A B} (m : M V A) (k : A → M V B) :
  registry_only m → (∀ a, registry_only (k a)) → registry_only (bind m k).
Proof.
  intros Hm Hk w. unfold bind.
  destruct (Hm w) as (e1 & Hf1 & Ht1 & Hh1 & He1 & Hfo1 & Hp1 & Ha1 & Hs1).
  destruct (m w) as [w1 a] eqn:Hmw. simpl in *.
  destruct (Hk a w1) as (e2 & Hf2 & Ht2 & Hh2 & He2 & Hfo2 & Hp2 & Ha2 & Hs2).
  exists (e1 ++ e2).
  rewrite Hf2, Ht2, Hh2, Hfo2, Hp2, Ha2, Hf1, Ht1, Hh1, Hfo1, Hp1, Ha1.
  rewrite replay_app, (assoc_L (++)).
  do 3 (split; [done|]). split; [by apply Forall_app|].
  do 3 (split; [done|]). intros w2 Hsim.
  destruct (Hs1 w2 Hsim) as (Hsim1 & Heq & Htr & Hfl).
  destruct (m w2) as [w2' a'] eqn:Hmw2. simpl in *. subst a'.
  destruct (Hs2 w2' Hsim1) as (Hsim2 & Heq2 & Htr2 & Hfl2).
  split; [done|]. split; [done|].
  rewrite Htr2, Htr, Hfl2, (assoc_L (++)). done.
Qed.

Lemma registry_only_gets {A} (f : World V → A) :
  (∀ w1 w2, sim w1 w2 → f w1 = f w2) → registry_only (gets f).
Proof.
  intros Hf w. exists []. unfold gets. simpl. rewrite app_nil_r.
  do 7 (split; [done|]). intros w2 Hsim. rewrite app_nil_r.
  split; [done|]. split; [by apply Hf|done].
Qed.

Lemma registry_only_Value_Set (r : ref) (s : string) :
  registry_only (Value_Set r s).
Proof.
  intros w. exists [EvValueSet r s]. unfold Value_Set. unfold_M. simpl.
  destruct (vSet (heap w r) s) as [v err] eqn:Hset. simpl.
  split; [done|]. split; [done|].
  split; [reflexivity|].
  split; [repeat constructor|].
  do 3 (split; [done|]). intros w2 [Hfl Hh].
  rewrite <- Hh, Hset. unfold sim. simpl. by rewrite Hfl.
Qed.

Lemma registry_only_set_actual (name : string) :
  registry_only (λ w : World V, (set_actual name w, tt)).
Proof.
  intros w. exists []. unfold_M. simpl. rewrite app_nil_r.
  do 7 (split; [done|]). intros w2 [Hfl Hh]. rewrite app_nil_r.
  rewrite Hfl. done.
Qed.

Lemma registry_only_flag_Set (name value : string) :
  registry_only (flag_Set name value).
Proof.
  unfold flag_Set. apply registry_only_bind.
  - apply registry_only_gets. by intros w1 w2 [-> _].
  - intros [fl|]; [|apply registry_only_ret].
    apply registry_only_bind; [apply registry_only_Value_Set|].
    intros [e|]; [apply registry_only_ret|].
    apply registry_only_bind; [apply registry_only_set_actual|].
    intros _. apply registry_only_ret.
Qed.

Lemma registry_only_parseConfig_line (obs : gmap string string)
    (text : string) :
  registry_only (parseConfig_line obs text).
Proof.
  unfold parseConfig_line.
  destruct (_ || _); [apply registry_only_ret|].
  destruct (_ =? _); [apply registry_only_ret|].
  apply registry_only_bind; [apply registry_only_flag_Set|].
  intros [e|]; apply registry_only_ret.
Qed.

Lemma registry_only_parseConfig_loop (lines : list string)
    (obs : gmap string string) :
  registry_only (parseConfig_loop obs lines).
Proof.
  revert obs. induction lines as [|text rest IH]; intros obs; simpl.
  - apply registry_only_ret.
  - apply registry_only_bind; [apply registry_only_parseConfig_line|].
    intros obs'. apply IH.
Qed.

Lemma registry_only_parseConfig (input : string) :
  registry_only (parseConfig input).
Proof. apply registry_only_parseConfig_loop. Qed.

(** *** The command-line scan *)

Lemma isValueSet_isFlagEvent (e : Event) : isValueSet e → isFlagEvent e.
Proof. by destruct e. Qed.

Lemma registry_only_cmdline_only {A} (m : M V A) :
  registry_only m → cmdline_only m.
Proof.
  intros Hm w. destruct (Hm w) as (evs & Hf & Ht & Hh & He & Hfo & Hp & _).
  exists evs. do 3 (split; [done|]). split; [|done].
  eapply Forall_impl; [exact He|]. apply isValueSet_isFlagEvent.
Qed.

Lemma cmdline_only_ret {A} (a : A) : cmdline_only (ret a : M V A).
Proof. apply registry_only_cmdline_only, registry_only_ret. Qed.

Lemma cmdline_only_bind {A B} (m : M V A) (k : A → M V B) :
  cmdline_only m → (∀ a, cmdline_only (k a)) → cmdline_only (bind m k).
Proof.
  intros Hm Hk w. unfold bind.
  destruct (Hm w) as (e1 & Hf1 & Ht1 & Hh1 & He1 & Hfo1 & Hp1).
  destruct (m w) as [w1 a] eqn:Hmw. simpl in *.
  destruct (Hk a w1) as (e2 & Hf2 & Ht2 & Hh2 & He2 & Hfo2 & Hp2).
  exists (e1 ++ e2).
  rewrite Hf2, Ht2, Hh2, Hfo2, Hp2, Hf1, Ht1, Hh1, Hfo1, Hp1.
  rewrite replay_app, (assoc_L (++)).
  do 3 (split; [done|]). split; [by apply Forall_app|done].
Qed.

Lemma cmdline_only_gets {A} (f : World V → A) : cmdline_only (gets f).
Proof.
  intros w. exists []. unfold gets. simpl. rewrite app_nil_r.
  repeat split; (reflexivity || constructor).
Qed.

Lemma cmdline_only_set_args (a : list string) :
  cmdline_only (λ w : World V, (set_args a w, tt)).
Proof.
  intros w. exists []. unfold_M. simpl. rewrite app_nil_r.
  repeat split; (reflexivity || constructor).
Qed.

Lemma cmdline_only_set_actual (name : string) :
  cmdline_only (λ w : World V, (set_actual name w, tt)).
Proof. apply registry_only_cmdline_only, registry_only_set_actual. Qed.

Lemma cmdline_only_emit (e : Event) :
  isFlagEvent e → ¬ isValueSet e → cmdline_only (emit e).
Proof.
  intros He Hn w. exists [e]. unfold_M. simpl.
  split; [done|]. split; [done|].
  split; [by destruct e|]. split; [by repeat constructor|done].
Qed.

Lemma cmdline_only_failf (e : flagError) : cmdline_only (failf e).
Proof.
  unfold failf. apply cmdline_only_bind; [apply cmdline_only_emit; simpl; tauto|].
  intros _. apply cmdline_only_ret.
Qed.

Lemma cmdline_only_Value_Set (r : ref) (s : string) :
  cmdline_only (Value_Set r s).
Proof. apply registry_only_cmdline_only, registry_only_Value_Set. Qed.

Lemma cmdline_only_parseOne : cmdline_only parseOne.
Proof.
  unfold parseOne. apply cmdline_only_bind; [apply cmdline_only_gets|].
  intros [|s rest]; [apply cmdline_only_ret|].
  destruct (_ || _); [apply cmdline_only_ret|].
  destruct (_ && _).
  { apply cmdline_only_bind; [apply cmdline_only_set_args|].
    intros _. apply cmdline_only_ret. }
  destruct (_ || _); [apply cmdline_only_failf|].
  apply cmdline_only_bind; [apply cmdline_only_set_args|]. intros _.
  destruct (splitValue _) as [[name hasValue] value].
  apply cmdline_only_bind; [apply cmdline_only_gets|].
  intros [fl|].
  - apply cmdline_only_bind; [apply cmdline_only_gets|]. intros isBool.
    apply cmdline_only_bind.
    + destruct isBool.
      * destruct hasValue;
          (apply cmdline_only_bind; [apply cmdline_only_Value_Set|];
           intros err; apply cmdline_only_ret).
      * destruct hasValue.
        -- apply cmdline_only_bind; [apply cmdline_only_Value_Set|].
           intros err. apply cmdline_only_ret.
        -- destruct rest as [|value' rest']; [apply cmdline_only_ret|].
           apply cmdline_only_bind; [apply cmdline_only_set_args|]. intros _.
           apply cmdline_only_bind; [apply cmdline_only_Value_Set|].
           intros err. apply cmdline_only_ret.
    + intros [e|]; [apply cmdline_only_failf|].
      apply cmdline_only_bind; [apply cmdline_only_set_actual|].
      intros _. apply cmdline_only_ret.
  - destruct (_ || _); [|apply cmdline_only_failf].
    apply cmdline_only_bind; [apply cmdline_only_emit; simpl; tauto|].
    intros _. apply cmdline_only_ret.
Qed.

Lemma cmdline_only_parseLoop (fuel : nat) : cmdline_only (parseLoop fuel).
Proof.
  induction fuel as [|n IH]; simpl; [apply cmdline_only_ret|].
  apply cmdline_only_bind; [apply cmdline_only_parseOne|].
  intros [[] [[]|]]; try apply cmdline_only_ret; apply IH.
Qed.

(** [flag.Parse] marks the flag set as parsed, whatever the scan finds;
    the events after its own account for the new heap. *)
Lemma flag_Parse_spec E w :
  ∃ evs,
    files (flag_Parse E w).1 = files w
    ∧ trace (flag_Parse E w).1 = trace w ++ EvFlagParse (osArgs E) :: evs
    ∧ heap (flag_Parse E w).1 = replay evs (heap w)
    ∧ Forall isFlagEvent evs
    ∧ formal (flags (flag_Parse E w).1) = formal (flags w)
    ∧ parsed (flags (flag_Parse E w).1) = true.
Proof.
  set (w1 := set_args (osArgs E) (set_parsed
               {| flags := flags w; heap := heap w; files := files w;
                  trace := trace w ++ [EvFlagParse (osArgs E)] |})).
  destruct (cmdline_only_parseLoop (S (length (osArgs E))) w1)
    as (evs & Hf & Ht & Hh & He & Hfo & Hp).
  exists evs.
  change (flag_Parse E w) with (parseLoop (S (length (osArgs E))) w1).
  rewrite Hf, Ht, Hh, Hfo, Hp. subst w1. simpl.
  rewrite <- (assoc_L (++)). done.
Qed.

(** A round of the scan that goes on has consumed an argument, so the
    loop never uses up fuel that exceeds the number of arguments. *)
Lemma parseOne_seen w w' e :
  parseOne w = (w', (true, e)) →
  (length (args (flags w')) < length (args (flags w)))%nat.
Proof.
  unfold parseOne, failf, Value_Set. unfold_M. intros Hone.
  repeat (case_match; simplify_eq/=); lia.
Qed.

Lemma parseLoop_fuel (n m : nat) w :
  (length (args (flags w)) < n)%nat → (length (args (flags w)) < m)%nat →
  parseLoop n w = parseLoop m w.
Proof.
  revert m w. induction n as [|n IH]; intros m w Hn Hm; [lia|].
  destruct m as [|m]; [lia|]. simpl. unfold bind.
  destruct (parseOne w) as [w' [[] e]] eqn:Hone; [|done].
  apply parseOne_seen in Hone. apply IH; lia.
Qed.

(** *** The parts of [Parse] *)

Lemma saveConfig_sim E w1 w2 (buf : string) (obs : gmap string string) :
  sim w1 w2 → saveConfig E w1 buf obs = saveConfig E w2 buf obs.
Proof.
  intros [Hfl Hh]. unfold saveConfig, writeVisit. by rewrite Hfl, Hh.
Qed.

Lemma getConfigPath_world E appName w :
  sim w (Part000.getConfigPath E appName w).1
  ∧ files (Part000.getConfigPath E appName w).1 = files w.
Proof.
  unfold Part000.getConfigPath, Getenv, user_Current, sim. unfold_M. simpl.
  repeat (case_match; simpl); done.
Qed.

Lemma getConfigFilePath_world E appName w :
  sim w (ConfyGo.getConfigFilePath E appName w).1
  ∧ files (ConfyGo.getConfigFilePath E appName w).1 = files w.
Proof.
  unfold ConfyGo.getConfigFilePath, Getenv, user_Current, sim. unfold_M.
  simpl. repeat (case_match; simpl); done.
Qed.

(** After a successful open the file exists, with the contents it had,
    or empty if it was not there. *)
Lemma openOrCreate_world E name w :
  openFault E name = None →
  (Part000.openOrCreate E name w).2 = Ok name
  ∧ sim w (Part000.openOrCreate E name w).1
  ∧ files (Part000.openOrCreate E name w).1 !! name
    = Some (default EmptyString (files w !! name))
  ∧ (is_Some (files w !! name) →
     files (Part000.openOrCreate E name w).1 = files w).
Proof.
  intros Hopen. unfold Part000.openOrCreate, sim. unfold_M. simpl.
  rewrite Hopen. simpl.
  destruct (files w !! name) as [c|] eqn:Hc; simpl.
  - rewrite Hc. done.
  - rewrite lookup_insert_eq. repeat split; by intros [? ?].
Qed.

(** The registry that the file leaves behind does not depend on the
    files and the trace of the world in which it is read. *)
Lemma parseConfig_sim (input : string) w w2 :
  sim w w2 →
  sim (parseConfig input w).1 (parseConfig input w2).1
  ∧ (parseConfig input w).2 = (parseConfig input w2).2
  ∧ files (parseConfig input w2).1 = files w2.
Proof.
  intros Hsim.
  destruct (registry_only_parseConfig input w) as (evs & _ & _ & _ & _ & _ & _ & _ & Hs).
  destruct (Hs w2 Hsim) as (H1 & H2 & _ & H4). done.
Qed.

(** The world in which the file is read: the one that path resolution
    and the open leave. *)
Lemma Part000_Parse_unfold E appName cPath w :
  parsed (flags w) = false →
  (Part000.getConfigPath E appName w).2 = (cPath, None) →
  openFault E cPath = None →
  let w0 := (Part000.openOrCreate E cPath
               (Part000.getConfigPath E appName w).1).1 in
  Part000.Parse E appName w
  = (let '(w', out) := Part000.Parse_opened E appName cPath cPath w0 in
     match out with
     | Exits _ => (w', out)
     | Returns _ => ((emit EvClose w').1, out)
     end).
Proof.
  intros Hp Hpath Hopen w0. unfold Part000.Parse, flag_Parsed.
  unfold bind at 1. unfold gets at 1. rewrite Hp.
  unfold bind at 1.
  destruct (Part000.getConfigPath E appName w) as [wp [c e]] eqn:Hg.
  simpl in Hpath. simplify_eq. unfold bind at 1.
  destruct (openOrCreate_world E cPath wp Hopen) as (Hok & _).
  destruct (Part000.openOrCreate E cPath wp) as [wo r] eqn:Ho.
  simpl in Hok. subst r. simpl in w0. subst w0. unfold bind at 1.
  rewrite Ho. simpl.
  destruct (Part000.Parse_opened E appName cPath cPath wo) as [w' out].
  destruct out; done.
Qed.

Lemma Part000_Parse_opened_unfold E appName cPath w0 :
  let old := default EmptyString (files w0 !! cPath) in
  let w1 := (parseConfig old w0).1 in
  let obs := (parseConfig old w0).2 in
  let w2 := if (0 <? size obs)%nat
            then (emit (EvStderr (updateWarning appName cPath)) w1).1
            else w1 in
  let newConf := saveConfig E w1 (Part000.configHeader appName) obs in
  Part000.Parse_opened E appName cPath cPath w0
  = if String.eqb old newConf then flag_Parse E w2
    else
      let '(w3, err) := Part000.rewriteFile E cPath cPath newConf w2 in
      match err with
      | Some err => (w3, Returns (Some err))
      | None => flag_Parse E w3
      end.
Proof.
  intros old w1 obs w2 newConf. unfold Part000.Parse_opened.
  unfold bind at 1. unfold Part000.readAll, gets at 1. fold old.
  unfold bind at 1. subst w1 obs w2 newConf.
  destruct (parseConfig old w0) as [w1 obs]. simpl.
  unfold bind at 1.
  assert (Hsave : ∀ u : World V, sim w1 u →
    saveConfig E u (Part000.configHeader appName) obs
    = saveConfig E w1 (Part000.configHeader appName) obs).
  { intros u Hu. symmetry. by apply saveConfig_sim. }
  destruct (0 <? size obs)%nat; simpl.
  - unfold bind at 1. unfold gets at 1. rewrite Hsave by done.
    unfold bind at 1.
    destruct (String.eqb old _); simpl; [done|].
    destruct (Part000.rewriteFile _ _ _ _ _) as [w3 [e|]]; done.
  - unfold bind at 1. unfold gets at 1. unfold ret at 1. simpl.
    unfold bind at 1.
    destruct (String.eqb old _); simpl; [done|].
    destruct (Part000.rewriteFile _ _ _ _ _) as [w3 [e|]]; done.
Qed.

Lemma sim_refl w : sim w w.
Proof. done. Qed.

Lemma sim_trans w1 w2 w3 : sim w1 w2 → sim w2 w3 → sim w1 w3.
Proof. intros [? ?] [? ?]. split; congruence. Qed.

Lemma sim_sym w1 w2 : sim w1 w2 → sim w2 w1.
Proof. intros [? ?]. split; congruence. Qed.

Lemma rewriteFile_fails E cPath cf (data : string) w :
  rewriteFails E →
  ∃ err, (Part000.rewriteFile E cPath cf data w).2 = Some err
         ∧ isConfigIOError cPath err
         ∧ sim w (Part000.rewriteFile E cPath cf data w).1.
Proof.
  unfold rewriteFails, Part000.rewriteFile, Part000.Seek, Part000.Truncate,
    Part000.WriteTo, isConfigIOError, sim.
  unfold_M. simpl. intros Hfail.
  destruct (seekResult E) as [ofs [e|]] eqn:Hseek; simpl in *.
  { eexists. split; [done|]. split; [|done]. exists e. by left. }
  destruct (Z.eqb_spec ofs 0) as [->|Hofs]; simpl.
  2:{ eexists. split; [done|]. split; [|done]. exists "<nil>". by left. }
  destruct (truncateFault E) as [e|] eqn:Htr; simpl.
  { eexists. split; [done|]. split; [|done]. exists e. right. by left. }
  destruct (writeFault E) as [[n e]|] eqn:Hwr; simpl.
  { eexists. split; [done|]. split; [|done]. exists e. right. by right. }
  destruct Hfail as [[? ?]|[?|[[? ?]|[? ?]]]]; done.
Qed.

(** C9.  When the rewrite of the changed file fails at its seek, its
    truncate or its write, [Parse] returns the error of the failed step,
    and the registry is the one that reading the file left: the values
    the file applied stay applied, and the flags are not parsed. *)
Theorem Parse_rewrite_failure_keeps_values E appName cPath w :
  parsed (flags w) = false →
  (Part000.getConfigPath E appName w).2 = (cPath, None) →
  openFault E cPath = None →
  let old := default EmptyString (files w !! cPath) in
  let w1 := (parseConfig old w).1 in
  let obs := (parseConfig old w).2 in
  old ≠ saveConfig E w1 (Part000.configHeader appName) obs →
  rewriteFails E →
  ∃ err,
    (Part000.Parse E appName w).2 = Returns (Some err)
    ∧ isConfigIOError cPath err
    ∧ heap (Part000.Parse E appName w).1 = heap w1
    ∧ flags (Part000.Parse E appName w).1 = flags w1.
Proof.
  intros Hp Hpath Hopen old w1 obs Hdiff Hfail.
  rewrite (Part000_Parse_unfold E appName cPath w Hp Hpath Hopen).
  destruct (getConfigPath_world E appName w) as [Hsp Hfp].
  destruct (openOrCreate_world E cPath
              (Part000.getConfigPath E appName w).1 Hopen)
    as (_ & Hso & Hfo & _).
  set (w0 := (Part000.openOrCreate E cPath
                (Part000.getConfigPath E appName w).1).1) in *.
  assert (Hsim0 : sim w w0) by (eapply sim_trans; eauto).
  rewrite Hfp in Hfo. fold old in Hfo.
  rewrite Part000_Parse_opened_unfold. rewrite Hfo. simpl.
  destruct (parseConfig_sim old w w0 Hsim0) as (Hs1 & Hobs & _).
  fold w1 in Hs1. fold obs in Hobs. rewrite <- Hobs.
  rewrite <- (saveConfig_sim E w1 _ _ _ Hs1).
  destruct (String.eqb_spec old
              (saveConfig E w1 (Part000.configHeader appName) obs))
    as [Heq|_]; [done|].
  match goal with
  | |- context [Part000.rewriteFile E cPath cPath ?d ?u] =>
      destruct (rewriteFile_fails E cPath cPath d u Hfail)
        as (err & Herr & Hio & Hsr);
      destruct (Part000.rewriteFile E cPath cPath d u) as [w3 e] eqn:Hrw
  end.
  simpl in Herr. subst e. exists err. simpl.
  split; [done|]. split; [done|].
  assert (Hs3 : sim w1 w3).
  { eapply sim_trans; [exact Hs1|]. eapply sim_trans; [|exact Hsr].
    destruct (0 <? size obs)%nat; done. }
  destruct Hs3 as [Hfl Hh]. done.
Qed.

(** *** [confy.go] *)

Lemma ConfyGo_Parse_unfold E appName cPath w :
  parsed (flags w) = false →
  (ConfyGo.getConfigFilePath E appName w).2 = (cPath, None) →
  readFault E cPath = None →
  let wp := (ConfyGo.getConfigFilePath E appName w).1 in
  ConfyGo.Parse E appName w
  = ConfyGo.Parse_read E appName cPath
      (default EmptyString (files w !! cPath))
      (emit (EvReadFile cPath) wp).1.
Proof.
  intros Hp Hpath Hread wp. unfold ConfyGo.Parse, flag_Parsed.
  unfold bind at 1. unfold gets at 1. rewrite Hp.
  unfold bind at 1.
  destruct (getConfigFilePath_world E appName w) as [_ Hfp].
  fold wp in Hfp. subst wp.
  destruct (ConfyGo.getConfigFilePath E appName w) as [wp [c e]] eqn:Hg.
  simpl in Hpath. simplify_eq. simpl in Hfp. unfold bind at 1.
  unfold ConfyGo.ReadFile. unfold bind at 1. rewrite Hread.
  unfold gets at 1. simpl. rewrite Hfp.
  destruct (files w !! cPath); done.
Qed.

Lemma ConfyGo_Parse_read_unfold E appName cPath (old : string) w0 :
  let w1 := (parseConfig old w0).1 in
  let obs := (parseConfig old w0).2 in
  let w2 := if (0 <? size obs)%nat
            then (emit (EvLog (updateWarning appName cPath)) w1).1
            else w1 in
  let newConf := saveConfig E w1 (ConfyGo.configHeader appName) obs in
  ConfyGo.Parse_read E appName cPath old w0
  = if String.eqb old newConf then flag_Parse E w2
    else
      let '(w3, err) := ConfyGo.WriteFile E cPath newConf w2 in
      match err with
      | Some err =>
          (w3, Returns (Some ("failed to write " +:+ cPath +:+ ": " +:+ err)))
      | None => flag_Parse E w3
      end.
Proof.
  intros w1 obs w2 newConf. unfold ConfyGo.Parse_read.
  unfold bind at 1. subst w1 obs w2 newConf.
  destruct (parseConfig old w0) as [w1 obs]. simpl.
  unfold bind at 1.
  assert (Hsave : ∀ u : World V, sim w1 u →
    saveConfig E u (ConfyGo.configHeader appName) obs
    = saveConfig E w1 (ConfyGo.configHeader appName) obs).
  { intros u Hu. symmetry. by apply saveConfig_sim. }
  destruct (0 <? size obs)%nat; simpl.
  - unfold bind at 1. unfold gets at 1. rewrite Hsave by done.
    unfold bind at 1.
    destruct (String.eqb old _); simpl; [done|].
    destruct (ConfyGo.WriteFile _ _ _ _) as [w3 [e|]]; done.
  - unfold bind at 1. unfold gets at 1. unfold ret at 1. simpl.
    unfold bind at 1.
    destruct (String.eqb old _); simpl; [done|].
    destruct (ConfyGo.WriteFile _ _ _ _) as [w3 [e|]]; done.
Qed.

(** *** The guard *)

Lemma Parse_parsed E appName w :
  parsed (flags w) = true →
  Part000.Parse E appName w
  = (w, Returns (Some "flags have been parsed already"))
  ∧ ConfyGo.Parse E appName w
    = (w, Returns (Some "flags have been parsed already")).
Proof.
  intros Hp. unfold Part000.Parse, ConfyGo.Parse, flag_Parsed.
  split; unfold bind at 1; unfold gets at 1; by rewrite Hp.
Qed.

Lemma flag_Parse_parsed E w : parsed (flags (flag_Parse E w).1) = true.
Proof. destruct (flag_Parse_spec E w) as (evs & _ & _ & _ & _ & _ & Hp). done. Qed.

(** A call that returns without an error has parsed the flags. *)
Lemma Part000_Parse_success_parsed E appName w w' :
  Part000.Parse E appName w = (w', Returns None) →
  parsed (flags w') = true.
Proof.
  destruct (parsed (flags w)) eqn:Hp.
  { destruct (Parse_parsed E appName w Hp) as [-> _]. done. }
  destruct (Part000.getConfigPath E appName w) as [wp [cPath e]] eqn:Hg.
  destruct e as [e|].
  { unfold Part000.Parse, flag_Parsed. unfold bind at 1. unfold gets at 1.
    rewrite Hp. unfold bind at 1. rewrite Hg. done. }
  destruct (openFault E cPath) as [e|] eqn:Hopen.
  { unfold Part000.Parse, flag_Parsed. unfold bind at 1. unfold gets at 1.
    rewrite Hp. unfold bind at 1. rewrite Hg. unfold bind at 1.
    unfold Part000.openOrCreate. unfold bind at 1. rewrite Hopen. done. }
  rewrite (Part000_Parse_unfold E appName cPath w Hp); [|by rewrite Hg|done].
  rewrite Part000_Parse_opened_unfold.
  destruct (String.eqb _ _).
  - match goal with |- context [flag_Parse E ?u] =>
      pose proof (flag_Parse_parsed E u) as Hfp;
      destruct (flag_Parse E u) as [wf out] end.
    destruct out; intros; simplify_eq; done.
  - destruct (Part000.rewriteFile _ _ _ _ _) as [w3 [e|]]; [done|].
    match goal with |- context [flag_Parse E ?u] =>
      pose proof (flag_Parse_parsed E u) as Hfp;
      destruct (flag_Parse E u) as [wf out] end.
    destruct out; intros; simplify_eq; done.
Qed.

Lemma ConfyGo_Parse_success_parsed E appName w w' :
  ConfyGo.Parse E appName w = (w', Returns None) →
  parsed (flags w') = true.
Proof.
  destruct (parsed (flags w)) eqn:Hp.
  { destruct (Parse_parsed E appName w Hp) as [_ ->]. done. }
  destruct (ConfyGo.getConfigFilePath E appName w) as [wp [cPath e]] eqn:Hg.
  destruct e as [e|].
  { unfold ConfyGo.Parse, flag_Parsed. unfold bind at 1. unfold gets at 1.
    rewrite Hp. unfold bind at 1. rewrite Hg. done. }
  destruct (readFault E cPath) as [e|] eqn:Hread.
  { unfold ConfyGo.Parse, flag_Parsed. unfold bind at 1. unfold gets at 1.
    rewrite Hp. unfold bind at 1. rewrite Hg. unfold bind at 1.
    unfold ConfyGo.ReadFile. unfold bind at 1. rewrite Hread. done. }
  rewrite (ConfyGo_Parse_unfold E appName cPath w Hp); [|by rewrite Hg|done].
  rewrite ConfyGo_Parse_read_unfold.
  destruct (String.eqb _ _).
  - match goal with |- context [flag_Parse E ?u] =>
      pose proof (flag_Parse_parsed E u) as Hfp;
      destruct (flag_Parse E u) as [wf out] end.
    intros; simplify_eq; done.
  - destruct (ConfyGo.WriteFile _ _ _ _) as [w3 [e|]]; [done|].
    match goal with |- context [flag_Parse E ?u] =>
      pose proof (flag_Parse_parsed E u) as Hfp;
      destruct (flag_Parse E u) as [wf out] end.
    intros; simplify_eq; done.
Qed.

(** C6.  When the flags have been parsed already, in particular in the
    world that an earlier call of [Parse] left when it returned without
    an error, [Parse] returns the error that says so and leaves the
    world as it was: no variable is looked up, no file is opened, read
    or written, and the files keep their bytes. *)
Theorem Parse_one_shot_guard E appName w :
  (parsed (flags w) = true
   ∨ (∃ E0 app0 w0, Part000.Parse E0 app0 w0 = (w, Returns None))
   ∨ (∃ E0 app0 w0, ConfyGo.Parse E0 app0 w0 = (w, Returns None))) →
  Part000.Parse E appName w
  = (w, Returns (Some "flags have been parsed already"))
  ∧ ConfyGo.Parse E appName w
    = (w, Returns (Some "flags have been parsed already")).
Proof.
  intros Hw. apply Parse_parsed.
  destruct Hw as [Hp|[(E0 & app0 & w0 & H0)|(E0 & app0 & w0 & H0)]].
  - done.
  - by eapply Part000_Parse_success_parsed.
  - by eapply ConfyGo_Parse_success_parsed.
Qed.

(** *** The line parser *)

Lemma HasPrefix_hash (line : string) :
  Strings.HasPrefix line "#" = beginsWithHash line.
Proof.
  unfold Strings.HasPrefix. destruct line as [|c line]; [done|].
  change (String.prefix "#" (String c line))
    with (if ascii_dec "#" c then String.prefix EmptyString line else false).
  unfold beginsWithHash.
  destruct (ascii_dec "#" c) as [<-|Hne].
  - by destruct line.
  - symmetry. apply Ascii.eqb_neq. congruence.
Qed.

(** The body of the loop in terms of the line format. *)
Lemma parseConfig_line_eq (obsKeys : gmap string string) (text : string) w :
  parseConfig_line obsKeys text w
  = match spec_parseLine text with
    | None => (w, obsKeys)
    | Some (key, val) =>
        let '(w', err) := flag_Set key val w in
        (w', match err with
             | Some _ => <[key:=val]> obsKeys
             | None => obsKeys
             end)
    end.
Proof.
  unfold parseConfig_line, spec_parseLine.
  generalize (Strings.TrimSpace text). intros line.
  rewrite HasPrefix_hash, (orb_comm (beginsWithHash line)).
  destruct (String.eqb line EmptyString || beginsWithHash line); [done|].
  unfold Strings.IndexAny.
  pose proof (IndexAny_from_cut line 0 ltac:(lia)) as Hidx.
  destruct (cutAtSeparator line) as [[before after]|] eqn:Hcut.
  - rewrite Hidx.
    destruct (Z.eqb_spec (0 + len before) (-1)) as [Hneg|_];
      [unfold len in Hneg; lia|].
    destruct (cutAtSeparator_Some _ _ _ Hcut) as (c & Hline & _ & _).
    subst line. rewrite Z.add_0_l, slice_prefix.
    replace (len before + 1) with (len (before +:+ String c EmptyString))
      by (unfold len; rewrite slength_app; simpl; lia).
    replace (before +:+ String c after)
      with ((before +:+ String c EmptyString) +:+ after)
      by (by rewrite sapp_assoc).
    rewrite sliceFrom_suffix. unfold bind.
    destruct (flag_Set _ _ w) as [w' [e|]]; done.
  - rewrite Hidx. done.
Qed.

(** C5.  [parseConfig] treats a line as its format says: the trimmed
    line is skipped, leaving the registry and the obsolete entries as
    they were and raising no error, when it is empty, begins with [#] or
    holds neither [=] nor [:]; otherwise it is cut at the first of these,
    and the trimmed text before it is set, as it stands, to the trimmed
    text after it. *)
Theorem parseConfig_line_format (obsKeys : gmap string string)
    (text : string) w :
  let line := Strings.TrimSpace text in
  parseConfig_line obsKeys text w
  = match spec_parseLine text with
    | None => (w, obsKeys)
    | Some (key, val) =>
        let '(w', err) := flag_Set key val w in
        (w', match err with
             | Some _ => <[key:=val]> obsKeys
             | None => obsKeys
             end)
    end
  ∧ (spec_parseLine text = None
     ↔ line = EmptyString ∨ beginsWithHash line = true ∨ noSeparator line)
  ∧ (∀ key val, spec_parseLine text = Some (key, val) →
     ∃ before c after,
       line = before +:+ String c after
       ∧ isSeparator c = true ∧ noSeparator before
       ∧ key = Strings.TrimSpace before ∧ val = Strings.TrimSpace after).
Proof.
  intros line. split; [|split].
  - apply parseConfig_line_eq.
  - unfold spec_parseLine. fold line.
    destruct (String.eqb_spec line EmptyString) as [Hl|Hl]; simpl;
      [by split; [left|]|].
    destruct (beginsWithHash line); [by split; [right; left|]|].
    destruct (cutAtSeparator line) as [[before after]|] eqn:Hcut.
    + split; [done|]. intros [?|[?|Hno]]; [done..|].
      apply cutAtSeparator_None in Hno. congruence.
    + split; [|done]. intros _. right. right.
      by apply cutAtSeparator_None.
  - intros key val. unfold spec_parseLine. fold line.
    destruct (_ || _); [done|].
    destruct (cutAtSeparator line) as [[before after]|] eqn:Hcut; [|done].
    intros Heq. simplify_eq.
    destruct (cutAtSeparator_Some _ _ _ Hcut) as (c & Hline & Hc & Hb).
    exists before, c, after. done.
Qed.

(** *** The renderer *)

Lemma concatS_app (a b : list string) :
  concatS (a ++ b) = concatS a +:+ concatS b.
Proof.
  induction a as [|x a IH]; simpl; [done|]. by rewrite IH, sapp_assoc.
Qed.

Lemma foldl_writeVisit w (m : gmap ref Flag) (fl : list Flag) (buf : string) :
  foldl (writeVisit w m) buf fl
  = buf +:+ concatS (optionBlock w <$> List.filter (isWritten m) fl).
Proof.
  revert buf. induction fl as [|f fl IH]; intros buf; simpl.
  - by rewrite sapp_nil_r.
  - rewrite IH. unfold writeVisit, isWritten.
    destruct (m !! Value f) as [cur|]; [|done].
    destruct (bool_decide (Name cur = Name f)); [|done].
    simpl. unfold optionBlock, usageComment.
    rewrite !sapp_assoc. done.
Qed.

Lemma foldl_obsoleteLine (l : list (string * string)) (buf : string) :
  foldl (λ buf kv, buf +:+ (kv.1 +:+ "=" +:+ kv.2 +:+ nl)) buf l
  = buf +:+ concatS (obsoleteLine <$> l).
Proof.
  revert buf. induction l as [|kv l IH]; intros buf; simpl.
  - by rewrite sapp_nil_r.
  - rewrite IH. unfold obsoleteLine at 2. by rewrite !sapp_assoc.
Qed.

(** What [saveConfig] appends: the blocks of the flags it writes, then
    the section of the obsolete entries. *)
Lemma saveConfig_eq E w (buf : string) (obsKeys : gmap string string) :
  saveConfig E w buf obsKeys
  = (buf +:+ concatS (optionBlock w <$> representatives (VisitAll (flags w))))
    +:+ obsoleteSection E obsKeys.
Proof.
  unfold saveConfig, obsoleteSection, representatives.
  rewrite foldl_writeVisit.
  destruct (0 <? size obsKeys)%nat.
  - rewrite foldl_obsoleteLine. by rewrite !sapp_assoc.
  - by rewrite sapp_nil_r.
Qed.

(** The map of the first visit: a value has an entry exactly when some
    visited flag holds it, and the entry is the first of the flags with
    the most runes among them. *)
Lemma dedupVisit_invariant (l : list Flag) (r : ref) :
  match foldl dedupVisit ∅ l !! r with
  | None => ∀ g, g ∈ l → Value g ≠ r
  | Some c => Value c = r ∧ longestFirst l c
  end.
Proof.
  induction l as [|f l IH] using rev_ind.
  { simpl. rewrite lookup_empty. intros g Hg. by apply elem_of_nil in Hg. }
  rewrite foldl_app. simpl. set (m := foldl dedupVisit ∅ l) in *.
  unfold dedupVisit.
  destruct (decide (Value f = r)) as [Hr|Hr].
  - subst r. destruct (m !! Value f) as [cur|] eqn:Hcur.
    + destruct IH as [Hv (l1 & l2 & Hl & Hbefore & Hafter)].
      destruct (Nat.ltb_spec (Utf8.RuneCountInString (Name cur))
                  (Utf8.RuneCountInString (Name f))) as [Hlt|Hge].
      * rewrite lookup_insert_eq. split; [done|].
        exists l, []. split; [done|]. split.
        -- intros g Hg Hgv. fold (runes cur) (runes f) in Hlt.
           subst l. apply elem_of_app in Hg as [Hg|Hg].
           ++ specialize (Hbefore g Hg ltac:(congruence)). lia.
           ++ apply elem_of_cons in Hg as [->|Hg]; [done|].
              specialize (Hafter g Hg ltac:(congruence)). lia.
        -- intros g Hg. by apply elem_of_nil in Hg.
      * rewrite Hcur. split; [done|].
        exists l1, (l2 ++ [f]). split; [by rewrite Hl, <- (assoc_L (++))|].
        split; [done|]. intros g Hg Hgv.
        apply elem_of_app in Hg as [Hg|Hg]; [by apply Hafter|].
        apply list_elem_of_singleton in Hg as ->. done.
    + rewrite lookup_insert_eq. split; [done|].
      exists l, []. split; [done|]. split.
      * intros g Hg Hgv. by apply IH in Hg.
      * intros g Hg. by apply elem_of_nil in Hg.
  - assert (Hsame : (match m !! Value f with
                     | Some cur =>
                         if (Utf8.RuneCountInString (Name cur)
                               <? Utf8.RuneCountInString (Name f))%nat
                         then <[Value f:=f]> m else m
                     | None => <[Value f:=f]> m
                     end) !! r = m !! r).
    { destruct (m !! Value f) as [cur|]; [destruct (_ <? _)%nat|];
        by rewrite ?lookup_insert_ne. }
    rewrite Hsame. destruct (m !! r) as [c|].
    + destruct IH as [Hv (l1 & l2 & Hl & Hbefore & Hafter)].
      split; [done|]. exists l1, (l2 ++ [f]).
      split; [by rewrite Hl, <- (assoc_L (++))|]. split; [done|].
      intros g Hg Hgv. apply elem_of_app in Hg as [Hg|Hg]; [by apply Hafter|].
      apply list_elem_of_singleton in Hg as ->. congruence.
    + intros g Hg. apply elem_of_app in Hg as [Hg|Hg]; [by apply IH|].
      apply list_elem_of_singleton in Hg as ->. done.
Qed.

Lemma longestFirst_elem (fl : list Flag) (c : Flag) :
  longestFirst fl c → c ∈ fl.
Proof. intros (l1 & l2 & -> & _). set_solver. Qed.

Lemma longestFirst_longest (fl : list Flag) (c g : Flag) :
  longestFirst fl c → g ∈ fl → Value g = Value c → (runes g ≤ runes c)%nat.
Proof.
  intros (l1 & l2 & -> & Hb & Ha) Hg Hv.
  apply elem_of_app in Hg as [Hg|Hg]; [specialize (Hb g Hg Hv); lia|].
  apply elem_of_cons in Hg as [->|Hg]; [done|]. by apply Ha.
Qed.

(** The enumeration of [VisitAll]: sorted by name, each name once. *)
Global Instance flag_le_total : Total flag_le.
Proof. intros a b. unfold flag_le. apply (total String.le). Qed.

Global Instance flag_le_trans : Transitive flag_le.
Proof. intros a b c. unfold flag_le. apply (transitivity (R:=String.le)). Qed.


Lemma VisitAll_names (f : FlagSet) : NoDup (Name <$> VisitAll f).
Proof.
  unfold VisitAll, sortFlags. rewrite merge_sort_Permutation.
  rewrite <- list_fmap_compose.
  apply (NoDup_fst_map_to_list (formal f)).
Qed.

Lemma VisitAll_lookup (f : FlagSet) (fl : Flag) :
  fl ∈ VisitAll f ↔ lookupFlag f (Name fl) = Some fl.
Proof.
  unfold VisitAll, sortFlags, lookupFlag. rewrite merge_sort_Permutation.
  rewrite list_elem_of_fmap. split.
  - intros ([k d] & -> & Hkd). apply elem_of_map_to_list in Hkd.
    simpl. by rewrite Hkd.
  - intros Hl. destruct (formal f !! Name fl) as [d|] eqn:Hd; [|done].
    simpl in Hl. simplify_eq. exists (Name fl, d). split.
    + by destruct fl.
    + by apply elem_of_map_to_list.
Qed.

Lemma NoDup_names_eq (fl : list Flag) (a b : Flag) :
  NoDup (Name <$> fl) → a ∈ fl → b ∈ fl → Name a = Name b → a = b.
Proof.
  induction fl as [|x fl IH]; intros Hnd Ha Hb Hn.
  { by apply elem_of_nil in Ha. }
  rewrite fmap_cons in Hnd. apply NoDup_cons in Hnd as [Hx Hnd].
  apply elem_of_cons in Ha as [->|Ha]; apply elem_of_cons in Hb as [->|Hb].
  - done.
  - exfalso. apply Hx. rewrite Hn. by apply list_elem_of_fmap_2.
  - exfalso. apply Hx. rewrite <- Hn. by apply list_elem_of_fmap_2.
  - by apply IH.
Qed.

Lemma filter_sublist {A} (p : A → bool) (l : list A) :
  List.filter p l `sublist_of` l.
Proof.
  induction l as [|x l IH]; simpl; [done|].
  destruct (p x); [by apply sublist_skip|by apply sublist_cons].
Qed.

Lemma elem_of_representatives (fl : list Flag) (c : Flag) :
  c ∈ representatives fl
  ↔ c ∈ fl ∧ isWritten (foldl dedupVisit ∅ fl) c = true.
Proof.
  unfold representatives. rewrite !list_elem_of_In. apply filter_In.
Qed.

(** C3.  Of the registered flags that share one value, [saveConfig]
    writes exactly one, and no flag of them has more runes in its name
    than the one it writes (the count is [utf8.RuneCountInString], not
    the length in bytes; of several names with the most runes it is the
    first in the order of [VisitAll]); the other flags of the value have
    no block and no [name=value] line in the output. *)
Theorem saveConfig_writes_longest_name E w (buf : string)
    (obsKeys : gmap string string) :
  let fl := VisitAll (flags w) in
  let written := representatives fl in
  saveConfig E w buf obsKeys
  = (buf +:+ concatS (optionBlock w <$> written)) +:+ obsoleteSection E obsKeys
  ∧ written `sublist_of` fl
  ∧ ∀ f, f ∈ fl →
      ∃ c, c ∈ written ∧ Value c = Value f
        ∧ (∀ g, g ∈ fl → Value g = Value f →
             (Utf8.RuneCountInString (Name g)
              ≤ Utf8.RuneCountInString (Name c))%nat)
        ∧ longestFirst fl c
        ∧ (∀ c', c' ∈ written → Value c' = Value f → c' = c).
Proof.
  intros fl written. split; [apply saveConfig_eq|].
  split; [apply filter_sublist|]. intros f Hf.
  pose proof (dedupVisit_invariant fl (Value f)) as Hinv.
  destruct (foldl dedupVisit ∅ fl !! Value f) as [c|] eqn:Hc;
    [|by specialize (Hinv f Hf)].
  destruct Hinv as [Hv Hlong]. exists c.
  assert (Hcfl : c ∈ fl) by by apply longestFirst_elem.
  split; [|split; [done|split; [|split; [done|]]]].
  - apply elem_of_representatives. split; [done|].
    unfold isWritten. rewrite Hv, Hc. by apply bool_decide_eq_true.
  - intros g Hg Hgv. apply (longestFirst_longest fl c g Hlong Hg). congruence.
  - intros c' Hc' Hv'. apply elem_of_representatives in Hc' as [Hc'fl Hw].
    unfold isWritten in Hw. rewrite Hv', Hc in Hw.
    apply bool_decide_eq_true in Hw.
    symmetry. by apply (NoDup_names_eq fl c c' (VisitAll_names (flags w))).
Qed.


(** *** The trace of [Parse] *)

Lemma getConfigPath_trace E appName w :
  ∃ evs, trace (Part000.getConfigPath E appName w).1 = trace w ++ evs
         ∧ Forall isPathEvent evs.
Proof.
  unfold Part000.getConfigPath, Getenv, user_Current. unfold_M. simpl.
  destruct (String.eqb _ _); [destruct (currentUser E)|]; simpl.
  - exists [EvGetenv (ToUpper appName +:+ "INF0"); EvUserCurrent].
    rewrite <- (assoc_L (++)). split; [done|]. by repeat constructor.
  - exists [EvGetenv (ToUpper appName +:+ "INF0"); EvUserCurrent].
    rewrite <- (assoc_L (++)). split; [done|]. by repeat constructor.
  - exists [EvGetenv (ToUpper appName +:+ "INF0")].
    split; [done|]. by repeat constructor.
Qed.

Lemma getConfigFilePath_trace E appName w :
  ∃ evs, trace (ConfyGo.getConfigFilePath E appName w).1 = trace w ++ evs
         ∧ Forall isPathEvent evs.
Proof.
  unfold ConfyGo.getConfigFilePath, Getenv, user_Current. unfold_M. simpl.
  destruct (String.eqb _ _); [destruct (currentUser E)|]; simpl.
  - exists [EvGetenv (ToUpper appName +:+ "INF0"); EvUserCurrent].
    rewrite <- (assoc_L (++)). split; [done|]. by repeat constructor.
  - exists [EvGetenv (ToUpper appName +:+ "INF0"); EvUserCurrent].
    rewrite <- (assoc_L (++)). split; [done|]. by repeat constructor.
  - exists [EvGetenv (ToUpper appName +:+ "INF0")].
    split; [done|]. by repeat constructor.
Qed.

Lemma openOrCreate_trace E name w :
  trace (Part000.openOrCreate E name w).1 = trace w ++ [EvOpen name].
Proof.
  unfold Part000.openOrCreate. unfold_M. simpl.
  destruct (openFault E name); [done|]. simpl.
  destruct (files w !! name); done.
Qed.

(** Reading the file in a world with the registry of [w] sets what
    reading it in [w] sets. *)
Lemma parseConfig_trace (input : string) w w0 :
  sim w w0 →
  ∃ evs, trace (parseConfig input w0).1 = trace w0 ++ evs
         ∧ Forall isValueSet evs
         ∧ heap (parseConfig input w).1 = replay evs (heap w).
Proof.
  intros Hsim.
  destruct (registry_only_parseConfig input w)
    as (evs & _ & _ & Hh & He & _ & _ & _ & Hs).
  destruct (Hs w0 Hsim) as (_ & _ & Ht & _). exists evs. done.
Qed.

Lemma rewriteFile_trace E cPath cf (data : string) w :
  ∃ evs, trace (Part000.rewriteFile E cPath cf data w).1 = trace w ++ evs
         ∧ Forall isWriteEvent evs
         ∧ sim w (Part000.rewriteFile E cPath cf data w).1.
Proof.
  unfold Part000.rewriteFile, Part000.Seek, Part000.Truncate,
    Part000.WriteTo, sim. unfold_M. simpl.
  destruct (bool_decide _ || _); simpl.
  { exists [EvSeek]. split; [done|]. split; [by repeat constructor|done]. }
  destruct (truncateFault E); simpl.
  { exists [EvSeek; EvTruncate]. rewrite <- (assoc_L (++)).
    split; [done|]. split; [by repeat constructor|done]. }
  destruct (writeFault E) as [[n e]|]; simpl.
  - exists [EvSeek; EvTruncate; EvWrite data]. rewrite <- !(assoc_L (++)).
    split; [done|]. split; [by repeat constructor|done].
  - exists [EvSeek; EvTruncate; EvWrite data]. rewrite <- !(assoc_L (++)).
    split; [done|]. split; [by repeat constructor|done].
Qed.

Lemma WriteFile_trace E name (data : string) w :
  trace (ConfyGo.WriteFile E name data w).1
  = trace w ++ [EvWriteFile name data]
  ∧ sim w (ConfyGo.WriteFile E name data w).1.
Proof.
  unfold ConfyGo.WriteFile, sim. unfold_M. simpl.
  destruct (openFault E name); [done|].
  destruct (writeFault E) as [[n e]|]; done.
Qed.

(** *** The assignments of the command line *)

Lemma terminator_eqb (s : string) :
  (len s <? 2) || negb (Ascii.eqb (at_ s 0) "-") = false →
  Ascii.eqb (at_ s 1) "-" && (len s =? 2) = String.eqb s "--".
Proof.
  destruct s as [|a [|b [|c s]]]; try done.
  - unfold len, at_. simpl. intros Ha.
    apply negb_false_iff, Ascii.eqb_eq in Ha. subst a. simpl.
    by destruct (Ascii.eqb b "-").
  - unfold len, at_. intros _.
    replace (Z.of_nat (String.length (String a (String b (String c s)))) =? 2)
      with false by (symmetry; apply Z.eqb_neq; simpl; lia).
    rewrite andb_false_r. simpl.
    destruct (Ascii.eqb a "-"); [|done]. by destruct (Ascii.eqb b "-").
Qed.

Lemma cmdlineAssignments_ext (f g : string → bool) (l : list string) :
  (∀ n, f n = g n) → cmdlineAssignments f l = cmdlineAssignments g l.
Proof.
  intros Hfg.
  assert (Hboth : cmdlineAssignments f l = cmdlineAssignments g l
                  ∧ ∀ a, cmdlineAssignments f (a :: l)
                         = cmdlineAssignments g (a :: l));
    [|by destruct Hboth].
  induction l as [|b l [IH1 IH2]].
  - split; [done|]. intros a. simpl.
    destruct (argName a); [|done].
    destruct (splitValue s) as [[name hasValue] value].
    rewrite Hfg. done.
  - split; [apply IH2|]. intros a.
    change (cmdlineAssignments f (a :: b :: l)) with
      (match argName a with
       | None => []
       | Some text =>
           let '(name, hasValue, value) := splitValue text in
           if hasValue then (name, value) :: cmdlineAssignments f (b :: l)
           else if f name
           then (name, "true") :: cmdlineAssignments f (b :: l)
           else (name, b) :: cmdlineAssignments f l
       end).
    change (cmdlineAssignments g (a :: b :: l)) with
      (match argName a with
       | None => []
       | Some text =>
           let '(name, hasValue, value) := splitValue text in
           if hasValue then (name, value) :: cmdlineAssignments g (b :: l)
           else if g name
           then (name, "true") :: cmdlineAssignments g (b :: l)
           else (name, b) :: cmdlineAssignments g l
       end).
    destruct (argName a); [|done].
    destruct (splitValue s) as [[name hasValue] value].
    rewrite Hfg, IH1, IH2. done.
Qed.

Lemma scanned_ext w w' (arguments : list string) (cmd : list Event) :
  formal (flags w') = formal (flags w) →
  (∀ r, vIsBoolFlag (heap w' r) = vIsBoolFlag (heap w r)) →
  scanned w arguments cmd → scanned w' arguments cmd.
Proof.
  intros Hf Hb. unfold scanned.
  rewrite (cmdlineAssignments_ext (isBoolIn w') (isBoolIn w)).
  - intros Hsc. eapply Forall2_impl; [exact Hsc|].
    intros e nv (fl & Hl & ->). exists fl.
    unfold lookupFlag in *. by rewrite Hf.
  - intros n. unfold isBoolIn, lookupFlag. rewrite Hf.
    destruct (formal (flags w) !! n); [apply Hb|done].
Qed.

Lemma isBool_replay (evs : list Event) (h : ref → V) (r : ref) :
  boolStable → vIsBoolFlag (replay evs h r) = vIsBoolFlag (h r).
Proof.
  intros Hst. revert h. induction evs as [|e evs IH]; intros h; [done|].
  unfold replay. simpl. fold (replay evs (replayEvent h e)). rewrite IH.
  destruct e; try done. simpl.
  destruct (decide (r = r0)) as [->|Hne].
  - rewrite fn_lookup_insert. apply Hst.
  - by rewrite fn_lookup_insert_ne.
Qed.

Lemma parseOne_scanned w w' (r : bool * option flagError) :
  parseOne w = (w', r) →
  match r with
  | (true, _) =>
      ∃ name value fl,
        lookupFlag (flags w) name = Some fl
        ∧ trace w' = trace w ++ [EvValueSet (Value fl) value]
        ∧ formal (flags w') = formal (flags w)
        ∧ heap w' = <[Value fl:=(vSet (heap w (Value fl)) value).1]> (heap w)
        ∧ cmdlineAssignments (isBoolIn w) (args (flags w))
          = (name, value) :: cmdlineAssignments (isBoolIn w) (args (flags w'))
  | (false, None) =>
      trace w' = trace w
      ∧ cmdlineAssignments (isBoolIn w) (args (flags w)) = []
  | (false, Some _) => True
  end.
Proof.
  unfold parseOne, failf, Value_Set. unfold_M. intros Hone.
  destruct (args (flags w)) as [|s rest] eqn:Ha; [by simplify_eq|].
  destruct ((len s <? 2) || negb (Ascii.eqb (at_ s 0) "-")) eqn:H1.
  { simplify_eq. split; [done|]. simpl. unfold argName. by rewrite H1. }
  rewrite (terminator_eqb s H1) in Hone.
  destruct (String.eqb s "--") eqn:H2.
  { simplify_eq. split; [done|]. simpl. unfold argName. by rewrite H1, H2. }
  set (text := sliceFrom s (if Ascii.eqb (at_ s 1) "-" then 2 else 1)) in *.
  destruct ((len text =? 0) || Ascii.eqb (at_ text 0) "-"
            || Ascii.eqb (at_ text 0) "=") eqn:H3; [by simplify_eq|].
  assert (Hname : argName s = Some text).
  { unfold argName. rewrite H1, H2. fold text. by rewrite H3. }
  cbn [cmdlineAssignments]. rewrite Hname.
  destruct (splitValue text) as [[name hasValue] value] eqn:Hsv.
  simpl in Hone.
  match type of Hone with
  | context [lookupFlag ?f name] =>
      change (lookupFlag f name) with (lookupFlag (flags w) name) in Hone
  end.
  destruct (lookupFlag (flags w) name) as [fl|] eqn:Hlook;
    [|destruct (_ || _) in Hone; by simplify_eq].
  simpl in Hone.
  assert (Hib : isBoolIn w name = vIsBoolFlag (heap w (Value fl))).
  { unfold isBoolIn. by rewrite Hlook. }
  rewrite Hib.
  destruct (vIsBoolFlag (heap w (Value fl))) eqn:Hb; destruct hasValue.
  - destruct (vSet (heap w (Value fl)) value) as [v [e|]] eqn:Hset;
      simpl in Hone; rewrite Hset in Hone; simpl in Hone; simplify_eq;
      [done|].
    exists name, value, fl. rewrite Hset. done.
  - destruct (vSet (heap w (Value fl)) "true") as [v [e|]] eqn:Hset;
      simpl in Hone; rewrite Hset in Hone; simpl in Hone; simplify_eq;
      [done|].
    exists name, "true", fl. rewrite Hset. done.
  - destruct (vSet (heap w (Value fl)) value) as [v [e|]] eqn:Hset;
      simpl in Hone; rewrite Hset in Hone; simpl in Hone; simplify_eq;
      [done|].
    exists name, value, fl. rewrite Hset. done.
  - destruct rest as [|value' rest']; [by simplify_eq|].
    destruct (vSet (heap w (Value fl)) value') as [v [e|]] eqn:Hset;
      simpl in Hone; rewrite Hset in Hone; simpl in Hone; simplify_eq;
      [done|].
    exists name, value', fl. rewrite Hset. done.
Qed.

(** In a scan that ends without an error, the events are the calls of
    [Set] for the assignments of the arguments, in their order. *)
Lemma parseLoop_scanned (n : nat) w :
  boolStable →
  (parseLoop n w).2 = Returns None →
  (length (args (flags w)) < n)%nat →
  ∃ cmd, trace (parseLoop n w).1 = trace w ++ cmd
         ∧ scanned w (args (flags w)) cmd.
Proof.
  intros Hst. revert w. induction n as [|n IH]; intros w Hok Hlen; [lia|].
  simpl in *. unfold bind in *.
  destruct (parseOne w) as [w' r] eqn:Hone.
  pose proof (parseOne_scanned w w' r Hone) as Hsc.
  destruct r as [[] e].
  - destruct Hsc as (name & value & fl & Hl & Ht & Hf & Hh & Has).
    apply parseOne_seen in Hone.
    destruct (IH w' Hok ltac:(lia)) as (cmd & Htc & Hcmd).
    exists (EvValueSet (Value fl) value :: cmd). split.
    { rewrite Htc, Ht, <- (assoc_L (++)). done. }
    unfold scanned. rewrite Has. constructor; [by exists fl|].
    apply (scanned_ext w'); [done| |done].
    intros r. rewrite Hh. destruct (decide (r = Value fl)) as [->|Hne].
    + rewrite fn_lookup_insert. symmetry. apply Hst.
    + by rewrite fn_lookup_insert_ne.
  - destruct e as [[]|]; simpl in Hok; try done.
    destruct Hsc as [Ht Has]. exists []. unfold ret. simpl.
    rewrite app_nil_r. split; [done|]. unfold scanned. rewrite Has.
    constructor.
Qed.

Lemma flag_Parse_scanned E w (cmd : list Event) :
  boolStable →
  (flag_Parse E w).2 = Returns None →
  trace (flag_Parse E w).1 = trace w ++ EvFlagParse (osArgs E) :: cmd →
  scanned w (osArgs E) cmd.
Proof.
  intros Hst.
  set (w1 := set_args (osArgs E) (set_parsed
               {| flags := flags w; heap := heap w; files := files w;
                  trace := trace w ++ [EvFlagParse (osArgs E)] |})).
  change (flag_Parse E w) with (parseLoop (S (length (osArgs E))) w1).
  intros Hok Ht.
  destruct (parseLoop_scanned (S (length (osArgs E))) w1 Hst Hok)
    as (cmd' & Ht' & Hsc); [simpl; lia|].
  rewrite Ht' in Ht. simpl in Ht. rewrite <- (assoc_L (++)) in Ht.
  apply app_inv_head in Ht. simpl in Ht. injection Ht as <-.
  apply (scanned_ext w1); [done|done|exact Hsc].
Qed.

Lemma scanned_sim w w' (arguments : list string) (cmd : list Event) :
  sim w w' → scanned w' arguments cmd → scanned w arguments cmd.
Proof.
  intros [Hfl Hh]. apply scanned_ext; [by rewrite Hfl|].
  intros r. by rewrite Hh.
Qed.

(** The call of [flag.Parse] and what follows it. *)
Lemma flag_Parse_tail E w :
  ∃ cmd,
    trace (flag_Parse E w).1 = trace w ++ EvFlagParse (osArgs E) :: cmd
    ∧ Forall isFlagEvent cmd
    ∧ heap (flag_Parse E w).1 = replay cmd (heap w)
    ∧ files (flag_Parse E w).1 = files w.
Proof.
  destruct (flag_Parse_spec E w) as (evs & Hf & Ht & Hh & He & _).
  exists evs. done.
Qed.

Lemma isFlagEvent_isTailEvent (e : Event) : isFlagEvent e → isTailEvent e.
Proof. by destruct e. Qed.

Lemma parseLoop_outcome (n : nat) w :
  (parseLoop n w).2 = Returns None ∨ ∃ code, (parseLoop n w).2 = Exits code.
Proof.
  revert w. induction n as [|n IH]; intros u; simpl; [by left|].
  unfold bind. destruct (parseOne u) as [u' [[] [[]|]]]; simpl; eauto.
Qed.

Lemma flag_Parse_outcome E w :
  (flag_Parse E w).2 = Returns None ∨ ∃ code, (flag_Parse E w).2 = Exits code.
Proof.
  set (w1 := set_args (osArgs E) (set_parsed
               {| flags := flags w; heap := heap w; files := files w;
                  trace := trace w ++ [EvFlagParse (osArgs E)] |})).
  change (flag_Parse E w) with (parseLoop (S (length (osArgs E))) w1).
  apply parseLoop_outcome.
Qed.

(** The events of a call that gets as far as reading the file: those of
    path resolution, the open, the [Set] calls of the file, the warning
    when there are obsolete entries, those of the rewrite when the file
    changed, and those from [flag.Parse] on. *)
Lemma Part000_Parse_shape E appName cPath w :
  parsed (flags w) = false →
  (Part000.getConfigPath E appName w).2 = (cPath, None) →
  openFault E cPath = None →
  let old := default EmptyString (files w !! cPath) in
  let w1 := (parseConfig old w).1 in
  let obs := (parseConfig old w).2 in
  let newConf := saveConfig E w1 (Part000.configHeader appName) obs in
  let r := Part000.Parse E appName w in
  ∃ pathEvs setEvs wrEvs tailEvs,
    trace r.1
    = trace w ++ pathEvs ++ [EvOpen cPath] ++ setEvs
        ++ (if (0 <? size obs)%nat
            then [EvStderr (updateWarning appName cPath)] else [])
        ++ wrEvs ++ tailEvs
    ∧ Forall isPathEvent pathEvs
    ∧ Forall isValueSet setEvs
    ∧ heap w1 = replay setEvs (heap w)
    ∧ Forall isWriteEvent wrEvs
    ∧ (old = newConf →
       wrEvs = [] ∧ (is_Some (files w !! cPath) → files r.1 = files w))
    ∧ Forall isTailEvent tailEvs
    ∧ (r.2 = Returns None →
       ∃ cmd, tailEvs = EvFlagParse (osArgs E) :: cmd ++ [EvClose]
              ∧ Forall isFlagEvent cmd
              ∧ heap r.1 = replay cmd (heap w1)
              ∧ (boolStable → scanned w1 (osArgs E) cmd)).
Proof.
  intros Hp Hpath Hopen old w1 obs newConf r. subst r.
  rewrite (Part000_Parse_unfold E appName cPath w Hp Hpath Hopen).
  destruct (getConfigPath_world E appName w) as [Hsp Hfp].
  destruct (getConfigPath_trace E appName w) as (pathEvs & Htp & Hpe).
  destruct (openOrCreate_world E cPath
              (Part000.getConfigPath E appName w).1 Hopen)
    as (_ & Hso & Hfo & Hfo').
  pose proof (openOrCreate_trace E cPath
                (Part000.getConfigPath E appName w).1) as Hto.
  set (w0 := (Part000.openOrCreate E cPath
                (Part000.getConfigPath E appName w).1).1) in *.
  assert (Hsim0 : sim w w0) by (eapply sim_trans; eauto).
  rewrite Hfp in Hfo, Hfo'. fold old in Hfo. rewrite Htp in Hto.
  rewrite Part000_Parse_opened_unfold. cbv zeta. rewrite Hfo.
  change (default EmptyString (Some old)) with old.
  destruct (parseConfig_sim old w w0 Hsim0) as (Hs1 & Hobs & Hf1).
  destruct (parseConfig_trace old w w0 Hsim0) as (setEvs & Ht1 & Hse & Hh1).
  fold w1 in Hs1, Hh1. fold obs in Hobs. rewrite <- Hobs.
  rewrite <- (saveConfig_sim E w1 _ _ _ Hs1). fold newConf.
  set (w1' := (parseConfig old w0).1) in *.
  set (warn := if (0 <? size obs)%nat
               then [EvStderr (updateWarning appName cPath)] else []).
  set (w2 := if (0 <? size obs)%nat
             then (emit (EvStderr (updateWarning appName cPath)) w1').1
             else w1') in *.
  assert (Hw2 : trace w2 = trace w1' ++ warn ∧ sim w1 w2
                ∧ files w2 = files w0).
  { subst w2 warn. destruct (0 <? size obs)%nat; simpl.
    - split; [done|]. split; [apply Hs1|done].
    - rewrite app_nil_r. done. }
  destruct Hw2 as (Ht2 & Hs2 & Hf2).
  exists pathEvs, setEvs.
  destruct (String.eqb_spec old newConf) as [Heq|Hne].
  - destruct (flag_Parse_tail E w2) as (cmd & Htf & Hce & Hhf & Hff).
    destruct (flag_Parse_outcome E w2) as [Hout|[code Hout]].
    + pose proof (λ Hst, flag_Parse_scanned E w2 cmd Hst Hout Htf) as Hscan.
      destruct (flag_Parse E w2) as [wf out]. simpl in *. subst out.
      exists [], (EvFlagParse (osArgs E) :: cmd ++ [EvClose]). simpl.
      split.
      { rewrite Htf, Ht2, Ht1, Hto. rewrite <- !(assoc_L (++)). done. }
      do 4 (split; [done|]). split.
      { intros _. split; [done|]. intros Hex.
        rewrite Hff, Hf2. by apply Hfo'. }
      split.
      { constructor; [done|]. apply Forall_app. split.
        - eapply Forall_impl; [exact Hce|]. apply isFlagEvent_isTailEvent.
        - by repeat constructor. }
      intros _. exists cmd. split; [done|]. split; [done|].
      split; [rewrite Hhf; destruct Hs2 as [_ <-]; done|].
      intros Hst. eapply scanned_sim; [exact Hs2|]. by apply Hscan.
    + destruct (flag_Parse E w2) as [wf out]. simpl in *. subst out.
      exists [], (EvFlagParse (osArgs E) :: cmd). simpl.
      split.
      { rewrite Htf, Ht2, Ht1, Hto. rewrite <- !(assoc_L (++)). done. }
      do 4 (split; [done|]). split.
      { intros _. split; [done|]. intros Hex.
        rewrite Hff, Hf2. by apply Hfo'. }
      split; [|done].
      constructor; [done|].
      eapply Forall_impl; [exact Hce|]. apply isFlagEvent_isTailEvent.
  - destruct (rewriteFile_trace E cPath cPath newConf w2)
      as (wrEvs & Ht3 & Hwe & Hs3).
    destruct (Part000.rewriteFile E cPath cPath newConf w2) as [w3 err].
    simpl in Ht3, Hs3. exists wrEvs. destruct err as [err|].
    + exists [EvClose]. simpl. split.
      { rewrite Ht3, Ht2, Ht1, Hto. rewrite <- !(assoc_L (++)). done. }
      do 4 (split; [done|]). split; [done|].
      split; [by repeat constructor|done].
    + destruct (flag_Parse_tail E w3) as (cmd & Htf & Hce & Hhf & Hff).
      destruct (flag_Parse_outcome E w3) as [Hout|[code Hout]].
      * pose proof (λ Hst, flag_Parse_scanned E w3 cmd Hst Hout Htf)
          as Hscan.
        destruct (flag_Parse E w3) as [wf out]. simpl in *. subst out.
        exists (EvFlagParse (osArgs E) :: cmd ++ [EvClose]). simpl.
        split.
        { rewrite Htf, Ht3, Ht2, Ht1, Hto. rewrite <- !(assoc_L (++)). done. }
        do 4 (split; [done|]). split; [done|]. split.
        { constructor; [done|]. apply Forall_app. split.
          - eapply Forall_impl; [exact Hce|]. apply isFlagEvent_isTailEvent.
          - by repeat constructor. }
        intros _. exists cmd. split; [done|]. split; [done|].
        split; [rewrite Hhf; destruct Hs3 as [_ <-];
                destruct Hs2 as [_ <-]; done|].
        intros Hst. eapply scanned_sim; [exact Hs2|].
        eapply scanned_sim; [exact Hs3|]. by apply Hscan.
      * destruct (flag_Parse E w3) as [wf out]. simpl in *. subst out.
        exists (EvFlagParse (osArgs E) :: cmd). simpl.
        split.
        { rewrite Htf, Ht3, Ht2, Ht1, Hto. rewrite <- !(assoc_L (++)). done. }
        do 4 (split; [done|]). split; [done|]. split; [|done].
        constructor; [done|].
        eapply Forall_impl; [exact Hce|]. apply isFlagEvent_isTailEvent.
Qed.

Lemma ConfyGo_Parse_shape E appName cPath w :
  parsed (flags w) = false →
  (ConfyGo.getConfigFilePath E appName w).2 = (cPath, None) →
  readFault E cPath = None →
  let old := default EmptyString (files w !! cPath) in
  let w1 := (parseConfig old w).1 in
  let obs := (parseConfig old w).2 in
  let newConf := saveConfig E w1 (ConfyGo.configHeader appName) obs in
  let r := ConfyGo.Parse E appName w in
  ∃ pathEvs setEvs wrEvs tailEvs,
    trace r.1
    = trace w ++ pathEvs ++ [EvReadFile cPath] ++ setEvs
        ++ (if (0 <? size obs)%nat
            then [EvLog (updateWarning appName cPath)] else [])
        ++ wrEvs ++ tailEvs
    ∧ Forall isPathEvent pathEvs
    ∧ Forall isValueSet setEvs
    ∧ heap w1 = replay setEvs (heap w)
    ∧ Forall isWriteEvent wrEvs
    ∧ (old = newConf → wrEvs = [] ∧ files r.1 = files w)
    ∧ Forall isTailEvent tailEvs
    ∧ (r.2 = Returns None →
       ∃ cmd, tailEvs = EvFlagParse (osArgs E) :: cmd
              ∧ Forall isFlagEvent cmd
              ∧ heap r.1 = replay cmd (heap w1)
              ∧ (boolStable → scanned w1 (osArgs E) cmd)).
Proof.
  intros Hp Hpath Hread old w1 obs newConf r. subst r.
  rewrite (ConfyGo_Parse_unfold E appName cPath w Hp Hpath Hread).
  cbv zeta. fold old.
  destruct (getConfigFilePath_world E appName w) as [Hsp Hfp].
  destruct (getConfigFilePath_trace E appName w) as (pathEvs & Htp & Hpe).
  set (w0 := (emit (EvReadFile cPath)
                (ConfyGo.getConfigFilePath E appName w).1).1).
  assert (Hsim0 : sim w w0) by apply Hsp.
  assert (Hto : trace w0 = trace w ++ pathEvs ++ [EvReadFile cPath]).
  { subst w0. simpl. rewrite Htp, <- (assoc_L (++)). done. }
  assert (Hf0 : files w0 = files w) by apply Hfp.
  rewrite ConfyGo_Parse_read_unfold. cbv zeta.
  destruct (parseConfig_sim old w w0 Hsim0) as (Hs1 & Hobs & Hf1).
  destruct (parseConfig_trace old w w0 Hsim0) as (setEvs & Ht1 & Hse & Hh1).
  fold w1 in Hs1, Hh1. fold obs in Hobs. rewrite <- Hobs.
  rewrite <- (saveConfig_sim E w1 _ _ _ Hs1). fold newConf.
  set (w1' := (parseConfig old w0).1) in *.
  set (warn := if (0 <? size obs)%nat
               then [EvLog (updateWarning appName cPath)] else []).
  set (w2 := if (0 <? size obs)%nat
             then (emit (EvLog (updateWarning appName cPath)) w1').1
             else w1') in *.
  assert (Hw2 : trace w2 = trace w1' ++ warn ∧ sim w1 w2
                ∧ files w2 = files w0).
  { subst w2 warn. destruct (0 <? size obs)%nat; simpl.
    - split; [done|]. split; [apply Hs1|done].
    - rewrite app_nil_r. done. }
  destruct Hw2 as (Ht2 & Hs2 & Hf2).
  exists pathEvs, setEvs.
  destruct (String.eqb_spec old newConf) as [Heq|Hne].
  - destruct (flag_Parse_tail E w2) as (cmd & Htf & Hce & Hhf & Hff).
    exists [], (EvFlagParse (osArgs E) :: cmd). simpl. split.
    { rewrite Htf, Ht2, Ht1, Hto. rewrite <- !(assoc_L (++)). done. }
    do 4 (split; [done|]). split.
    { intros _. split; [done|]. by rewrite Hff, Hf2. }
    split.
    { constructor; [done|].
      eapply Forall_impl; [exact Hce|]. apply isFlagEvent_isTailEvent. }
    intros Hout. exists cmd. split; [done|]. split; [done|].
    split; [rewrite Hhf; destruct Hs2 as [_ <-]; done|].
    intros Hst. eapply scanned_sim; [exact Hs2|].
    exact (flag_Parse_scanned E w2 cmd Hst Hout Htf).
  - destruct (WriteFile_trace E cPath newConf w2) as (Ht3 & Hs3).
    destruct (ConfyGo.WriteFile E cPath newConf w2) as [w3 err].
    simpl in Ht3, Hs3. exists [EvWriteFile cPath newConf].
    destruct err as [err|].
    + exists []. simpl. split.
      { rewrite Ht3, Ht2, Ht1, Hto. rewrite <- !(assoc_L (++)). done. }
      do 3 (split; [done|]). split; [by repeat constructor|].
      split; [done|]. split; [by repeat constructor|done].
    + destruct (flag_Parse_tail E w3) as (cmd & Htf & Hce & Hhf & Hff).
      exists (EvFlagParse (osArgs E) :: cmd). simpl. split.
      { rewrite Htf, Ht3, Ht2, Ht1, Hto. rewrite <- !(assoc_L (++)). done. }
      do 3 (split; [done|]). split; [by repeat constructor|].
      split; [done|]. split.
      { constructor; [done|].
        eapply Forall_impl; [exact Hce|]. apply isFlagEvent_isTailEvent. }
      intros Hout. exists cmd. split; [done|]. split; [done|].
      split; [rewrite Hhf; destruct Hs3 as [_ <-];
              destruct Hs2 as [_ <-]; done|].
      intros Hst. eapply scanned_sim; [exact Hs2|].
      eapply scanned_sim; [exact Hs3|].
      exact (flag_Parse_scanned E w3 cmd Hst Hout Htf).
Qed.

(** *** Precedence of the command line *)

Lemma replay_unchanged (evs : list Event) (h : ref → V) (r : ref) :
  (∀ s, EvValueSet r s ∉ evs) → replay evs h r = h r.
Proof.
  revert h. induction evs as [|e evs IH]; intros h Hno; [done|].
  unfold replay. simpl. fold (replay evs (replayEvent h e)).
  rewrite IH by (intros s Hs; apply (Hno s); by right).
  destruct e; try done. simpl.
  apply fn_lookup_insert_ne. intros ->. apply (Hno s). by left.
Qed.

Lemma replay_last (evs1 evs2 : list Event) (h : ref → V) (r : ref)
    (s : string) :
  (∀ s', EvValueSet r s' ∉ evs2) →
  replay (evs1 ++ EvValueSet r s :: evs2) h r
  = (vSet (replay evs1 h r) s).1.
Proof.
  intros Hno. rewrite replay_app.
  change (replay (EvValueSet r s :: evs2) (replay evs1 h))
    with (replay evs2 (<[r:=(vSet (replay evs1 h r) s).1]> (replay evs1 h))).
  rewrite replay_unchanged by done. apply fn_lookup_insert.
Qed.

Lemma not_FlagParse_classes (e : Event) :
  isPathEvent e ∨ isValueSet e ∨ isWarning e ∨ isWriteEvent e
  ∨ (∃ p, e = EvOpen p) ∨ (∃ p, e = EvReadFile p) →
  ∀ a, e ≠ EvFlagParse a.
Proof.
  intros He a ->. simpl in He.
  destruct He as [?|[?|[?|[?|[[? ?]|[? ?]]]]]]; done.
Qed.

(** The assignments of the file phase leave the registered flags and
    what is Boolean as they were. *)
Lemma scanned_before_file (input : string) w (arguments : list string)
    (cmd : list Event) :
  boolStable →
  scanned (parseConfig input w).1 arguments cmd → scanned w arguments cmd.
Proof.
  intros Hst.
  destruct (registry_only_parseConfig input w)
    as (evs & _ & _ & Hh & _ & Hfo & _).
  apply scanned_ext; [done|].
  intros r. rewrite Hh. symmetry. by apply isBool_replay.
Qed.

(** The value of a flag after the calls of [Set] of the command line
    is what the call for its last assignment made of it. *)
Lemma scanned_last w (arguments : list string) (cmd : list Event)
    (h : ref → V) (name value : string) (fl : Flag)
    (before after : list (string * string)) :
  scanned w arguments cmd →
  cmdlineAssignments (isBoolIn w) arguments
  = before ++ (name, value) :: after →
  lookupFlag (flags w) name = Some fl →
  (∀ name' value' fl',
     (name', value') ∈ after → lookupFlag (flags w) name' = Some fl' →
     Value fl' ≠ Value fl) →
  replay cmd h (Value fl)
  = (vSet (replay (take (length before) cmd) h (Value fl)) value).1.
Proof.
  unfold scanned. intros Hsc Heq Hl Hafter. rewrite Heq in Hsc.
  apply Forall2_app_inv_r in Hsc as (cmd1 & cmd2' & H1 & H2 & ->).
  apply Forall2_cons_inv_r in H2 as (e & cmd2 & (fl' & Hl' & ->) & H2 & ->).
  simpl in Hl'. rewrite Hl in Hl'. injection Hl' as <-. simpl.
  rewrite take_app_length' by (symmetry; by eapply Forall2_length).
  apply replay_last. clear Heq H1.
  induction H2 as [|e nv cmd2 after (fl' & Hl' & ->) H2 IH].
  - intros s' Hin. by apply elem_of_nil in Hin.
  - intros s' Hin. apply elem_of_cons in Hin as [Hin|Hin].
    + injection Hin as Hr _. destruct nv as [name' value'].
      by apply (Hafter name' value' fl' ltac:(by left) Hl').
    + apply (IH (λ n v f Hn, Hafter n v f ltac:(by right)) s' Hin).
Qed.

(** C2.  In a call that returns without an error, [flag.Parse] is called
    once, after every event of the file phase (the [Set] calls that
    apply the file, the warning, the rewrite).  The calls of [Set] that
    follow are those for the assignments of the command line, one for
    each, in their order, and the final values are those that these
    calls make of the values the file left.  So a flag that the command
    line assigns has, in the end, the state that [Set] with the string
    of its last assignment on the command line produced, whatever the
    file assigned to it. *)
Theorem Parse_command_line_wins E appName cPath w :
  parsed (flags w) = false →
  (Part000.getConfigPath E appName w).2 = (cPath, None) →
  openFault E cPath = None →
  boolStable (V:=V) →
  (Part000.Parse E appName w).2 = Returns None →
  let old := default EmptyString (files w !! cPath) in
  let w1 := (parseConfig old w).1 in
  let final := (Part000.Parse E appName w).1 in
  ∃ fileEvs cmd,
    trace final
    = trace w ++ fileEvs ++ EvFlagParse (osArgs E) :: cmd ++ [EvClose]
    ∧ (∀ a, EvFlagParse a ∉ fileEvs)
    ∧ Forall isFlagEvent cmd
    ∧ scanned w (osArgs E) cmd
    ∧ heap final = replay cmd (heap w1)
    ∧ (∀ r s cmd1 cmd2,
         cmd = cmd1 ++ EvValueSet r s :: cmd2 →
         (∀ s', EvValueSet r s' ∉ cmd2) →
         heap final r = (vSet (replay cmd1 (heap w1) r) s).1)
    ∧ ∀ name value fl before after,
        cmdlineAssignments (isBoolIn w) (osArgs E)
        = before ++ (name, value) :: after →
        lookupFlag (flags w) name = Some fl →
        (∀ name' value' fl',
           (name', value') ∈ after → lookupFlag (flags w) name' = Some fl' →
           Value fl' ≠ Value fl) →
        heap final (Value fl)
        = (vSet (replay (take (length before) cmd) (heap w1) (Value fl))
             value).1.
Proof.
  intros Hp Hpath Hopen Hst Hok old w1 final.
  destruct (Part000_Parse_shape E appName cPath w Hp Hpath Hopen)
    as (pathEvs & setEvs & wrEvs & tailEvs & Ht & Hpe & Hse & Hh1 & Hwe
        & _ & _ & Hsucc).
  destruct (Hsucc Hok) as (cmd & -> & Hce & Hhf & Hscan).
  fold old in Hhf, Ht, Hscan. fold w1 in Hhf, Ht, Hscan.
  fold final in Hhf, Ht.
  apply (λ H, scanned_before_file old w _ _ Hst (Hscan H)) in Hst as Hsc.
  set (warn := if (0 <? size (parseConfig old w).2)%nat
               then [EvStderr (updateWarning appName cPath)] else []) in *.
  exists (pathEvs ++ [EvOpen cPath] ++ setEvs ++ warn ++ wrEvs), cmd.
  split; [by rewrite Ht, <- !(assoc_L (++))|].
  split; [|split; [done|split; [done|split; [done|split]]]].
  - intros a Ha.
    assert (Hcls : Forall (λ e, ∀ a, e ≠ EvFlagParse a)
                     (pathEvs ++ [EvOpen cPath] ++ setEvs ++ warn ++ wrEvs)).
    { repeat apply Forall_app_2.
      - eapply Forall_impl; [exact Hpe|]. intros e He.
        apply not_FlagParse_classes. tauto.
      - repeat constructor. done.
      - eapply Forall_impl; [exact Hse|]. intros e He.
        apply not_FlagParse_classes. tauto.
      - subst warn. destruct (0 <? _)%nat; repeat constructor. done.
      - eapply Forall_impl; [exact Hwe|]. intros e He.
        apply not_FlagParse_classes. tauto. }
    rewrite Forall_forall in Hcls. by apply (Hcls _ Ha a).
  - intros r s cmd1 cmd2 -> Hno. rewrite Hhf. by apply replay_last.
  - intros name value fl before after Heq Hl Hafter. rewrite Hhf.
    by apply (scanned_last w (osArgs E) cmd (heap w1) name value fl
                before after).
Qed.

(** *** Regeneration *)

Lemma sublist_elem_of {A} (l1 l2 : list A) (x : A) :
  l1 `sublist_of` l2 → x ∈ l1 → x ∈ l2.
Proof.
  intros Hsub Hx. apply sublist_submseteq in Hsub.
  by eapply elem_of_submseteq.
Qed.

(** The rendering depends on the registered flags and on the string
    forms of their values only. *)
Lemma saveConfig_ext E wa wb (buf : string) (obsKeys : gmap string string) :
  formal (flags wa) = formal (flags wb) →
  (∀ f, f ∈ VisitAll (flags wa) →
     vString (heap wa (Value f)) = vString (heap wb (Value f))) →
  saveConfig E wa buf obsKeys = saveConfig E wb buf obsKeys.
Proof.
  intros Hformal Hstr. rewrite !saveConfig_eq.
  assert (Hv : VisitAll (flags wa) = VisitAll (flags wb))
    by (unfold VisitAll; by rewrite Hformal).
  rewrite <- Hv. do 3 f_equal.
  apply Forall_fmap_ext_1, Forall_forall. intros f Hf.
  unfold optionBlock. rewrite Hstr; [done|].
  eapply sublist_elem_of; [|exact Hf]. apply filter_sublist.
Qed.

Lemma parseConfig_formal (input : string) w :
  formal (flags (parseConfig input w).1) = formal (flags w).
Proof.
  destruct (registry_only_parseConfig input w)
    as (evs & _ & _ & _ & _ & Hfo & _). done.
Qed.

Lemma not_write_classes (e : Event) :
  isPathEvent e ∨ isValueSet e ∨ isWarning e ∨ isTailEvent e
  ∨ (∃ p, e = EvOpen p) ∨ (∃ p, e = EvReadFile p) →
  ¬ isWriteEvent e.
Proof.
  destruct e; simpl; intros He Hw; try done;
    destruct He as [?|[?|[?|[?|[[? ?]|[? ?]]]]]]; done.
Qed.

(** When the file holds what was generated for the registered flags and
    reads back to the string forms it was rendered from, [Parse]
    regenerates the bytes of the file and writes nothing. *)
Lemma Parse_reads_back_no_write E appName cPath w wgen :
  parsed (flags w) = false →
  (Part000.getConfigPath E appName w).2 = (cPath, None) →
  openFault E cPath = None →
  formal (flags wgen) = formal (flags w) →
  files w !! cPath
  = Some (generatedFile E (Part000.configHeader appName) wgen) →
  let old := generatedFile E (Part000.configHeader appName) wgen in
  (parseConfig old w).2 = ∅ →
  (∀ f, f ∈ VisitAll (flags w) →
     vString (heap (parseConfig old w).1 (Value f))
     = vString (heap wgen (Value f))) →
  saveConfig E (parseConfig old w).1 (Part000.configHeader appName)
    (parseConfig old w).2 = old
  ∧ files (Part000.Parse E appName w).1 = files w
  ∧ ∃ evs, trace (Part000.Parse E appName w).1 = trace w ++ evs
           ∧ Forall (λ e, ¬ isWriteEvent e) evs.
Proof.
  intros Hp Hpath Hopen Hformal Hfile old Hobs Hstr.
  assert (Hregen : saveConfig E (parseConfig old w).1
                     (Part000.configHeader appName) (parseConfig old w).2
                   = old).
  { rewrite Hobs. unfold old, generatedFile. apply saveConfig_ext.
    - by rewrite parseConfig_formal.
    - intros f Hf. apply Hstr. unfold VisitAll in *.
      by rewrite parseConfig_formal in Hf. }
  split; [done|].
  destruct (Part000_Parse_shape E appName cPath w Hp Hpath Hopen)
    as (pathEvs & setEvs & wrEvs & tailEvs & Ht & Hpe & Hse & _ & _
        & Hsame & Hte & _).
  rewrite Hfile in Hsame, Ht. simpl in Hsame, Ht. fold old in Hsame, Ht.
  destruct (Hsame (eq_sym Hregen)) as [-> Hfiles].
  split; [by apply Hfiles|].
  eexists. split; [exact Ht|]. rewrite Hobs.
  apply Forall_app_2.
  { eapply Forall_impl; [exact Hpe|]. intros e He.
    apply not_write_classes. tauto. }
  apply Forall_cons_2; [simpl; tauto|].
  apply Forall_app_2.
  { eapply Forall_impl; [exact Hse|]. intros e He.
    apply not_write_classes. tauto. }
  simpl. eapply Forall_impl; [exact Hte|]. intros e He.
  apply not_write_classes. tauto.
Qed.


(** *** The lines of the file, one after the other *)

Lemma parseConfig_loop_app (obs : gmap string string) (l1 l2 : list string) w :
  parseConfig_loop obs (l1 ++ l2) w
  = parseConfig_loop (parseConfig_loop obs l1 w).2 l2
      (parseConfig_loop obs l1 w).1.
Proof.
  revert obs w. induction l1 as [|t l1 IH]; intros obs w; simpl; [done|].
  unfold bind. destruct (parseConfig_line obs t w) as [w' obs']. apply IH.
Qed.

Lemma lookupFlag_formal (f1 f2 : FlagSet) (k : string) :
  formal f1 = formal f2 → lookupFlag f1 k = lookupFlag f2 k.
Proof. unfold lookupFlag. by intros ->. Qed.

Lemma flag_Set_formal (k v : string) w :
  formal (flags (flag_Set k v w).1) = formal (flags w).
Proof.
  destruct (registry_only_flag_Set k v w) as (evs & _ & _ & _ & _ & Hfo & _).
  done.
Qed.

Lemma parseConfig_loop_formal (lines : list string)
    (obs : gmap string string) w :
  formal (flags (parseConfig_loop obs lines w).1) = formal (flags w).
Proof.
  destruct (registry_only_parseConfig_loop lines obs w)
    as (evs & _ & _ & _ & _ & Hfo & _). done.
Qed.

(** [flag.Set] changes the value of the flag it names, and no other. *)
Lemma flag_Set_heap (k v : string) w (r : ref) :
  heap (flag_Set k v w).1 r
  = match lookupFlag (flags w) k with
    | Some fl =>
        if decide (Value fl = r) then (vSet (heap w r) v).1 else heap w r
    | None => heap w r
    end.
Proof.
  unfold flag_Set, Value_Set. unfold_M. simpl.
  destruct (lookupFlag (flags w) k) as [fl|]; [|done]. simpl.
  destruct (vSet (heap w (Value fl)) v) as [x [e|]] eqn:Hset; simpl.
  - destruct (decide (Value fl = r)) as [<-|Hne].
    + by rewrite fn_lookup_insert, Hset.
    + by rewrite fn_lookup_insert_ne.
  - destruct (decide (Value fl = r)) as [<-|Hne].
    + by rewrite fn_lookup_insert, Hset.
    + by rewrite fn_lookup_insert_ne.
Qed.


Lemma parseConfig_loop_heap_frame (lines : list string)
    (obs : gmap string string) w (r : ref) :
  (∀ t k v fl, t ∈ lines → spec_parseLine t = Some (k, v) →
     lookupFlag (flags w) k = Some fl → Value fl ≠ r) →
  heap (parseConfig_loop obs lines w).1 r = heap w r.
Proof.
  revert obs w. induction lines as [|t lines IH]; intros obs w Hno; [done|].
  simpl. unfold bind.
  rewrite parseConfig_line_eq.
  destruct (spec_parseLine t) as [[k v]|] eqn:Hspec.
  - pose proof (flag_Set_heap k v w r) as Hh.
    pose proof (flag_Set_formal k v w) as Hfo.
    destruct (flag_Set k v w) as [w' err]. simpl in Hh, Hfo.
    rewrite IH.
    + rewrite Hh. destruct (lookupFlag (flags w) k) as [fl|] eqn:Hfl; [|done].
      destruct (decide (Value fl = r)) as [Heq|_]; [|done].
      exfalso. eapply (Hno t k v fl); [by left|done..].
    + intros t' k' v' fl' Ht' Hs' Hl'. eapply (Hno t' k' v' fl'); [by right|done|].
      by rewrite <- (lookupFlag_formal _ _ _ Hfo).
  - apply IH. intros t' k' v' fl' Ht'. apply Hno. by right.
Qed.

(** C10, amended.  When a line of the file that names a registered flag
    is applied without an error, and no later line of the file names
    that flag or another flag that shares its value, the value of the
    flag after parsing is the one that line gave it: the result of its
    [Set] on the value the lines before it had left. *)
Theorem parseConfig_last_line_wins (input : string) w
    (lines1 lines2 : list string) (text k v : string) (fl : Flag) :
  Bufio.ScanLines input = lines1 ++ text :: lines2 →
  lookupFlag (flags w) k = Some fl →
  appliedAt w lines1 text k v →
  (∀ t k' v' fl', t ∈ lines2 → spec_parseLine t = Some (k', v') →
     lookupFlag (flags w) k' = Some fl' → Value fl' ≠ Value fl) →
  let before := (parseConfig_loop ∅ lines1 w).1 in
  heap (parseConfig input w).1 (Value fl)
  = heap (flag_Set k v before).1 (Value fl)
  ∧ heap (parseConfig input w).1 (Value fl)
    = (vSet (heap before (Value fl)) v).1.
Proof.
  intros Hlines Hfl [Hspec Hok] Hlater before.
  assert (Hformal : formal (flags before) = formal (flags w))
    by apply parseConfig_loop_formal.
  assert (Hset : heap (flag_Set k v before).1 (Value fl)
                 = (vSet (heap before (Value fl)) v).1).
  { rewrite flag_Set_heap, (lookupFlag_formal _ _ _ Hformal), Hfl.
    by rewrite decide_True. }
  rewrite <- Hset.
  cut (heap (parseConfig input w).1 (Value fl)
       = heap (flag_Set k v before).1 (Value fl)); [done|].
  unfold parseConfig. rewrite Hlines, parseConfig_loop_app. fold before.
  simpl. unfold bind.
  rewrite parseConfig_line_eq, Hspec.
  pose proof (flag_Set_formal k v before) as Hfo.
  destruct (flag_Set k v before) as [w' err]. simpl in *.
  apply parseConfig_loop_heap_frame.
  intros t k' v' fl' Ht Hs Hl. eapply (Hlater t k' v' fl'); [done..|].
  rewrite <- Hl. apply lookupFlag_formal. congruence.
Qed.

(** *** Obsolete entries *)



Lemma size_pos_nonempty (m : gmap string string) :
  (0 <? size m)%nat = true ↔ m ≠ ∅.
Proof.
  rewrite Nat.ltb_lt. split.
  - intros Hs ->. rewrite map_size_empty in Hs. lia.
  - intros Hne. apply map_size_non_empty_iff in Hne. lia.
Qed.

Lemma not_warning_classes (e : Event) :
  isPathEvent e ∨ isValueSet e ∨ isWriteEvent e ∨ isTailEvent e
  ∨ (∃ p, e = EvOpen p) ∨ (∃ p, e = EvReadFile p) →
  ¬ isWarning e.
Proof.
  destruct e; simpl; intros He Hw; try done;
    destruct He as [?|[?|[?|[?|[[? ?]|[? ?]]]]]]; done.
Qed.



(** *** Reading a generated file back *)

Lemma splitLines_line (a rest : string) :
  plainb a = true →
  Bufio.splitLines (a +:+ nl +:+ rest) = a :: Bufio.splitLines rest.
Proof.
  induction a as [|c a IH]; intros Hp; [done|].
  simpl in Hp. apply andb_true_iff in Hp as [Hc Hp].
  apply andb_true_iff in Hc as [Hlf Hcr].
  rewrite sapp_cons. simpl. rewrite IH by done.
  apply negb_true_iff in Hlf. by rewrite Hlf.
Qed.

Lemma splitLines_unlines (l : list string) :
  Forall (λ a, plainb a = true) l → Bufio.splitLines (unlines l) = l.
Proof.
  induction 1 as [|a l Ha Hl IH]; [done|].
  unfold unlines. simpl. rewrite sapp_assoc.
  rewrite splitLines_line by done. f_equal. exact IH.
Qed.

Lemma byte_13 (c : ascii) : byte c = 13 → c = "013"%char.
Proof.
  unfold byte. intros Hc.
  assert (N_of_ascii c = 13%N) as Hn by lia.
  rewrite <- (ascii_N_embedding c), Hn. reflexivity.
Qed.

Lemma plainb_get (a : string) (n : nat) (c : ascii) :
  plainb a = true → String.get n a = Some c → c ≠ "013"%char.
Proof.
  revert n. induction a as [|x a IH]; intros n Hp Hg; [done|].
  simpl in Hp. apply andb_true_iff in Hp as [Hc Hp].
  apply andb_true_iff in Hc as [Hlf Hcr].
  destruct n as [|n]; simpl in Hg.
  - simplify_eq. by apply negb_true_iff, Ascii.eqb_neq in Hcr.
  - by eapply IH.
Qed.

Lemma dropCR_plain (a : string) : plainb a = true → Bufio.dropCR a = a.
Proof.
  intros Hp. unfold Bufio.dropCR.
  destruct (0 <? len a); [|done]. simpl.
  destruct (Z.eqb_spec (byte (at_ a (len a - 1))) 13) as [Heq|]; [|done].
  exfalso. unfold at_ in Heq.
  destruct (String.get _ a) as [c|] eqn:Hg.
  - apply byte_13 in Heq. by apply (plainb_get a _ c Hp Hg).
  - vm_compute in Heq. discriminate Heq.
Qed.

(** The scanner delivers the lines of a text made of plain lines. *)
Lemma ScanLines_unlines (l : list string) :
  Forall (λ a, plainb a = true) l → Bufio.ScanLines (unlines l) = l.
Proof.
  intros Hl. unfold Bufio.ScanLines. rewrite splitLines_unlines by done.
  induction Hl as [|a l Ha Hl IH]; [done|].
  by rewrite fmap_cons, IH, dropCR_plain.
Qed.

Lemma rev_app_app (s acc : string) :
  String.rev_app s acc = String.rev_app s EmptyString +:+ acc.
Proof.
  revert acc. induction s as [|a s IH]; intros acc; simpl; [done|].
  by rewrite IH, (IH (String a EmptyString)), sapp_assoc.
Qed.

Lemma rev_cons (a : ascii) (s : string) :
  String.rev (String a s) = String.rev s +:+ String a EmptyString.
Proof. unfold String.rev. simpl. apply rev_app_app. Qed.

Lemma rev_snoc (a : ascii) (s : string) :
  String.rev (s +:+ String a EmptyString) = String a (String.rev s).
Proof.
  induction s as [|x s IH]; [done|]. by rewrite sapp_cons, !rev_cons, IH.
Qed.

Lemma TrimLeftSpace_hash (s : string) :
  Strings.TrimLeftSpace (String "#" s) = String "#" s.
Proof. destruct s as [|b [|c s3]]; reflexivity. Qed.

(** Trimming from the right stops at a [#] at the latest. *)
Lemma TrimLeftSpace_rev_hash (n : nat) (u : string) :
  (String.length u ≤ n)%nat →
  ∃ u1, Strings.TrimLeftSpace_rev (u +:+ "#") = u1 +:+ "#".
Proof.
  revert u. induction n as [|n IH]; intros u Hn.
  { destruct u; [|simpl in Hn; lia]. by exists EmptyString. }
  destruct u as [|a u]; [by exists EmptyString|].
  rewrite sapp_cons. simpl in Hn.
  change (Strings.TrimLeftSpace_rev (String a (u +:+ "#")))
    with (if Strings.asciiSpace a then Strings.TrimLeftSpace_rev (u +:+ "#")
          else match u +:+ "#" with
               | String b s2 =>
                   if Strings.spaceRune2 b a then Strings.TrimLeftSpace_rev s2
                   else match s2 with
                        | String c s3 =>
                            if Strings.spaceRune3 c b a
                            then Strings.TrimLeftSpace_rev s3
                            else String a (u +:+ "#")
                        | EmptyString => String a (u +:+ "#")
                        end
               | EmptyString => String a (u +:+ "#")
               end).
  destruct (Strings.asciiSpace a); [apply IH; lia|].
  destruct u as [|b u].
  { exists (String a EmptyString). reflexivity. }
  rewrite sapp_cons. simpl in Hn.
  destruct (Strings.spaceRune2 b a); [apply IH; lia|].
  destruct u as [|c u].
  { exists (String a (String b EmptyString)). reflexivity. }
  rewrite sapp_cons. simpl in Hn.
  destruct (Strings.spaceRune3 c b a); [apply IH; lia|].
  exists (String a (String b (String c u))). reflexivity.
Qed.

Lemma TrimSpace_hash (s : string) :
  beginsWithHash (Strings.TrimSpace (String "#" s)) = true.
Proof.
  unfold Strings.TrimSpace, Strings.TrimRightSpace.
  rewrite TrimLeftSpace_hash, rev_cons.
  destruct (TrimLeftSpace_rev_hash _ (String.rev s) (le_n _)) as [u1 ->].
  by rewrite rev_snoc.
Qed.

(** A line that begins with [#] is a comment, whatever follows. *)
Lemma spec_parseLine_comment (s : string) :
  spec_parseLine (String "#" s) = None.
Proof.
  unfold spec_parseLine. rewrite TrimSpace_hash. by rewrite orb_true_r.
Qed.

Lemma unlines_app (a b : list string) :
  unlines (a ++ b) = unlines a +:+ unlines b.
Proof. unfold unlines. by rewrite fmap_app, concatS_app. Qed.

Lemma optionBlock_unlines w (f : Flag) :
  optionBlock w f = unlines (blockLines w f).
Proof.
  unfold optionBlock, unlines, blockLines, commentLine, assignmentLine.
  simpl. by rewrite sapp_nil_r, !sapp_assoc.
Qed.

Lemma blocks_unlines w (W : list Flag) :
  concatS (optionBlock w <$> W) = unlines (concat (blockLines w <$> W)).
Proof.
  induction W as [|f W IH]; [done|].
  rewrite !fmap_cons, concat_cons, unlines_app.
  change (concatS (optionBlock w f :: (optionBlock w <$> W)))
    with (optionBlock w f +:+ concatS (optionBlock w <$> W)).
  by rewrite IH, optionBlock_unlines.
Qed.

Lemma parseConfig_line_skip (obs : gmap string string) (text : string) w :
  spec_parseLine text = None → parseConfig_line obs text w = (w, obs).
Proof. intros Hs. by rewrite parseConfig_line_eq, Hs. Qed.

Lemma beginsWithHash_cons (a : string) :
  beginsWithHash a = true → ∃ s, a = String "#" s.
Proof.
  destruct a as [|c s]; [done|]. simpl. intros Hc.
  apply Ascii.eqb_eq in Hc as ->. eauto.
Qed.

Lemma parseConfig_loop_comments (l : list string)
    (obs : gmap string string) w :
  Forall (λ a, beginsWithHash a = true) l →
  parseConfig_loop obs l w = (w, obs).
Proof.
  induction 1 as [|a l Ha Hl IH]; [done|]. simpl. unfold bind.
  apply beginsWithHash_cons in Ha as [s ->].
  by rewrite parseConfig_line_skip by apply spec_parseLine_comment.
Qed.

Lemma flag_Set_ok w (f : Flag) (value : string) :
  lookupFlag (flags w) (Name f) = Some f →
  (vSet (heap w (Value f)) value).2 = None →
  (flag_Set (Name f) value w).2 = None
  ∧ heap (flag_Set (Name f) value w).1
    = <[Value f:=(vSet (heap w (Value f)) value).1]> (heap w)
  ∧ formal (flags (flag_Set (Name f) value w).1) = formal (flags w).
Proof.
  intros Hl Hok. unfold flag_Set, Value_Set. unfold_M. simpl.
  rewrite Hl. simpl.
  destruct (vSet (heap w (Value f)) value) as [x e]. simpl in Hok.
  by subst e.
Qed.

(** Reading the blocks of flags with different values: no entry is
    recorded, each of the flags gets the string form of its block, and
    no other value changes. *)
Lemma parseConfig_loop_blocks (wgen : World V) (W : list Flag)
    (obs : gmap string string) w :
  NoDup (Value <$> W) →
  (∀ f, f ∈ W → lookupFlag (flags w) (Name f) = Some f ∧ readsBack w wgen f) →
  let r := parseConfig_loop obs (concat (blockLines wgen <$> W)) w in
  r.2 = obs
  ∧ (∀ f, f ∈ W →
       vString (heap r.1 (Value f)) = vString (heap wgen (Value f)))
  ∧ (∀ x, x ∉ Value <$> W → heap r.1 x = heap w x).
Proof.
  revert w. induction W as [|f W IH]; intros w Hnd Hall r.
  { subst r. simpl. split; [done|]. split; [|done].
    intros f Hf. by apply elem_of_nil in Hf. }
  rewrite fmap_cons in Hnd. apply NoDup_cons in Hnd as [Hf Hnd].
  destruct (Hall f ltac:(by left)) as (Hl & Hp1 & Hp2 & Hspec & Hok & Hstr).
  subst r. rewrite fmap_cons, concat_cons, parseConfig_loop_app.
  assert (Hblock : parseConfig_loop obs (blockLines wgen f) w
                   = parseConfig_line obs (assignmentLine wgen f) w).
  { unfold blockLines. simpl. unfold bind.
    rewrite parseConfig_line_skip by reflexivity.
    rewrite parseConfig_line_skip by apply spec_parseLine_comment.
    unfold ret. by destruct (parseConfig_line _ _ w). }
  rewrite Hblock, parseConfig_line_eq, Hspec.
  destruct (flag_Set_ok w f _ Hl Hok) as (Herr & Hheap & Hformal).
  destruct (flag_Set (Name f) (vString (heap wgen (Value f))) w)
    as [w3 err]. simpl in Herr, Hheap, Hformal. subst err.
  assert (Hall3 : ∀ g, g ∈ W →
            lookupFlag (flags w3) (Name g) = Some g ∧ readsBack w3 wgen g).
  { intros g Hg. destruct (Hall g ltac:(by right))
      as (Hlg & Hg1 & Hg2 & Hg3 & Hg4 & Hg5).
    split; [by rewrite (lookupFlag_formal _ _ _ Hformal)|].
    assert (Hne : Value f ≠ Value g).
    { intros Heq. apply Hf. rewrite Heq. by apply list_elem_of_fmap_2. }
    unfold readsBack. by rewrite Hheap, fn_lookup_insert_ne. }
  destruct (IH w3 Hnd Hall3) as (Hobs & Hstrs & Hframe).
  split; [done|]. split.
  - intros g Hg. apply elem_of_cons in Hg as [->|Hg]; [|by apply Hstrs].
    rewrite Hframe by done. by rewrite Hheap, fn_lookup_insert.
  - intros x Hx. rewrite fmap_cons in Hx.
    apply not_elem_of_cons in Hx as [Hxf Hx].
    rewrite Hframe by done. by rewrite Hheap, fn_lookup_insert_ne.
Qed.

Lemma representatives_cover (fl : list Flag) (f : Flag) :
  f ∈ fl → ∃ c, c ∈ representatives fl ∧ Value c = Value f.
Proof.
  intros Hf. pose proof (dedupVisit_invariant fl (Value f)) as Hinv.
  destruct (foldl dedupVisit ∅ fl !! Value f) as [c|] eqn:Hc;
    [|by specialize (Hinv f Hf)].
  destruct Hinv as [Hv Hlong]. exists c. split; [|done].
  apply elem_of_representatives. split; [by apply longestFirst_elem|].
  unfold isWritten. rewrite Hv, Hc. by apply bool_decide_eq_true.
Qed.

Lemma representatives_unique (fl : list Flag) (c c' : Flag) :
  NoDup (Name <$> fl) →
  c ∈ representatives fl → c' ∈ representatives fl →
  Value c = Value c' → c = c'.
Proof.
  intros Hnd Hc Hc' Hv.
  apply elem_of_representatives in Hc as [Hcfl Hw].
  apply elem_of_representatives in Hc' as [Hcfl' Hw'].
  unfold isWritten in Hw, Hw'. rewrite <- Hv in Hw'.
  destruct (foldl dedupVisit ∅ fl !! Value c) as [cur|]; [|done].
  apply bool_decide_eq_true in Hw, Hw'.
  apply (NoDup_names_eq fl c c' Hnd Hcfl Hcfl'). congruence.
Qed.

Lemma representatives_NoDup_values (fl : list Flag) :
  NoDup (Name <$> fl) → NoDup (Value <$> representatives fl).
Proof.
  intros Hnd. apply NoDup_fmap_2_strong.
  - intros c c' Hc Hc'. by apply (representatives_unique fl).
  - eapply sublist_NoDup; [|apply filter_sublist].
    by apply NoDup_fmap_1 in Hnd.
Qed.

Lemma plainb_app (a b : string) : plainb (a +:+ b) = plainb a && plainb b.
Proof.
  induction a as [|c a IH]; [done|]. rewrite sapp_cons. simpl.
  by rewrite IH, !andb_assoc.
Qed.

(** A file generated under a header of comment lines, whose blocks read
    back, leaves no obsolete entry and gives every registered flag the
    string form it was rendered from. *)
Lemma generated_file_reads_back E (hl : list string) w wgen :
  formal (flags wgen) = formal (flags w) →
  commentLines hl →
  (∀ f, f ∈ representatives (VisitAll (flags w)) → readsBack w wgen f) →
  let old := generatedFile E (unlines hl) wgen in
  (parseConfig old w).2 = ∅
  ∧ ∀ f, f ∈ VisitAll (flags w) →
      vString (heap (parseConfig old w).1 (Value f))
      = vString (heap wgen (Value f)).
Proof.
  intros Hformal Hhl Hall old.
  assert (Hv : VisitAll (flags wgen) = VisitAll (flags w))
    by (unfold VisitAll; by rewrite Hformal).
  set (W := representatives (VisitAll (flags w))) in *.
  assert (Hold : old = unlines (hl ++ concat (blockLines wgen <$> W))).
  { unfold old, generatedFile. rewrite saveConfig_eq, Hv. fold W.
    unfold obsoleteSection. rewrite map_size_empty. simpl.
    by rewrite sapp_nil_r, unlines_app, blocks_unlines. }
  assert (Hplain : Forall (λ a, plainb a = true)
                     (hl ++ concat (blockLines wgen <$> W))).
  { apply Forall_app_2.
    - eapply Forall_impl; [exact Hhl|]. by intros a [? _].
    - apply Forall_concat, Forall_fmap, Forall_forall. intros f Hf.
      destruct (Hall f Hf) as (Hp1 & Hp2 & _).
      unfold blockLines. by repeat constructor. }
  unfold parseConfig. rewrite Hold, ScanLines_unlines by done.
  rewrite parseConfig_loop_app.
  rewrite (parseConfig_loop_comments hl)
    by (eapply Forall_impl; [exact Hhl|]; by intros a [_ ?]).
  simpl fst. simpl snd.
  assert (HallW : ∀ f, f ∈ W →
            lookupFlag (flags w) (Name f) = Some f ∧ readsBack w wgen f).
  { intros f Hf. split; [|by apply Hall].
    apply VisitAll_lookup. eapply sublist_elem_of; [|exact Hf].
    apply filter_sublist. }
  destruct (parseConfig_loop_blocks wgen W ∅ w
              (representatives_NoDup_values _ (VisitAll_names (flags w)))
              HallW) as (Hobs & Hstr & _).
  split; [done|]. intros f Hf.
  destruct (representatives_cover _ f Hf) as (c & Hc & Hvc).
  rewrite <- Hvc. by apply Hstr.
Qed.

Lemma configHeader_lines (appName : string) :
  plainb appName = true →
  Part000.configHeader appName = unlines (headerLines_Part000 appName)
  ∧ commentLines (headerLines_Part000 appName)
  ∧ ConfyGo.configHeader appName = unlines (headerLines_ConfyGo appName)
  ∧ commentLines (headerLines_ConfyGo appName).
Proof.
  intros Hp. split; [|split; [|split]].
  - unfold Part000.configHeader, unlines, headerLines_Part000. simpl.
    by rewrite sapp_nil_r, !sapp_assoc.
  - unfold commentLines, headerLines_Part000.
    repeat constructor; try reflexivity.
    rewrite !plainb_app, Hp. reflexivity.
  - unfold ConfyGo.configHeader, unlines, headerLines_ConfyGo. simpl.
    by rewrite sapp_nil_r, !sapp_assoc.
  - unfold commentLines, headerLines_ConfyGo.
    repeat constructor; try reflexivity.
    rewrite !plainb_app, Hp. reflexivity.
Qed.

(** Idempotence from conditions on the flags: the application name is
    plain and the block of every flag that is written reads back.  Then
    a second call on the generated file writes nothing. *)
Lemma Parse_idempotent_plain E appName cPath w wgen :
  parsed (flags w) = false →
  (Part000.getConfigPath E appName w).2 = (cPath, None) →
  openFault E cPath = None →
  formal (flags wgen) = formal (flags w) →
  files w !! cPath
  = Some (generatedFile E (Part000.configHeader appName) wgen) →
  plainb appName = true →
  (∀ f, f ∈ representatives (VisitAll (flags w)) → readsBack w wgen f) →
  files (Part000.Parse E appName w).1 = files w
  ∧ ∃ evs, trace (Part000.Parse E appName w).1 = trace w ++ evs
           ∧ Forall (λ e, ¬ isWriteEvent e) evs.
Proof.
  intros Hp Hpath Hopen Hformal Hfile Hplain Hall.
  destruct (configHeader_lines appName Hplain) as (Hh & Hcl & _).
  destruct (generated_file_reads_back E _ w wgen Hformal Hcl Hall)
    as [Hobs Hstr].
  rewrite <- Hh in Hobs, Hstr.
  exact (proj2 (Parse_reads_back_no_write E appName cPath w wgen
                  Hp Hpath Hopen Hformal Hfile Hobs Hstr)).
Qed.

(** *** The same properties of [confy.go]

    [confy.go] reads the file with [ioutil.ReadFile], writes it with
    [ioutil.WriteFile] and warns through [log.Printf]; the properties
    of the other revision hold for it in the same form. *)

Lemma WriteFile_fails E name (data : string) w :
  is_Some (openFault E name) ∨ is_Some (writeFault E) →
  ∃ cause, (ConfyGo.WriteFile E name data w).2 = Some cause.
Proof.
  unfold ConfyGo.WriteFile. unfold_M. simpl. intros Hfail.
  destruct (openFault E name) as [e|]; [by eexists|].
  destruct (writeFault E) as [[n e]|]; [by eexists|].
  destruct Hfail as [[? ?]|[? ?]]; done.
Qed.

(** C9 for [confy.go]: a failing write leaves the values of the file
    applied. *)
Lemma ConfyGo_Parse_write_failure_keeps_values E appName cPath w :
  parsed (flags w) = false →
  (ConfyGo.getConfigFilePath E appName w).2 = (cPath, None) →
  readFault E cPath = None →
  let old := default EmptyString (files w !! cPath) in
  let w1 := (parseConfig old w).1 in
  let obs := (parseConfig old w).2 in
  old ≠ saveConfig E w1 (ConfyGo.configHeader appName) obs →
  is_Some (openFault E cPath) ∨ is_Some (writeFault E) →
  ∃ cause,
    (ConfyGo.Parse E appName w).2
    = Returns (Some ("failed to write " +:+ cPath +:+ ": " +:+ cause))
    ∧ heap (ConfyGo.Parse E appName w).1 = heap w1
    ∧ flags (ConfyGo.Parse E appName w).1 = flags w1.
Proof.
  intros Hp Hpath Hread old w1 obs Hdiff Hfail.
  rewrite (ConfyGo_Parse_unfold E appName cPath w Hp Hpath Hread).
  cbv zeta. fold old.
  destruct (getConfigFilePath_world E appName w) as [Hsp Hfp].
  set (w0 := (emit (EvReadFile cPath)
                (ConfyGo.getConfigFilePath E appName w).1).1).
  assert (Hsim0 : sim w w0) by apply Hsp.
  rewrite ConfyGo_Parse_read_unfold. cbv zeta.
  destruct (parseConfig_sim old w w0 Hsim0) as (Hs1 & Hobs & _).
  fold w1 in Hs1. fold obs in Hobs. rewrite <- Hobs.
  rewrite <- (saveConfig_sim E w1 _ _ _ Hs1).
  destruct (String.eqb_spec old
              (saveConfig E w1 (ConfyGo.configHeader appName) obs))
    as [Heq|_]; [done|].
  match goal with
  | |- context [ConfyGo.WriteFile E cPath ?d ?u] =>
      destruct (WriteFile_fails E cPath d u Hfail) as (cause & Hcause);
      destruct (WriteFile_trace E cPath d u) as (_ & Hsw);
      destruct (ConfyGo.WriteFile E cPath d u) as [w3 e] eqn:Hwf
  end.
  simpl in Hcause, Hsw. subst e. exists cause. simpl. split; [done|].
  assert (Hs3 : sim w1 w3).
  { eapply sim_trans; [exact Hs1|]. eapply sim_trans; [|exact Hsw].
    destruct (0 <? size obs)%nat; done. }
  destruct Hs3 as [Hfl Hh]. done.
Qed.

(** C2 for [confy.go]. *)
Lemma ConfyGo_Parse_command_line_wins E appName cPath w :
  parsed (flags w) = false →
  (ConfyGo.getConfigFilePath E appName w).2 = (cPath, None) →
  readFault E cPath = None →
  boolStable (V:=V) →
  (ConfyGo.Parse E appName w).2 = Returns None →
  let old := default EmptyString (files w !! cPath) in
  let w1 := (parseConfig old w).1 in
  let final := (ConfyGo.Parse E appName w).1 in
  ∃ fileEvs cmd,
    trace final = trace w ++ fileEvs ++ EvFlagParse (osArgs E) :: cmd
    ∧ (∀ a, EvFlagParse a ∉ fileEvs)
    ∧ Forall isFlagEvent cmd
    ∧ scanned w (osArgs E) cmd
    ∧ heap final = replay cmd (heap w1)
    ∧ (∀ r s cmd1 cmd2,
         cmd = cmd1 ++ EvValueSet r s :: cmd2 →
         (∀ s', EvValueSet r s' ∉ cmd2) →
         heap final r = (vSet (replay cmd1 (heap w1) r) s).1)
    ∧ ∀ name value fl before after,
        cmdlineAssignments (isBoolIn w) (osArgs E)
        = before ++ (name, value) :: after →
        lookupFlag (flags w) name = Some fl →
        (∀ name' value' fl',
           (name', value') ∈ after → lookupFlag (flags w) name' = Some fl' →
           Value fl' ≠ Value fl) →
        heap final (Value fl)
        = (vSet (replay (take (length before) cmd) (heap w1) (Value fl))
             value).1.
Proof.
  intros Hp Hpath Hread Hst Hok old w1 final.
  destruct (ConfyGo_Parse_shape E appName cPath w Hp Hpath Hread)
    as (pathEvs & setEvs & wrEvs & tailEvs & Ht & Hpe & Hse & Hh1 & Hwe
        & _ & _ & Hsucc).
  destruct (Hsucc Hok) as (cmd & -> & Hce & Hhf & Hscan).
  fold old in Hhf, Ht, Hscan. fold w1 in Hhf, Ht, Hscan.
  fold final in Hhf, Ht.
  apply (λ H, scanned_before_file old w _ _ Hst (Hscan H)) in Hst as Hsc.
  set (warn := if (0 <? size (parseConfig old w).2)%nat
               then [EvLog (updateWarning appName cPath)] else []) in *.
  exists (pathEvs ++ [EvReadFile cPath] ++ setEvs ++ warn ++ wrEvs), cmd.
  split; [by rewrite Ht, <- !(assoc_L (++))|].
  split; [|split; [done|split; [done|split; [done|split]]]].
  - intros a Ha.
    assert (Hcls : Forall (λ e, ∀ a, e ≠ EvFlagParse a)
                     (pathEvs ++ [EvReadFile cPath] ++ setEvs ++ warn
                      ++ wrEvs)).
    { repeat apply Forall_app_2.
      - eapply Forall_impl; [exact Hpe|]. intros e He.
        apply not_FlagParse_classes. tauto.
      - repeat constructor. done.
      - eapply Forall_impl; [exact Hse|]. intros e He.
        apply not_FlagParse_classes. tauto.
      - subst warn. destruct (0 <? _)%nat; repeat constructor. done.
      - eapply Forall_impl; [exact Hwe|]. intros e He.
        apply not_FlagParse_classes. tauto. }
    rewrite Forall_forall in Hcls. by apply (Hcls _ Ha a).
  - intros r s cmd1 cmd2 -> Hno. rewrite Hhf. by apply replay_last.
  - intros name value fl before after Heq Hl Hafter. rewrite Hhf.
    by apply (scanned_last w (osArgs E) cmd (heap w1) name value fl
                before after).
Qed.

(** C1, amended, for [confy.go]. *)
Lemma ConfyGo_Parse_idempotent E appName cPath w wgen :
  parsed (flags w) = false →
  (ConfyGo.getConfigFilePath E appName w).2 = (cPath, None) →
  readFault E cPath = None →
  formal (flags wgen) = formal (flags w) →
  files w !! cPath
  = Some (generatedFile E (ConfyGo.configHeader appName) wgen) →
  let old := generatedFile E (ConfyGo.configHeader appName) wgen in
  (parseConfig old w).2 = ∅ →
  (∀ f, f ∈ VisitAll (flags w) →
     vString (heap (parseConfig old w).1 (Value f))
     = vString (heap wgen (Value f))) →
  saveConfig E (parseConfig old w).1 (ConfyGo.configHeader appName)
    (parseConfig old w).2 = old
  ∧ files (ConfyGo.Parse E appName w).1 = files w
  ∧ ∃ evs, trace (ConfyGo.Parse E appName w).1 = trace w ++ evs
           ∧ Forall (λ e, ¬ isWriteEvent e) evs.
Proof.
  intros Hp Hpath Hread Hformal Hfile old Hobs Hstr.
  assert (Hregen : saveConfig E (parseConfig old w).1
                     (ConfyGo.configHeader appName) (parseConfig old w).2
                   = old).
  { rewrite Hobs. unfold old, generatedFile. apply saveConfig_ext.
    - by rewrite parseConfig_formal.
    - intros f Hf. apply Hstr. unfold VisitAll in *.
      by rewrite parseConfig_formal in Hf. }
  split; [done|].
  destruct (ConfyGo_Parse_shape E appName cPath w Hp Hpath Hread)
    as (pathEvs & setEvs & wrEvs & tailEvs & Ht & Hpe & Hse & _ & _
        & Hsame & Hte & _).
  rewrite Hfile in Hsame, Ht. simpl in Hsame, Ht. fold old in Hsame, Ht.
  destruct (Hsame (eq_sym Hregen)) as [-> Hfiles].
  split; [done|].
  eexists. split; [exact Ht|]. rewrite Hobs.
  apply Forall_app_2.
  { eapply Forall_impl; [exact Hpe|]. intros e He.
    apply not_write_classes. tauto. }
  apply Forall_cons_2; [simpl; tauto|].
  apply Forall_app_2.
  { eapply Forall_impl; [exact Hse|]. intros e He.
    apply not_write_classes. tauto. }
  simpl. eapply Forall_impl; [exact Hte|]. intros e He.
  apply not_write_classes. tauto.
Qed.

(** The warning of C4 for [confy.go], which goes to the logger. *)
Lemma ConfyGo_Parse_warning E appName cPath w :
  parsed (flags w) = false →
  (ConfyGo.getConfigFilePath E appName w).2 = (cPath, None) →
  readFault E cPath = None →
  let old := default EmptyString (files w !! cPath) in
  let obs := (parseConfig old w).2 in
  ∃ evs, trace (ConfyGo.Parse E appName w).1 = trace w ++ evs
    ∧ ((∃ text, EvLog text ∈ evs) ↔ obs ≠ ∅)
    ∧ (obs ≠ ∅ → EvLog (updateWarning appName cPath) ∈ evs).
Proof.
  intros Hp Hpath Hread old obs.
  destruct (ConfyGo_Parse_shape E appName cPath w Hp Hpath Hread)
    as (pathEvs & setEvs & wrEvs & tailEvs & Ht & Hpe & Hse & _ & Hwe
        & _ & Hte & _).
  fold old in Ht. fold obs in Ht.
  eexists. split; [exact Ht|].
  assert (Hno : ∀ evs text, Forall (λ e, ¬ isWarning e) evs →
                  EvLog text ∉ evs).
  { intros evs text Hall Hin. rewrite Forall_forall in Hall.
    by apply (Hall _ Hin). }
  assert (Hpath' : Forall (λ e, ¬ isWarning e) pathEvs).
  { eapply Forall_impl; [exact Hpe|]. intros e He.
    apply not_warning_classes. tauto. }
  assert (Hset' : Forall (λ e, ¬ isWarning e) setEvs).
  { eapply Forall_impl; [exact Hse|]. intros e He.
    apply not_warning_classes. tauto. }
  assert (Hrest : Forall (λ e, ¬ isWarning e) (wrEvs ++ tailEvs)).
  { apply Forall_app_2.
    - eapply Forall_impl; [exact Hwe|]. intros e He.
      apply not_warning_classes. tauto.
    - eapply Forall_impl; [exact Hte|]. intros e He.
      apply not_warning_classes. tauto. }
  destruct (0 <? size obs)%nat eqn:Hsize.
  - apply size_pos_nonempty in Hsize. split.
    + split; [done|]. intros _. exists (updateWarning appName cPath).
      set_solver.
    + intros _. set_solver.
  - assert (Hempty : ¬ obs ≠ ∅).
    { intros Hne. apply size_pos_nonempty in Hne. congruence. }
    split; [|done]. split; [|done]. intros [text Hin]. exfalso.
    rewrite !elem_of_app in Hin.
    destruct Hin as [Hin|[Hin|[Hin|[Hin|Hin]]]].
    + by apply (Hno _ _ Hpath') in Hin.
    + by apply list_elem_of_singleton in Hin.
    + by apply (Hno _ _ Hset') in Hin.
    + by apply elem_of_nil in Hin.
    + rewrite <- elem_of_app in Hin. by apply (Hno _ _ Hrest) in Hin.
Qed.

(** For a value whose [Set] stores what the string denotes, whatever
    it held before, the final value of C2 is that. *)
Lemma replay_last_overwrites (evs1 evs2 : list Event) (h : ref → V)
    (r : ref) (s : string) (u : V) :
  (∀ x, (vSet x s).1 = u) →
  (∀ s', EvValueSet r s' ∉ evs2) →
  replay (evs1 ++ EvValueSet r s :: evs2) h r = u.
Proof. intros Hu Hno. by rewrite replay_last. Qed.

End Correctness.

(** ** Further properties *)

(** *** Reversal and trimming *)

Lemma rev_sapp (a b : string) :
  String.rev (a +:+ b) = String.rev b +:+ String.rev a.
Proof.
  induction a as [|c a IH]; [by rewrite sapp_nil_l, sapp_nil_r|].
  by rewrite sapp_cons, !rev_cons, IH, sapp_assoc.
Qed.

Lemma rev_involutive (s : string) : String.rev (String.rev s) = s.
Proof.
  induction s as [|c s IH]; [done|]. by rewrite rev_cons, rev_snoc, IH.
Qed.

Lemma TrimLeftSpace_fix (s : string) :
  startsSpace s = false → Strings.TrimLeftSpace s = s.
Proof.
  destruct s as [|a [|b [|c s3]]]; simpl; [done|..].
  - by destruct (Strings.asciiSpace a).
  - destruct (Strings.asciiSpace a); [done|].
    by destruct (Strings.spaceRune2 a b).
  - destruct (Strings.asciiSpace a); [done|].
    destruct (Strings.spaceRune2 a b); [done|].
    by destruct (Strings.spaceRune3 a b c).
Qed.

Lemma TrimLeftSpace_rev_fix (s : string) :
  startsSpace_rev s = false → Strings.TrimLeftSpace_rev s = s.
Proof.
  destruct s as [|a [|b [|c s3]]]; simpl; [done|..].
  - by destruct (Strings.asciiSpace a).
  - destruct (Strings.asciiSpace a); [done|].
    by destruct (Strings.spaceRune2 b a).
  - destruct (Strings.asciiSpace a); [done|].
    destruct (Strings.spaceRune2 b a); [done|].
    by destruct (Strings.spaceRune3 c b a).
Qed.

(** What the trimming leaves is an end of the string that begins with
    no white space. *)
Lemma TrimLeftSpace_spec (n : nat) (s : string) :
  (String.length s ≤ n)%nat →
  startsSpace (Strings.TrimLeftSpace s) = false
  ∧ ∃ p, s = p +:+ Strings.TrimLeftSpace s.
Proof.
  revert s. induction n as [|n IH]; intros s Hn.
  { destruct s; [|simpl in Hn; lia]. split; [done|]. by exists EmptyString. }
  destruct s as [|a s1]; [split; [done|]; by exists EmptyString|].
  simpl in Hn.
  destruct (Strings.asciiSpace a) eqn:Ha.
  { destruct (IH s1 ltac:(lia)) as [Hs [p Hp]]. simpl. rewrite Ha.
    split; [done|]. exists (String a p). by rewrite sapp_cons, <- Hp. }
  destruct s1 as [|b s2].
  { simpl. rewrite Ha. simpl. rewrite Ha. split; [done|]. by exists EmptyString. }
  simpl in Hn.
  destruct (Strings.spaceRune2 a b) eqn:Hab.
  { destruct (IH s2 ltac:(lia)) as [Hs [p Hp]]. simpl. rewrite Ha, Hab.
    split; [done|]. exists (String a (String b p)).
    by rewrite !sapp_cons, <- Hp. }
  destruct s2 as [|c s3].
  { simpl. rewrite Ha, Hab. simpl. rewrite Ha, Hab.
    split; [done|]. by exists EmptyString. }
  simpl in Hn.
  destruct (Strings.spaceRune3 a b c) eqn:Habc.
  { destruct (IH s3 ltac:(lia)) as [Hs [p Hp]]. simpl. rewrite Ha, Hab, Habc.
    split; [done|]. exists (String a (String b (String c p))).
    by rewrite !sapp_cons, <- Hp. }
  simpl. rewrite Ha, Hab, Habc. simpl. rewrite Ha, Hab, Habc.
  split; [done|]. by exists EmptyString.
Qed.

Lemma TrimLeftSpace_rev_spec (n : nat) (s : string) :
  (String.length s ≤ n)%nat →
  startsSpace_rev (Strings.TrimLeftSpace_rev s) = false
  ∧ ∃ p, s = p +:+ Strings.TrimLeftSpace_rev s.
Proof.
  revert s. induction n as [|n IH]; intros s Hn.
  { destruct s; [|simpl in Hn; lia]. split; [done|]. by exists EmptyString. }
  destruct s as [|a s1]; [split; [done|]; by exists EmptyString|].
  simpl in Hn.
  destruct (Strings.asciiSpace a) eqn:Ha.
  { destruct (IH s1 ltac:(lia)) as [Hs [p Hp]]. simpl. rewrite Ha.
    split; [done|]. exists (String a p). by rewrite sapp_cons, <- Hp. }
  destruct s1 as [|b s2].
  { simpl. rewrite Ha. simpl. rewrite Ha. split; [done|]. by exists EmptyString. }
  simpl in Hn.
  destruct (Strings.spaceRune2 b a) eqn:Hab.
  { destruct (IH s2 ltac:(lia)) as [Hs [p Hp]]. simpl. rewrite Ha, Hab.
    split; [done|]. exists (String a (String b p)).
    by rewrite !sapp_cons, <- Hp. }
  destruct s2 as [|c s3].
  { simpl. rewrite Ha, Hab. simpl. rewrite Ha, Hab.
    split; [done|]. by exists EmptyString. }
  simpl in Hn.
  destruct (Strings.spaceRune3 c b a) eqn:Habc.
  { destruct (IH s3 ltac:(lia)) as [Hs [p Hp]]. simpl. rewrite Ha, Hab, Habc.
    split; [done|]. exists (String a (String b (String c p))).
    by rewrite !sapp_cons, <- Hp. }
  simpl. rewrite Ha, Hab, Habc. simpl. rewrite Ha, Hab, Habc.
  split; [done|]. by exists EmptyString.
Qed.

Lemma startsSpace_app (p q : string) :
  startsSpace p = true → startsSpace (p +:+ q) = true.
Proof.
  destruct p as [|a [|b [|c p3]]]; rewrite ?sapp_cons, ?sapp_nil_l;
    simpl; [done|..].
  - rewrite orb_false_r. by intros ->.
  - rewrite orb_false_r. intros [->| ->]%orb_true_iff; [done|].
    by rewrite orb_true_r.
  - done.
Qed.

(** [TrimSpace] leaves a part of the string that neither begins nor
    ends with white space. *)
Lemma TrimSpace_spec (s : string) :
  startsSpace (Strings.TrimSpace s) = false
  ∧ startsSpace_rev (String.rev (Strings.TrimSpace s)) = false
  ∧ ∃ p q, s = p +:+ Strings.TrimSpace s +:+ q.
Proof.
  unfold Strings.TrimSpace, Strings.TrimRightSpace.
  destruct (TrimLeftSpace_spec _ s (le_n _)) as [Hl [p Hp]].
  set (u := Strings.TrimLeftSpace s) in *.
  destruct (TrimLeftSpace_rev_spec _ (String.rev u) (le_n _)) as [Hr [q Hq]].
  set (y := Strings.TrimLeftSpace_rev (String.rev u)) in *.
  assert (Hu : u = String.rev y +:+ String.rev q).
  { by rewrite <- rev_sapp, <- Hq, rev_involutive. }
  split; [|split].
  - destruct (startsSpace (String.rev y)) eqn:Hs; [|done].
    apply (startsSpace_app _ (String.rev q)) in Hs. congruence.
  - by rewrite rev_involutive.
  - exists p, (String.rev q). by rewrite <- Hu.
Qed.

Lemma TrimSpace_fix (s : string) :
  startsSpace s = false → startsSpace_rev (String.rev s) = false →
  Strings.TrimSpace s = s.
Proof.
  intros Hl Hr. unfold Strings.TrimSpace, Strings.TrimRightSpace.
  by rewrite TrimLeftSpace_fix, TrimLeftSpace_rev_fix, rev_involutive.
Qed.

(** *** The normal form of a line *)

Lemma noSeparator_app (a b : string) :
  noSeparator (a +:+ b) ↔ noSeparator a ∧ noSeparator b.
Proof.
  induction a as [|c a IH]; [rewrite sapp_nil_l; simpl; tauto|].
  rewrite sapp_cons. simpl. tauto.
Qed.

Lemma TrimSpace_noSeparator (s : string) :
  noSeparator s → noSeparator (Strings.TrimSpace s).
Proof.
  destruct (TrimSpace_spec s) as (_ & _ & p & q & Hs).
  intros Hno. rewrite Hs in Hno.
  apply noSeparator_app in Hno as [_ Hno].
  by apply noSeparator_app in Hno as [Hno _].
Qed.

Lemma spaceRune2_eq_l (b : ascii) : Strings.spaceRune2 "=" b = false.
Proof. reflexivity. Qed.

Lemma spaceRune2_eq_r (a : ascii) : Strings.spaceRune2 a "=" = false.
Proof. unfold Strings.spaceRune2. simpl. apply andb_false_r. Qed.

Lemma spaceRune3_eq_1 (b c : ascii) : Strings.spaceRune3 "=" b c = false.
Proof. reflexivity. Qed.

Lemma spaceRune3_eq_2 (a c : ascii) : Strings.spaceRune3 a "=" c = false.
Proof.
  unfold Strings.spaceRune3. simpl.
  by rewrite !andb_false_r.
Qed.

Lemma spaceRune3_eq_3 (a b : ascii) : Strings.spaceRune3 a b "=" = false.
Proof.
  unfold Strings.spaceRune3. simpl.
  by rewrite !andb_false_r.
Qed.

Ltac sapp_norm := repeat first [rewrite sapp_cons | rewrite sapp_nil_l].

Ltac space_eq :=
  simpl;
  rewrite ?spaceRune2_eq_l, ?spaceRune2_eq_r, ?spaceRune3_eq_1,
    ?spaceRune3_eq_2, ?spaceRune3_eq_3;
  simpl; try reflexivity.

Lemma startsSpace_join (k v : string) :
  startsSpace k = false → startsSpace (k +:+ "=" +:+ v) = false.
Proof.
  destruct k as [|a [|b [|c k3]]]; sapp_norm; simpl.
  - intros _. destruct v as [|d [|d' v]]; reflexivity.
  - rewrite orb_false_r. intros ->. destruct v; space_eq.
  - rewrite orb_false_r. intros [-> ->]%orb_false_iff. space_eq.
  - done.
Qed.

Lemma startsSpace_rev_join (y z : string) :
  startsSpace_rev y = false → startsSpace_rev (y +:+ "=" +:+ z) = false.
Proof.
  destruct y as [|a [|b [|c y3]]]; sapp_norm; simpl.
  - intros _. destruct z as [|d [|d' z]]; space_eq.
  - rewrite orb_false_r. intros ->. destruct z; space_eq.
  - rewrite orb_false_r. intros [-> ->]%orb_false_iff. space_eq.
  - done.
Qed.

(** A trimmed key and a trimmed value make a trimmed line. *)
Lemma TrimSpace_join (k v : string) :
  Strings.TrimSpace k = k → Strings.TrimSpace v = v →
  Strings.TrimSpace (k +:+ "=" +:+ v) = k +:+ "=" +:+ v.
Proof.
  intros Hk Hv.
  destruct (TrimSpace_spec k) as (Hkl & _ & _).
  destruct (TrimSpace_spec v) as (_ & Hvr & _).
  rewrite Hk in Hkl. rewrite Hv in Hvr.
  apply TrimSpace_fix; [by apply startsSpace_join|].
  rewrite !rev_sapp. change (String.rev "=") with "=". rewrite sapp_assoc.
  by apply startsSpace_rev_join.
Qed.

Lemma TrimSpace_idempotent (s : string) :
  Strings.TrimSpace (Strings.TrimSpace s) = Strings.TrimSpace s.
Proof.
  destruct (TrimSpace_spec s) as (Hl & Hr & _). by apply TrimSpace_fix.
Qed.

Lemma cutAtSeparator_join (k v : string) :
  noSeparator k → cutAtSeparator (k +:+ "=" +:+ v) = Some (k, v).
Proof.
  induction k as [|c k IH]; [done|]. rewrite sapp_cons. simpl.
  intros [-> Hno]. by rewrite IH.
Qed.

Lemma beginsWithHash_app (a b : string) :
  a ≠ EmptyString → beginsWithHash (a +:+ b) = beginsWithHash a.
Proof. destruct a; [done|]. by rewrite sapp_cons. Qed.

(** A string that begins with no white space keeps its beginning when
    it is trimmed. *)
Lemma TrimSpace_prefix (u : string) :
  startsSpace u = false → ∃ q, u = Strings.TrimSpace u +:+ q.
Proof.
  intros Hu. unfold Strings.TrimSpace, Strings.TrimRightSpace.
  rewrite (TrimLeftSpace_fix u Hu).
  destruct (TrimLeftSpace_rev_spec _ (String.rev u) (le_n _)) as [_ [q Hq]].
  exists (String.rev q).
  by rewrite <- rev_sapp, <- Hq, rev_involutive.
Qed.

Lemma startsSpace_prefix (p q : string) :
  startsSpace (p +:+ q) = false → startsSpace p = false.
Proof.
  intros Hpq. destruct (startsSpace p) eqn:Hp; [|done].
  apply (startsSpace_app p q) in Hp. congruence.
Qed.

(** The pair that a line yields, written as [key=value], is a line that
    yields the same pair. *)
Lemma spec_parseLine_render (text k v : string) :
  spec_parseLine text = Some (k, v) →
  spec_parseLine (k +:+ "=" +:+ v) = Some (k, v).
Proof.
  unfold spec_parseLine at 1.
  destruct (TrimSpace_spec text) as (Hl & _ & _).
  set (line := Strings.TrimSpace text) in *.
  destruct (String.eqb line EmptyString); [done|].
  destruct (beginsWithHash line) eqn:Hhash; [done|]. simpl.
  destruct (cutAtSeparator line) as [[before after]|] eqn:Hcut; [|done].
  intros Heq. simplify_eq.
  destruct (cutAtSeparator_Some _ _ _ Hcut) as (c & Hline & Hc & Hno).
  set (k := Strings.TrimSpace before).
  set (v := Strings.TrimSpace after).
  assert (Hk : Strings.TrimSpace k = k) by apply TrimSpace_idempotent.
  assert (Hv : Strings.TrimSpace v = v) by apply TrimSpace_idempotent.
  assert (Hnok : noSeparator k) by by apply TrimSpace_noSeparator.
  assert (Hkhash : beginsWithHash (k +:+ "=" +:+ v) = false).
  { destruct (decide (k = EmptyString)) as [->|Hne]; [done|].
    rewrite beginsWithHash_app by done.
    rewrite Hline in Hl, Hhash.
    destruct (TrimSpace_prefix before (startsSpace_prefix _ _ Hl)) as [q Hq].
    fold k in Hq. rewrite Hq, sapp_assoc in Hhash.
    by rewrite beginsWithHash_app in Hhash. }
  unfold spec_parseLine. rewrite TrimSpace_join by done.
  rewrite Hkhash, orb_false_r.
  assert (Hnonempty : String.eqb (k +:+ "=" +:+ v) EmptyString = false).
  { destruct k; [done|]. by rewrite sapp_cons. }
  rewrite Hnonempty, cutAtSeparator_join by done. by rewrite Hk, Hv.
Qed.

(** *** The scanner *)

Lemma noLF_app (a b : string) : noLF (a +:+ b) = noLF a && noLF b.
Proof.
  induction a as [|c a IH]; [by rewrite sapp_nil_l|].
  rewrite sapp_cons. simpl. by rewrite IH, andb_assoc.
Qed.

Lemma plainb_noLF (a : string) : plainb a = true → noLF a = true.
Proof.
  induction a as [|c a IH]; [done|]. simpl.
  intros [[-> _]%andb_true_iff Ha]%andb_true_iff. by rewrite IH.
Qed.

Lemma splitLines_line_noLF (a rest : string) :
  noLF a = true →
  Bufio.splitLines (a +:+ nl +:+ rest) = a :: Bufio.splitLines rest.
Proof.
  induction a as [|c a IH]; intros Hp; [done|].
  simpl in Hp. apply andb_true_iff in Hp as [Hlf Hp].
  rewrite sapp_cons. simpl. rewrite IH by done.
  apply negb_true_iff in Hlf. by rewrite Hlf.
Qed.

Lemma splitLines_unlines_noLF (l : list string) :
  Forall (λ a, noLF a = true) l → Bufio.splitLines (unlines l) = l.
Proof.
  induction 1 as [|a l Ha Hl IH]; [done|].
  unfold unlines. simpl. rewrite sapp_assoc.
  rewrite splitLines_line_noLF by done. f_equal. exact IH.
Qed.

(** The scanner delivers lines without line feeds. *)
Lemma splitLines_noLF (s : string) :
  Forall (λ t, noLF t = true) (Bufio.splitLines s).
Proof.
  induction s as [|c s IH]; [constructor|]. simpl.
  destruct (Ascii.eqb c "010") eqn:Hc; [by constructor|].
  destruct (Bufio.splitLines s) as [|l ls]; constructor.
  - simpl. by rewrite Hc.
  - constructor.
  - apply Forall_cons in IH as [Hl _]. simpl. by rewrite Hc, Hl.
  - by apply Forall_cons in IH as [_ Hls].
Qed.

Lemma splitLines_snoc_nl (s : string) :
  Bufio.splitLines (s +:+ nl) = Bufio.splitLines s
  ∨ Bufio.splitLines (s +:+ nl) = Bufio.splitLines s ++ [EmptyString].
Proof.
  induction s as [|c s IH]; [by right|]. rewrite sapp_cons. simpl.
  destruct (Ascii.eqb c "010").
  - destruct IH as [-> | ->]; [by left|by right].
  - destruct IH as [-> | ->]; [by left|].
    destruct (Bufio.splitLines s) as [|l ls]; [by left|by right].
Qed.

Lemma splitLines_nl_nonempty (b : string) : Bufio.splitLines (b +:+ nl) ≠ [].
Proof.
  induction b as [|c b IH]; [done|]. rewrite sapp_cons. simpl.
  destruct (Ascii.eqb c "010"); [done|].
  by destruct (Bufio.splitLines (b +:+ nl)).
Qed.

Lemma splitLines_app_nl (b rest : string) :
  Bufio.splitLines ((b +:+ nl) +:+ rest)
  = Bufio.splitLines (b +:+ nl) ++ Bufio.splitLines rest.
Proof.
  induction b as [|c b IH]; [reflexivity|]. rewrite !sapp_cons. simpl.
  destruct (Ascii.eqb c "010"); [by rewrite IH|]. rewrite IH.
  pose proof (splitLines_nl_nonempty b) as Hne.
  by destruct (Bufio.splitLines (b +:+ nl)) as [|l ls].
Qed.

Lemma get_app_length (x : string) (a : ascii) (y : string) :
  String.get (String.length x) (x +:+ String a y) = Some a.
Proof. induction x as [|c x IH]; [done|]. by rewrite sapp_cons. Qed.

Lemma dropCR_snoc (x : string) (a : ascii) :
  Bufio.dropCR (x +:+ String a EmptyString)
  = if Ascii.eqb a "013" then x else x +:+ String a EmptyString.
Proof.
  unfold Bufio.dropCR.
  assert (Hlen : len (x +:+ String a EmptyString) = len x + 1).
  { unfold len. rewrite slength_app. simpl. lia. }
  rewrite Hlen. replace (len x + 1 - 1) with (len x) by lia.
  assert (Hpos : (0 <? len x + 1) = true) by (apply Z.ltb_lt; unfold len; lia).
  rewrite Hpos. simpl. unfold at_, len at 1. rewrite Nat2Z.id, get_app_length.
  destruct (Ascii.eqb_spec a "013") as [->|Hne].
  - simpl. apply slice_prefix.
  - destruct (Z.eqb_spec (byte a) 13) as [Hb|_]; [|done].
    by apply byte_13 in Hb.
Qed.

Lemma rev_cases (e : string) :
  e = EmptyString ∨ ∃ x a, e = x +:+ String a EmptyString
                          ∧ String.rev e = String a (String.rev x).
Proof.
  destruct (String.rev e) as [|a y] eqn:Hr.
  - left. by rewrite <- (rev_involutive e), Hr.
  - right. exists (String.rev y), a. split.
    + by rewrite <- (rev_involutive e), Hr, rev_cons.
    + by rewrite rev_involutive.
Qed.

(** [dropCR] takes away at most a carriage return. *)
Lemma dropCR_spec (t : string) :
  Bufio.dropCR t = t ∨ t = Bufio.dropCR t +:+ String "013" EmptyString.
Proof.
  destruct (rev_cases t) as [->|(x & a & -> & _)]; [by left|].
  rewrite dropCR_snoc. destruct (Ascii.eqb_spec a "013") as [->|]; auto.
Qed.

Lemma dropCR_noLF (t : string) : noLF t = true → noLF (Bufio.dropCR t) = true.
Proof.
  destruct (dropCR_spec t) as [->|Ht]; [done|].
  rewrite Ht at 1. rewrite noLF_app. by intros [? _]%andb_true_iff.
Qed.

Lemma ScanLines_noLF (s : string) :
  Forall (λ t, noLF t = true) (Bufio.ScanLines s).
Proof.
  unfold Bufio.ScanLines. apply Forall_fmap.
  eapply Forall_impl; [apply splitLines_noLF|]. apply dropCR_noLF.
Qed.

(** A line [key=value] with a trimmed value does not end in a carriage
    return. *)
Lemma dropCR_join (k v : string) :
  Strings.TrimSpace v = v →
  Bufio.dropCR (k +:+ "=" +:+ v) = k +:+ "=" +:+ v.
Proof.
  intros Hv. destruct (TrimSpace_spec v) as (_ & Hr & _). rewrite Hv in Hr.
  destruct (rev_cases v) as [->|(x & a & -> & Hrev)].
  - rewrite <- sapp_assoc, sapp_nil_r, dropCR_snoc. done.
  - rewrite Hrev in Hr. simpl in Hr. apply orb_false_iff in Hr as [Ha _].
    rewrite <- !sapp_assoc, dropCR_snoc.
    destruct (Ascii.eqb_spec a "013") as [->|]; done.
Qed.

Lemma TrimSpace_noLF (s : string) :
  noLF s = true → noLF (Strings.TrimSpace s) = true.
Proof.
  destruct (TrimSpace_spec s) as (_ & _ & p & q & Hs).
  intros Hno. rewrite Hs, !noLF_app in Hno.
  by apply andb_true_iff in Hno as [_ [? _]%andb_true_iff].
Qed.

Lemma cutAtSeparator_noLF (s before after : string) :
  cutAtSeparator s = Some (before, after) → noLF s = true →
  noLF before = true ∧ noLF after = true.
Proof.
  intros Hcut Hno.
  destruct (cutAtSeparator_Some _ _ _ Hcut) as (c & -> & _ & _).
  rewrite noLF_app in Hno. simpl in Hno.
  apply andb_true_iff in Hno as [? [_ ?]%andb_true_iff]. done.
Qed.

(** The pair of a line without a line feed makes a line [key=value]
    that the scanner delivers as it is. *)
Lemma spec_parseLine_noLF (t k v : string) :
  spec_parseLine t = Some (k, v) → noLF t = true →
  noLF (k +:+ "=" +:+ v) = true
  ∧ Bufio.dropCR (k +:+ "=" +:+ v) = k +:+ "=" +:+ v.
Proof.
  unfold spec_parseLine. intros Hspec Hno.
  apply TrimSpace_noLF in Hno.
  destruct (_ || _); [done|].
  destruct (cutAtSeparator _) as [[before after]|] eqn:Hcut; [|done].
  simplify_eq.
  destruct (cutAtSeparator_noLF _ _ _ Hcut Hno) as [Hb Ha].
  split.
  - rewrite !noLF_app. simpl.
    by rewrite (TrimSpace_noLF _ Hb), (TrimSpace_noLF _ Ha).
  - apply dropCR_join, TrimSpace_idempotent.
Qed.

Section Further.
Context {V : Type} `{!ValueImpl V} `{!GoLib}.
Implicit Types (w : World V) (E : Env).

(** *** Computations that depend on the registry only *)

Lemma respects_sim_ret {A} (a : A) : respects_sim (ret a : M V A).
Proof. by intros w w2 Hs. Qed.

Lemma respects_sim_bind {A B} (m : M V A) (k : A → M V B) :
  respects_sim m → (∀ a, respects_sim (k a)) → respects_sim (bind m k).
Proof.
  intros Hm Hk w w2 Hs. unfold bind.
  destruct (Hm w w2 Hs) as [Hs1 Heq].
  destruct (m w) as [w1 a], (m w2) as [w1' a']. simpl in *. subst a'.
  by apply Hk.
Qed.

Lemma respects_sim_gets {A} (f : World V → A) :
  (∀ w1 w2, sim w1 w2 → f w1 = f w2) → respects_sim (gets f).
Proof. intros Hf w w2 Hs. unfold gets. simpl. split; [done|by apply Hf]. Qed.

Lemma respects_sim_emit (e : Event) : respects_sim (emit (V:=V) e).
Proof. intros w w2 [Hf Hh]. unfold emit, sim. simpl. done. Qed.

Lemma respects_sim_registry_only {A} (m : M V A) :
  registry_only m → respects_sim m.
Proof.
  intros Hm w w2 Hs.
  destruct (Hm w) as (evs & _ & _ & _ & _ & _ & _ & _ & Hsim).
  destruct (Hsim w2 Hs) as (H1 & H2 & _). done.
Qed.

Lemma respects_sim_set_args (a : list string) :
  respects_sim (λ w : World V, (set_args a w, tt)).
Proof. intros w w2 [Hf Hh]. unfold_M. unfold sim. simpl. by rewrite Hf. Qed.

Lemma respects_sim_failf (e : flagError) : respects_sim (failf (V:=V) e).
Proof.
  unfold failf. apply respects_sim_bind; [apply respects_sim_emit|].
  intros _. apply respects_sim_ret.
Qed.

Lemma respects_sim_Value_Set (r : ref) (s : string) :
  respects_sim (Value_Set r s).
Proof. apply respects_sim_registry_only, registry_only_Value_Set. Qed.

Lemma respects_sim_parseOne : respects_sim (parseOne (V:=V)).
Proof.
  unfold parseOne. apply respects_sim_bind.
  { apply respects_sim_gets. by intros w1 w2 [-> _]. }
  intros [|s rest]; [apply respects_sim_ret|].
  destruct (_ || _); [apply respects_sim_ret|].
  destruct (_ && _).
  { apply respects_sim_bind; [apply respects_sim_set_args|].
    intros _. apply respects_sim_ret. }
  destruct (_ || _); [apply respects_sim_failf|].
  apply respects_sim_bind; [apply respects_sim_set_args|]. intros _.
  destruct (splitValue _) as [[name hasValue] value].
  apply respects_sim_bind.
  { apply respects_sim_gets. by intros w1 w2 [-> _]. }
  intros [fl|].
  - apply respects_sim_bind.
    { apply respects_sim_gets. by intros w1 w2 [_ ->]. }
    intros isBool. apply respects_sim_bind.
    + destruct isBool.
      * destruct hasValue;
          (apply respects_sim_bind; [apply respects_sim_Value_Set|];
           intros err; apply respects_sim_ret).
      * destruct hasValue.
        -- apply respects_sim_bind; [apply respects_sim_Value_Set|].
           intros err. apply respects_sim_ret.
        -- destruct rest as [|value' rest']; [apply respects_sim_ret|].
           apply respects_sim_bind; [apply respects_sim_set_args|]. intros _.
           apply respects_sim_bind; [apply respects_sim_Value_Set|].
           intros err. apply respects_sim_ret.
    + intros [e|]; [apply respects_sim_failf|].
      apply respects_sim_bind.
      { apply respects_sim_registry_only, registry_only_set_actual. }
      intros _. apply respects_sim_ret.
  - destruct (_ || _); [|apply respects_sim_failf].
    apply respects_sim_bind; [apply respects_sim_emit|].
    intros _. apply respects_sim_ret.
Qed.

Lemma respects_sim_parseLoop (fuel : nat) :
  respects_sim (parseLoop (V:=V) fuel).
Proof.
  induction fuel as [|n IH]; simpl; [apply respects_sim_ret|].
  apply respects_sim_bind; [apply respects_sim_parseOne|].
  intros [[] [[]|]]; try apply respects_sim_ret; apply IH.
Qed.

(** [flag.Parse] sees the registry only. *)
Lemma flag_Parse_sim E w w2 :
  sim w w2 →
  sim (flag_Parse E w).1 (flag_Parse E w2).1
  ∧ (flag_Parse E w).2 = (flag_Parse E w2).2.
Proof.
  intros Hs. unfold flag_Parse.
  apply respects_sim_bind; [apply respects_sim_emit| |done].
  intros _. apply respects_sim_bind; [|intros _; apply respects_sim_parseLoop].
  intros u u2 [Hf Hh]. unfold_M. unfold sim. simpl. by rewrite Hf.
Qed.

(** *** What the command-line scan leaves alone *)

Lemma parseOne_frame w (r : ref) :
  unregistered w r →
  heap (parseOne w).1 r = heap w r
  ∧ formal (flags (parseOne w).1) = formal (flags w)
  ∧ actual (flags w) ⊆ actual (flags (parseOne w).1).
Proof.
  unfold unregistered, parseOne, failf, Value_Set, lookupFlag.
  unfold_M. intros Hun.
  repeat (case_match; simplify_eq/=);
    (split; [|split; [done|set_solver]]); try done;
    apply fn_lookup_insert_ne; eapply Hun; eassumption.
Qed.

Lemma parseLoop_frame (n : nat) w (r : ref) :
  unregistered w r →
  heap (parseLoop n w).1 r = heap w r
  ∧ formal (flags (parseLoop n w).1) = formal (flags w).
Proof.
  revert w. induction n as [|n IH]; intros w Hun; [done|].
  simpl. unfold bind.
  destruct (parseOne_frame w r Hun) as (Hh & Hf & _).
  destruct (parseOne w) as [w' [[] [[]|]]]; simpl in *; try done;
    (destruct (IH w') as [Hh' Hf'];
     [unfold unregistered, lookupFlag in *; by rewrite Hf|];
     by rewrite Hh', Hf').
Qed.

Lemma parseOne_actual w :
  actual (flags w) ⊆ actual (flags (parseOne w).1).
Proof.
  unfold parseOne, failf, Value_Set, lookupFlag. unfold_M.
  repeat (case_match; simplify_eq/=); set_solver.
Qed.

Lemma parseLoop_actual (n : nat) w :
  actual (flags w) ⊆ actual (flags (parseLoop n w).1).
Proof.
  revert w. induction n as [|n IH]; intros w; [done|].
  simpl. unfold bind. pose proof (parseOne_actual w) as Ha.
  destruct (parseOne w) as [w' [[] [[]|]]]; simpl in *; try done;
    (etrans; [exact Ha|apply IH]).
Qed.

Lemma flag_Parse_frame E w (r : ref) :
  unregistered w r → heap (flag_Parse E w).1 r = heap w r.
Proof.
  intros Hun.
  set (w1 := set_args (osArgs E) (set_parsed
               {| flags := flags w; heap := heap w; files := files w;
                  trace := trace w ++ [EvFlagParse (osArgs E)] |})).
  change (flag_Parse E w) with (parseLoop (S (length (osArgs E))) w1).
  by destruct (parseLoop_frame (S (length (osArgs E))) w1 r Hun).
Qed.

Lemma flag_Parse_actual E w :
  actual (flags w) ⊆ actual (flags (flag_Parse E w).1).
Proof.
  set (w1 := set_args (osArgs E) (set_parsed
               {| flags := flags w; heap := heap w; files := files w;
                  trace := trace w ++ [EvFlagParse (osArgs E)] |})).
  change (flag_Parse E w) with (parseLoop (S (length (osArgs E))) w1).
  apply (parseLoop_actual _ w1).
Qed.

Lemma parseLoop_codes (n : nat) w :
  (parseLoop n w).2 = Returns None ∨ (parseLoop n w).2 = Exits 0
  ∨ (parseLoop n w).2 = Exits 2.
Proof.
  revert w. induction n as [|n IH]; intros u; simpl; [by left|].
  unfold bind. destruct (parseOne u) as [u' [[] [[]|]]]; simpl; eauto.
Qed.

Lemma flag_Parse_codes E w :
  (flag_Parse E w).2 = Returns None ∨ (flag_Parse E w).2 = Exits 0
  ∨ (flag_Parse E w).2 = Exits 2.
Proof.
  set (w1 := set_args (osArgs E) (set_parsed
               {| flags := flags w; heap := heap w; files := files w;
                  trace := trace w ++ [EvFlagParse (osArgs E)] |})).
  change (flag_Parse E w) with (parseLoop (S (length (osArgs E))) w1).
  apply parseLoop_codes.
Qed.

(** *** The course of [Parse] *)

Lemma openOrCreate_files E name w :
  openFault E name = None →
  files (Part000.openOrCreate E name w).1 = opened (files w) name.
Proof.
  intros Hopen. unfold Part000.openOrCreate, opened. unfold_M. simpl.
  rewrite Hopen. simpl. by destruct (files w !! name).
Qed.

Lemma rewriteFile_files E cPath cf (data : string) w :
  files (Part000.rewriteFile E cPath cf data w).1
  = rewrittenFiles E cf data (files w).
Proof.
  unfold Part000.rewriteFile, Part000.Seek, Part000.Truncate,
    Part000.WriteTo, rewrittenFiles. unfold_M. simpl.
  destruct (bool_decide _ || _); simpl; [done|].
  destruct (truncateFault E); simpl; [done|].
  destruct (writeFault E) as [[n e]|]; simpl; by rewrite insert_insert_eq.
Qed.

Lemma rewriteFile_works E cPath cf (data : string) w :
  rewriteWorks E →
  (Part000.rewriteFile E cPath cf data w).2 = None
  ∧ rewrittenFiles E cf data (files w) = <[cf:=data]> (files w).
Proof.
  intros (Hs & Ht & Hw).
  unfold Part000.rewriteFile, Part000.Seek, Part000.Truncate,
    Part000.WriteTo, rewrittenFiles. unfold_M. simpl.
  rewrite Hs, Ht, Hw. simpl. done.
Qed.

Lemma rewrite_works_or_fails E : rewriteWorks E ∨ rewriteFails E.
Proof.
  unfold rewriteWorks, rewriteFails.
  destruct (seekResult E) as [ofs [e|]]; simpl; [right; left; eauto|].
  destruct (decide (ofs = 0)) as [->|Hne]; [|right; right; left; done].
  destruct (truncateFault E) as [e|]; [right; right; right; left; eauto|].
  destruct (writeFault E) as [ne|]; [right; right; right; right; eauto|].
  by left.
Qed.

Lemma Part000_newConf_nonempty E w appName (obs : gmap string string) :
  saveConfig E w (Part000.configHeader appName) obs ≠ EmptyString.
Proof.
  rewrite saveConfig_eq. unfold Part000.configHeader.
  rewrite !sapp_cons. done.
Qed.

(** A call that gets as far as reading the file ends in one of two
    ways.  Either the file did not change or its rewrite worked: then
    the registry and the outcome are those of [flag.Parse] on the
    registry the file left, and the file holds the new bytes.  Or the
    rewrite failed: then the registry is the one the file left, and the
    error of the rewrite is returned. *)
Lemma Part000_Parse_run E appName cPath w :
  parsed (flags w) = false →
  (Part000.getConfigPath E appName w).2 = (cPath, None) →
  openFault E cPath = None →
  let old := default EmptyString (files w !! cPath) in
  let w1 := (parseConfig old w).1 in
  let obs := (parseConfig old w).2 in
  let newConf := saveConfig E w1 (Part000.configHeader appName) obs in
  let r := Part000.Parse E appName w in
  ((old = newConf ∨ rewriteWorks E)
   ∧ sim r.1 (flag_Parse E w1).1
   ∧ r.2 = (flag_Parse E w1).2
   ∧ files r.1 = <[cPath:=newConf]> (files w))
  ∨ (old ≠ newConf ∧ rewriteFails E
     ∧ sim r.1 w1
     ∧ (∃ err, r.2 = Returns (Some err) ∧ isConfigIOError cPath err)
     ∧ files r.1 = rewrittenFiles E cPath newConf (opened (files w) cPath)).
Proof.
  intros Hp Hpath Hopen old w1 obs newConf r. subst r.
  rewrite (Part000_Parse_unfold E appName cPath w Hp Hpath Hopen).
  destruct (getConfigPath_world E appName w) as [Hsp Hfp].
  destruct (openOrCreate_world E cPath
              (Part000.getConfigPath E appName w).1 Hopen)
    as (_ & Hso & Hfo & _).
  pose proof (openOrCreate_files E cPath
                (Part000.getConfigPath E appName w).1 Hopen) as Hfo'.
  set (w0 := (Part000.openOrCreate E cPath
                (Part000.getConfigPath E appName w).1).1) in *.
  assert (Hsim0 : sim w w0) by (eapply sim_trans; eauto).
  rewrite Hfp in Hfo, Hfo'. fold old in Hfo.
  rewrite Part000_Parse_opened_unfold. cbv zeta. rewrite Hfo.
  change (default EmptyString (Some old)) with old.
  destruct (parseConfig_sim old w w0 Hsim0) as (Hs1 & Hobs & Hf1).
  fold w1 in Hs1. fold obs in Hobs. rewrite <- Hobs.
  rewrite <- (saveConfig_sim E w1 _ _ _ Hs1). fold newConf.
  set (w1' := (parseConfig old w0).1) in *.
  set (w2 := if (0 <? size obs)%nat
             then (emit (EvStderr (updateWarning appName cPath)) w1').1
             else w1') in *.
  assert (Hw2 : sim w1 w2 ∧ files w2 = opened (files w) cPath).
  { subst w2. destruct (0 <? size obs)%nat; simpl.
    - split; [apply Hs1|]. by rewrite Hf1.
    - split; [done|]. by rewrite Hf1. }
  destruct Hw2 as (Hs2 & Hf2).
  assert (Hclose : ∀ u : World V * outcome,
    sim (let '(w', out) := u in
         match out with
         | Exits _ => (w', out)
         | Returns _ => ((emit EvClose w').1, out)
         end).1 u.1
    ∧ (let '(w', out) := u in
       match out with
       | Exits _ => (w', out)
       | Returns _ => ((emit EvClose w').1, out)
       end).2 = u.2
    ∧ files (let '(w', out) := u in
             match out with
             | Exits _ => (w', out)
             | Returns _ => ((emit EvClose w').1, out)
             end).1 = files u.1).
  { intros [w' [e|c]]; done. }
  destruct (String.eqb_spec old newConf) as [Heq|Hne].
  - left. split; [by left|].
    destruct (Hclose (flag_Parse E w2)) as (Hc1 & Hc2 & Hc3).
    destruct (flag_Parse_sim E w2 w1 (sim_sym _ _ Hs2)) as [Hps Hpo].
    destruct (flag_Parse_tail E w2) as (cmd & _ & _ & _ & Hff).
    split; [eapply sim_trans; eauto|]. split; [congruence|].
    rewrite Hc3, Hff, Hf2. unfold opened.
    pose proof (Part000_newConf_nonempty E w1 appName obs) as Hne.
    fold newConf in Hne.
    assert (Hex : files w !! cPath = Some newConf).
    { unfold old in Heq. destruct (files w !! cPath) as [c|]; simpl in Heq;
        [by rewrite Heq|by destruct Hne]. }
    rewrite Hex. by rewrite insert_id.
  - pose proof (rewriteFile_files E cPath cPath newConf w2) as Hrf.
    destruct (rewriteFile_trace E cPath cPath newConf w2)
      as (wrEvs & _ & _ & Hs3).
    destruct (rewrite_works_or_fails E) as [Hwk|Hfl].
    + destruct (rewriteFile_works E cPath cPath newConf w2 Hwk) as [He Hfs].
      destruct (Part000.rewriteFile E cPath cPath newConf w2) as [w3 err].
      simpl in He, Hrf, Hs3. subst err.
      left. split; [by right|].
      destruct (Hclose (flag_Parse E w3)) as (Hc1 & Hc2 & Hc3).
      assert (Hs13 : sim w3 w1).
      { apply sim_sym. eapply sim_trans; eauto. }
      destruct (flag_Parse_sim E w3 w1 Hs13) as [Hps Hpo].
      destruct (flag_Parse_tail E w3) as (cmd & _ & _ & _ & Hff).
      split; [eapply sim_trans; eauto|]. split; [congruence|].
      rewrite Hc3, Hff, Hrf, Hfs, Hf2. unfold opened.
      destruct (files w !! cPath); [done|]. by rewrite insert_insert_eq.
    + destruct (rewriteFile_fails E cPath cPath newConf w2 Hfl)
        as (err & He & Hio & _).
      destruct (Part000.rewriteFile E cPath cPath newConf w2) as [w3 err'].
      simpl in He, Hrf, Hs3. subst err'. right. simpl.
      split; [done|]. split; [done|]. split.
      { apply sim_sym. eapply sim_trans; eauto. }
      split; [eauto|]. by rewrite Hrf, Hf2.
Qed.

Lemma Part000_Parse_path_error E appName w (c : string) (e : error) :
  parsed (flags w) = false →
  (Part000.getConfigPath E appName w).2 = (c, Some e) →
  Part000.Parse E appName w
  = ((Part000.getConfigPath E appName w).1, Returns (Some e)).
Proof.
  intros Hp Hpath.
  unfold Part000.Parse, flag_Parsed. unfold bind at 1. unfold gets at 1.
  rewrite Hp. unfold bind at 1.
  destruct (Part000.getConfigPath E appName w) as [wp [c' e']].
  simpl in Hpath. by simplify_eq.
Qed.

Lemma Part000_Parse_open_error E appName cPath w (e : error) :
  parsed (flags w) = false →
  (Part000.getConfigPath E appName w).2 = (cPath, None) →
  openFault E cPath = Some e →
  Part000.Parse E appName w
  = ((emit (EvOpen cPath) (Part000.getConfigPath E appName w).1).1,
     Returns (Some ("unable to open " +:+ appName +:+ " config file "
                    +:+ cPath +:+ " for reading and writing: " +:+ e))).
Proof.
  intros Hp Hpath Hopen.
  unfold Part000.Parse, flag_Parsed. unfold bind at 1. unfold gets at 1.
  rewrite Hp. unfold bind at 1.
  destruct (Part000.getConfigPath E appName w) as [wp [c' e']].
  simpl in Hpath. simplify_eq.
  unfold bind at 1. unfold Part000.openOrCreate. unfold bind at 1.
  by rewrite Hopen.
Qed.

(** A call that does not get as far as reading the file changes
    nothing but the trace. *)
Lemma Part000_Parse_early E appName w :
  parsed (flags w) = true
  ∨ is_Some (Part000.getConfigPath E appName w).2.2
  ∨ is_Some (openFault E (Part000.getConfigPath E appName w).2.1) →
  sim w (Part000.Parse E appName w).1
  ∧ files (Part000.Parse E appName w).1 = files w
  ∧ ∃ err, (Part000.Parse E appName w).2 = Returns (Some err).
Proof.
  intros Hearly. destruct (parsed (flags w)) eqn:Hp.
  { destruct (Parse_parsed E appName w Hp) as [-> _]. simpl.
    split; [done|]. split; [done|]. eauto. }
  destruct Hearly as [?|Hearly]; [done|].
  destruct (getConfigPath_world E appName w) as [Hsp Hfp].
  destruct ((Part000.getConfigPath E appName w).2) as [c [e|]] eqn:Hg.
  { rewrite (Part000_Parse_path_error E appName w c e Hp Hg). simpl. eauto. }
  simpl in Hearly. destruct Hearly as [[? ?]|[e He]]; [done|].
  rewrite (Part000_Parse_open_error E appName c w e Hp Hg He). simpl. eauto.
Qed.

Lemma Part000_Parse_cases E appName w :
  (parsed (flags w) = true
   ∨ is_Some (Part000.getConfigPath E appName w).2.2
   ∨ is_Some (openFault E (Part000.getConfigPath E appName w).2.1))
  ∨ (parsed (flags w) = false
     ∧ (Part000.getConfigPath E appName w).2
       = ((Part000.getConfigPath E appName w).2.1, None)
     ∧ openFault E (Part000.getConfigPath E appName w).2.1 = None).
Proof.
  destruct (parsed (flags w)); [by left; left|].
  destruct (Part000.getConfigPath E appName w) as [wp [cPath [e|]]]; simpl.
  { left. right. left. eauto. }
  destruct (openFault E cPath) as [e|]; [left; right; right; eauto|].
  by right.
Qed.

Lemma opened_other (fs : gmap string string) (cPath p : string) :
  p ≠ cPath → opened fs cPath !! p = fs !! p.
Proof.
  intros Hne. unfold opened. destruct (fs !! cPath); [done|].
  by apply lookup_insert_ne.
Qed.

Lemma rewrittenFiles_other E (cf data p : string) (fs : gmap string string) :
  p ≠ cf → rewrittenFiles E cf data fs !! p = fs !! p.
Proof.
  intros Hne. unfold rewrittenFiles.
  destruct (_ || _); [done|]. destruct (truncateFault E); [done|].
  destruct (writeFault E) as [[n e]|]; by apply lookup_insert_ne.
Qed.

Lemma rewrite_works_not_fails E : rewriteWorks E → rewriteFails E → False.
Proof.
  intros (Hs & Ht & Hw). unfold rewriteFails. rewrite Hs, Ht, Hw. simpl.
  intros [[? ?]|[?|[[? ?]|[? ?]]]]; done.
Qed.

Lemma unregistered_formal w w' (r : ref) :
  formal (flags w') = formal (flags w) → unregistered w r → unregistered w' r.
Proof.
  intros Hf Hun name fl. rewrite (lookupFlag_formal _ _ name Hf). apply Hun.
Qed.

Lemma parseConfig_frame (input : string) w (r : ref) :
  unregistered w r → heap (parseConfig input w).1 r = heap w r.
Proof.
  intros Hun. apply parseConfig_loop_heap_frame.
  intros t k v fl _ _. apply Hun.
Qed.

Lemma Part000_Parse_other_files E appName w (p : string) :
  p ≠ (Part000.getConfigPath E appName w).2.1 →
  files (Part000.Parse E appName w).1 !! p = files w !! p.
Proof.
  intros Hne.
  destruct (Part000_Parse_cases E appName w) as [Hearly|(Hp & Hpath & Hopen)].
  { destruct (Part000_Parse_early E appName w Hearly) as (_ & -> & _). done. }
  destruct (Part000_Parse_run E appName _ w Hp Hpath Hopen)
    as [(_ & _ & _ & ->)|(_ & _ & _ & _ & ->)].
  - by apply lookup_insert_ne.
  - rewrite rewrittenFiles_other by done. by apply opened_other.
Qed.

Lemma Part000_Parse_heap_frame E appName w (r : ref) :
  unregistered w r → heap (Part000.Parse E appName w).1 r = heap w r.
Proof.
  intros Hun.
  destruct (Part000_Parse_cases E appName w) as [Hearly|(Hp & Hpath & Hopen)].
  { destruct (Part000_Parse_early E appName w Hearly) as ([_ <-] & _). done. }
  set (old := default EmptyString
                (files w !! (Part000.getConfigPath E appName w).2.1)).
  pose proof (parseConfig_frame old w r Hun) as Hfile.
  pose proof (parseConfig_formal old w) as Hformal.
  destruct (Part000_Parse_run E appName _ w Hp Hpath Hopen)
    as [(_ & [_ ->] & _)|(_ & _ & [_ ->] & _)]; fold old; [|done].
  rewrite flag_Parse_frame; [done|].
  by apply (unregistered_formal w).
Qed.

(** X1.  Unless [Parse] returns an error, the file holds in the end what
    [saveConfig] renders from the registry that reading the file left:
    the values the command line sets are not written to the file. *)
Theorem Parse_writes_the_values_of_the_file E appName cPath w :
  parsed (flags w) = false →
  (Part000.getConfigPath E appName w).2 = (cPath, None) →
  openFault E cPath = None →
  (∀ err, (Part000.Parse E appName w).2 ≠ Returns (Some err)) →
  let old := default EmptyString (files w !! cPath) in
  let w1 := (parseConfig old w).1 in
  let obs := (parseConfig old w).2 in
  files (Part000.Parse E appName w).1
  = <[cPath:=saveConfig E w1 (Part000.configHeader appName) obs]> (files w).
Proof.
  intros Hp Hpath Hopen Hok old w1 obs.
  destruct (Part000_Parse_run E appName cPath w Hp Hpath Hopen)
    as [(_ & _ & _ & ->)|(_ & _ & _ & (err & He & _) & _)]; [done|].
  by destruct (Hok err).
Qed.

(** X2.  When there is no file and nothing fails, [Parse] creates it: it
    holds the header and the blocks of the flags with the values they
    have, which no line has changed. *)
Theorem Parse_creates_missing_file E appName cPath w :
  parsed (flags w) = false →
  (Part000.getConfigPath E appName w).2 = (cPath, None) →
  openFault E cPath = None →
  files w !! cPath = None →
  rewriteWorks E →
  files (Part000.Parse E appName w).1
  = <[cPath:=generatedFile E (Part000.configHeader appName) w]> (files w)
  ∧ sim (Part000.Parse E appName w).1 (flag_Parse E w).1
  ∧ (Part000.Parse E appName w).2 = (flag_Parse E w).2.
Proof.
  intros Hp Hpath Hopen Hmiss Hwk.
  pose proof (Part000_Parse_run E appName cPath w Hp Hpath Hopen) as Hrun.
  cbv zeta in Hrun. rewrite Hmiss in Hrun.
  change (parseConfig (default EmptyString None) w) with (w, ∅ : gmap string string)
    in Hrun.
  simpl in Hrun.
  destruct Hrun as [(_ & Hs & Ho & Hf)|(_ & Hfl & _)]; [done|].
  destruct (rewrite_works_not_fails E Hwk Hfl).
Qed.

(** X3.  When the path cannot be resolved or the file cannot be opened,
    [Parse] returns the error and has changed nothing: no file, no value
    and no flag; the command line is not parsed. *)
Theorem Parse_fails_before_the_file E appName cPath w
    (perr : option error) :
  parsed (flags w) = false →
  (Part000.getConfigPath E appName w).2 = (cPath, perr) →
  is_Some perr ∨ is_Some (openFault E cPath) →
  let r := Part000.Parse E appName w in
  (∃ err, r.2 = Returns (Some err)
     ∧ (perr = Some err
        ∨ perr = None
          ∧ ∃ e, openFault E cPath = Some e
                 ∧ err = "unable to open " +:+ appName +:+ " config file "
                         +:+ cPath +:+ " for reading and writing: " +:+ e))
  ∧ flags r.1 = flags w ∧ heap r.1 = heap w ∧ files r.1 = files w
  ∧ ∃ evs, trace r.1 = trace w ++ evs
           ∧ Forall (λ ev, isPathEvent ev ∨ ev = EvOpen cPath) evs.
Proof.
  intros Hp Hpath Hfail r. subst r.
  destruct (getConfigPath_world E appName w) as [[Hfl Hh] Hfp].
  destruct (getConfigPath_trace E appName w) as (pathEvs & Htp & Hpe).
  destruct perr as [e|].
  - rewrite (Part000_Parse_path_error E appName w cPath e Hp Hpath). simpl.
    split; [eauto|]. do 3 (split; [done|]). exists pathEvs.
    split; [done|]. eapply Forall_impl; [exact Hpe|]. by left.
  - destruct Hfail as [[? ?]|[e He]]; [done|].
    rewrite (Part000_Parse_open_error E appName cPath w e Hp Hpath He). simpl.
    split.
    { eexists. split; [reflexivity|]. right. split; [done|]. by exists e. }
    do 3 (split; [done|]). exists (pathEvs ++ [EvOpen cPath]).
    rewrite Htp, <- (assoc_L (++)). split; [done|].
    apply Forall_app. split.
    + eapply Forall_impl; [exact Hpe|]. by left.
    + apply Forall_singleton. by right.
Qed.

(** X4.  What a failed rewrite leaves of the file: its old bytes when
    the seek or the truncation fails, and only the bytes written before
    the failure when the write fails: then the old contents are lost. *)
Theorem Parse_failed_rewrite_leaves E appName cPath w :
  parsed (flags w) = false →
  (Part000.getConfigPath E appName w).2 = (cPath, None) →
  openFault E cPath = None →
  let old := default EmptyString (files w !! cPath) in
  let w1 := (parseConfig old w).1 in
  let obs := (parseConfig old w).2 in
  let newConf := saveConfig E w1 (Part000.configHeader appName) obs in
  old ≠ newConf →
  (is_Some (seekResult E).2 ∨ (seekResult E).1 ≠ 0
   ∨ is_Some (truncateFault E) →
   files (Part000.Parse E appName w).1 !! cPath = Some old)
  ∧ (∀ n e, seekResult E = (0, None) → truncateFault E = None →
       writeFault E = Some (n, e) →
       files (Part000.Parse E appName w).1 !! cPath
       = Some (String.substring 0 n newConf)).
Proof.
  intros Hp Hpath Hopen old w1 obs newConf Hne.
  assert (Hold : opened (files w) cPath !! cPath = Some old).
  { unfold opened, old. destruct (files w !! cPath) as [c|] eqn:Hc; [done|].
    by rewrite lookup_insert_eq. }
  destruct (Part000_Parse_run E appName cPath w Hp Hpath Hopen)
    as [([Heq|Hwk] & _)|(_ & _ & _ & _ & Hf)]; [done| |].
  - destruct Hwk as (Hs & Ht & Hw). split.
    + rewrite Hs, Ht. simpl. intros [[? ?]|[?|[? ?]]]; done.
    + intros n e _ _ Hw'. congruence.
  - fold old w1 obs newConf in Hf. rewrite Hf. unfold rewrittenFiles. split.
    + intros Hfail.
      destruct (bool_decide _ || _) eqn:Hsk; [done|].
      apply orb_false_iff in Hsk as [Hs1 Hs2].
      apply bool_decide_eq_false in Hs1. apply negb_false_iff in Hs2.
      apply Z.eqb_eq in Hs2.
      destruct Hfail as [?|[?|[e He]]]; [done..|]. by rewrite He.
    + intros n e Hs Ht Hw. rewrite Hs, Ht, Hw. simpl.
      by rewrite lookup_insert_eq.
Qed.

(** X5.  Once the file is open a call ends in one of two ways.  Either
    the flags are parsed and [Parse] returns no error or the process
    exits with status 0 or 2: the command line never makes [Parse]
    return an error.  Or the rewrite of the file failed: then its error
    is returned and the flags are not parsed. *)
Theorem Parse_returns_or_exits E appName cPath w :
  parsed (flags w) = false →
  (Part000.getConfigPath E appName w).2 = (cPath, None) →
  openFault E cPath = None →
  let r := Part000.Parse E appName w in
  ((r.2 = Returns None ∨ r.2 = Exits 0 ∨ r.2 = Exits 2)
   ∧ parsed (flags r.1) = true)
  ∨ ((∃ err, r.2 = Returns (Some err) ∧ isConfigIOError cPath err)
     ∧ parsed (flags r.1) = false ∧ rewriteFails E).
Proof.
  intros Hp Hpath Hopen r. subst r.
  destruct (Part000_Parse_run E appName cPath w Hp Hpath Hopen)
    as [(_ & [Hs _] & Ho & _)|(_ & Hfl & [Hs _] & He & _)].
  - left. rewrite Ho, Hs. split; [apply flag_Parse_codes|].
    apply flag_Parse_parsed.
  - right. split; [done|]. split; [|done]. rewrite Hs.
    destruct (registry_only_parseConfig
                (default EmptyString (files w !! cPath)) w)
      as (evs & _ & _ & _ & _ & _ & Hpa & _).
    by rewrite Hpa.
Qed.

(** *** The deferred close *)

Lemma not_close_classes (e : Event) :
  isValueSet e ∨ isWarning e ∨ isWriteEvent e ∨ isFlagEvent e
  ∨ isPathEvent e ∨ (∃ a, e = EvFlagParse a) ∨ (∃ p, e = EvOpen p) →
  e ≠ EvClose.
Proof.
  intros He ->. simpl in He.
  destruct He as [?|[?|[?|[?|[?|[[? ?]|[? ?]]]]]]]; done.
Qed.

Lemma Part000_Parse_opened_trace E appName cPath w0 :
  ∃ evs, trace (Part000.Parse_opened E appName cPath cPath w0).1
         = trace w0 ++ evs
         ∧ Forall (λ e, e ≠ EvClose) evs.
Proof.
  rewrite Part000_Parse_opened_unfold. cbv zeta.
  set (old := default EmptyString (files w0 !! cPath)).
  destruct (registry_only_parseConfig old w0)
    as (setEvs & _ & Ht1 & _ & Hse & _).
  set (w1 := (parseConfig old w0).1) in *.
  set (obs := (parseConfig old w0).2) in *.
  set (warn := if (0 <? size obs)%nat
               then [EvStderr (updateWarning appName cPath)] else []).
  set (w2 := if (0 <? size obs)%nat
             then (emit (EvStderr (updateWarning appName cPath)) w1).1
             else w1).
  assert (Ht2 : trace w2 = trace w0 ++ setEvs ++ warn).
  { subst w2 warn. destruct (0 <? size obs)%nat; simpl; rewrite Ht1.
    - by rewrite <- (assoc_L (++)).
    - by rewrite app_nil_r. }
  assert (Hc12 : Forall (λ e, e ≠ EvClose) (setEvs ++ warn)).
  { apply Forall_app. split.
    - eapply Forall_impl; [exact Hse|]. intros e He.
      apply not_close_classes. tauto.
    - subst warn. destruct (0 <? size obs)%nat; by repeat constructor. }
  assert (Hflag : ∀ u evs, trace u = trace w0 ++ evs →
            Forall (λ e, e ≠ EvClose) evs →
            ∃ evs', trace (flag_Parse E u).1 = trace w0 ++ evs'
                    ∧ Forall (λ e, e ≠ EvClose) evs').
  { intros u evs Hu Hevs.
    destruct (flag_Parse_tail E u) as (cmd & Htf & Hce & _).
    exists (evs ++ EvFlagParse (osArgs E) :: cmd).
    rewrite Htf, Hu, <- (assoc_L (++)). split; [done|].
    apply Forall_app. split; [done|]. constructor; [done|].
    eapply Forall_impl; [exact Hce|]. intros e He.
    apply not_close_classes. tauto. }
  destruct (String.eqb old _).
  - by apply (Hflag w2 (setEvs ++ warn)).
  - match goal with |- context [Part000.rewriteFile E cPath cPath ?d w2] =>
      destruct (rewriteFile_trace E cPath cPath d w2)
        as (wrEvs & Ht3 & Hwe & _);
      destruct (Part000.rewriteFile E cPath cPath d w2) as [w3 err] end.
    simpl in Ht3.
    assert (Hc3 : Forall (λ e, e ≠ EvClose) ((setEvs ++ warn) ++ wrEvs)).
    { apply Forall_app. split; [done|].
      eapply Forall_impl; [exact Hwe|]. intros e He.
      apply not_close_classes. tauto. }
    assert (Ht3' : trace w3 = trace w0 ++ (setEvs ++ warn) ++ wrEvs).
    { by rewrite Ht3, Ht2, <- !(assoc_L (++)). }
    destruct err as [err|]; [by eexists|].
    by apply (Hflag w3 ((setEvs ++ warn) ++ wrEvs)).
Qed.

(** X6.  The file that [Parse] has opened is closed on every path on
    which [Parse] returns, with or without an error, as the last thing
    that happens, and once.  When the process exits inside
    [flag.Parse], the deferred close does not run. *)
Theorem Parse_closes_the_file E appName cPath w :
  parsed (flags w) = false →
  (Part000.getConfigPath E appName w).2 = (cPath, None) →
  openFault E cPath = None →
  let r := Part000.Parse E appName w in
  ∃ evs, trace r.1 = trace w ++ evs
    ∧ EvOpen cPath ∈ evs
    ∧ match r.2 with
      | Returns _ => ∃ evs', evs = evs' ++ [EvClose] ∧ EvClose ∉ evs'
      | Exits _ => EvClose ∉ evs
      end.
Proof.
  intros Hp Hpath Hopen r. subst r.
  rewrite (Part000_Parse_unfold E appName cPath w Hp Hpath Hopen).
  destruct (getConfigPath_trace E appName w) as (pathEvs & Htp & Hpe).
  pose proof (openOrCreate_trace E cPath
                (Part000.getConfigPath E appName w).1) as Hto.
  set (w0 := (Part000.openOrCreate E cPath
                (Part000.getConfigPath E appName w).1).1) in *.
  rewrite Htp in Hto.
  destruct (Part000_Parse_opened_trace E appName cPath w0)
    as (evs & Ht & Hnc).
  assert (Hpre : Forall (λ e, e ≠ EvClose)
                   ((pathEvs ++ [EvOpen cPath]) ++ evs)).
  { repeat apply Forall_app_2; [|by repeat constructor|done].
    eapply Forall_impl; [exact Hpe|]. intros e He.
    apply not_close_classes. tauto. }
  assert (Hin : EvOpen cPath ∈ (pathEvs ++ [EvOpen cPath]) ++ evs).
  { apply elem_of_app. left. apply elem_of_app. right. by left. }
  assert (Hno : EvClose ∉ (pathEvs ++ [EvOpen cPath]) ++ evs).
  { intros Hc. rewrite Forall_forall in Hpre. by apply (Hpre _ Hc). }
  destruct (Part000.Parse_opened E appName cPath cPath w0) as [w' out].
  simpl in Ht. rewrite Hto in Ht.
  destruct out as [e|c]; simpl.
  - exists (((pathEvs ++ [EvOpen cPath]) ++ evs) ++ [EvClose]).
    rewrite Ht, <- !(assoc_L (++)). split; [done|]. split.
    { rewrite !(assoc_L (++)). apply elem_of_app. by left. }
    exists ((pathEvs ++ [EvOpen cPath]) ++ evs).
    rewrite <- !(assoc_L (++)). split; [done|].
    by rewrite <- !(assoc_L (++)) in Hno.
  - exists ((pathEvs ++ [EvOpen cPath]) ++ evs).
    rewrite Ht, <- !(assoc_L (++)). split; [done|].
    by rewrite <- !(assoc_L (++)) in Hin, Hno.
Qed.

(** *** A command line without flags *)

Lemma flag_Parse_noFlagArgs E w :
  noFlagArgs (osArgs E) = true →
  (flag_Parse E w).2 = Returns None
  ∧ heap (flag_Parse E w).1 = heap w
  ∧ args (flags (flag_Parse E w).1) = osArgs E
  ∧ actual (flags (flag_Parse E w).1) = actual (flags w).
Proof.
  intros Hno. unfold flag_Parse, parseLoop, parseOne. unfold_M. simpl.
  destruct (osArgs E) as [|s rest]; simpl in *; [done|].
  by rewrite Hno.
Qed.

(** X7.  When the command line begins with no flag and the file phase
    does not fail, [Parse] returns without an error, every value is the
    one that reading the file left, no flag is marked as set beyond
    those the file set, and all arguments are left as positional
    arguments. *)
Theorem Parse_without_flag_arguments E appName cPath w :
  parsed (flags w) = false →
  (Part000.getConfigPath E appName w).2 = (cPath, None) →
  openFault E cPath = None →
  rewriteWorks E →
  noFlagArgs (osArgs E) = true →
  let old := default EmptyString (files w !! cPath) in
  let w1 := (parseConfig old w).1 in
  let r := Part000.Parse E appName w in
  r.2 = Returns None
  ∧ heap r.1 = heap w1
  ∧ actual (flags r.1) = actual (flags w1)
  ∧ args (flags r.1) = osArgs E.
Proof.
  intros Hp Hpath Hopen Hwk Hno old w1 r. subst r.
  destruct (flag_Parse_noFlagArgs E w1 Hno) as (Ho & Hh & Ha & Hact).
  destruct (Part000_Parse_run E appName cPath w Hp Hpath Hopen)
    as [(_ & [Hfl Hhp] & Hout & _)|(_ & Hfl & _)].
  - fold old w1 in Hfl, Hhp, Hout. rewrite Hout, Hhp, Hfl. done.
  - destruct (rewrite_works_not_fails E Hwk Hfl).
Qed.

(** *** The flags that count as set *)

Lemma flag_Set_actual (k v : string) w :
  actual (flags w) ⊆ actual (flags (flag_Set k v w).1)
  ∧ ((flag_Set k v w).2 = None → k ∈ actual (flags (flag_Set k v w).1)).
Proof.
  unfold flag_Set, Value_Set. unfold_M. simpl.
  destruct (lookupFlag (flags w) k) as [fl|]; simpl; [|done].
  destruct (vSet (heap w (Value fl)) v) as [x [e|]]; simpl; [done|].
  split; [set_solver|]. intros _. set_solver.
Qed.

Lemma parseConfig_loop_actual (lines : list string)
    (obs : gmap string string) w :
  actual (flags w) ⊆ actual (flags (parseConfig_loop obs lines w).1).
Proof.
  revert obs w. induction lines as [|t lines IH]; intros obs w; [done|].
  simpl. unfold bind. rewrite parseConfig_line_eq.
  destruct (spec_parseLine t) as [[k v]|]; [|apply IH].
  destruct (flag_Set_actual k v w) as [Hsub _].
  destruct (flag_Set k v w) as [w' err]. simpl in Hsub.
  etrans; [exact Hsub|apply IH].
Qed.

(** X8.  A flag that a line of the file sets without an error counts as
    set afterwards, as one that the command line sets does:
    [flag.Visit] visits it. *)
Theorem Parse_marks_flags_of_the_file E appName cPath w
    (lines1 lines2 : list string) (text k v : string) :
  parsed (flags w) = false →
  (Part000.getConfigPath E appName w).2 = (cPath, None) →
  openFault E cPath = None →
  Bufio.ScanLines (default EmptyString (files w !! cPath))
  = lines1 ++ text :: lines2 →
  appliedAt w lines1 text k v →
  k ∈ actual (flags (Part000.Parse E appName w).1).
Proof.
  intros Hp Hpath Hopen Hlines [Hspec Hok].
  set (old := default EmptyString (files w !! cPath)) in *.
  assert (Hk : k ∈ actual (flags (parseConfig old w).1)).
  { unfold parseConfig. rewrite Hlines, parseConfig_loop_app.
    set (wa := (parseConfig_loop ∅ lines1 w).1) in *.
    set (oa := (parseConfig_loop ∅ lines1 w).2).
    simpl. unfold bind. rewrite parseConfig_line_eq, Hspec.
    destruct (flag_Set_actual k v wa) as [_ Hin].
    destruct (flag_Set k v wa) as [w' err]. simpl in Hok, Hin. subst err.
    apply (parseConfig_loop_actual lines2 oa w'). by apply Hin. }
  destruct (Part000_Parse_run E appName cPath w Hp Hpath Hopen)
    as [(_ & [-> _] & _)|(_ & _ & [-> _] & _)]; fold old; [|done].
  by apply flag_Parse_actual.
Qed.

(** *** The course of [Parse] in [confy.go] *)

Lemma ConfyGo_newConf_nonempty E w appName (obs : gmap string string) :
  saveConfig E w (ConfyGo.configHeader appName) obs ≠ EmptyString.
Proof.
  rewrite saveConfig_eq. unfold ConfyGo.configHeader.
  rewrite !sapp_cons. done.
Qed.

Lemma WriteFile_files E name (data : string) w :
  files (ConfyGo.WriteFile E name data w).1
  = match openFault E name with
    | Some _ => files w
    | None =>
        match writeFault E with
        | Some (n, _) => <[name:=String.substring 0 n data]> (files w)
        | None => <[name:=data]> (files w)
        end
    end
  ∧ (ConfyGo.WriteFile E name data w).2
    = match openFault E name with
      | Some e => Some e
      | None => snd <$> writeFault E
      end.
Proof.
  unfold ConfyGo.WriteFile. unfold_M. simpl.
  destruct (openFault E name); [done|].
  destruct (writeFault E) as [[n e]|]; done.
Qed.

Lemma ConfyGo_Parse_run E appName cPath w :
  parsed (flags w) = false →
  (ConfyGo.getConfigFilePath E appName w).2 = (cPath, None) →
  readFault E cPath = None →
  let old := default EmptyString (files w !! cPath) in
  let w1 := (parseConfig old w).1 in
  let obs := (parseConfig old w).2 in
  let newConf := saveConfig E w1 (ConfyGo.configHeader appName) obs in
  let r := ConfyGo.Parse E appName w in
  ((old = newConf ∨ openFault E cPath = None ∧ writeFault E = None)
   ∧ sim r.1 (flag_Parse E w1).1
   ∧ r.2 = (flag_Parse E w1).2
   ∧ files r.1 = <[cPath:=newConf]> (files w))
  ∨ (old ≠ newConf
     ∧ (is_Some (openFault E cPath) ∨ is_Some (writeFault E))
     ∧ sim r.1 w1
     ∧ (∃ e, r.2 = Returns (Some ("failed to write " +:+ cPath +:+ ": "
                                   +:+ e)))
     ∧ files r.1
       = match openFault E cPath, writeFault E with
         | None, Some (n, _) =>
             <[cPath:=String.substring 0 n newConf]> (files w)
         | _, _ => files w
         end).
Proof.
  intros Hp Hpath Hread old w1 obs newConf r. subst r.
  rewrite (ConfyGo_Parse_unfold E appName cPath w Hp Hpath Hread).
  cbv zeta. fold old.
  destruct (getConfigFilePath_world E appName w) as [Hsp Hfp].
  set (w0 := (emit (EvReadFile cPath)
                (ConfyGo.getConfigFilePath E appName w).1).1).
  assert (Hsim0 : sim w w0) by apply Hsp.
  assert (Hf0 : files w0 = files w) by apply Hfp.
  rewrite ConfyGo_Parse_read_unfold. cbv zeta.
  destruct (parseConfig_sim old w w0 Hsim0) as (Hs1 & Hobs & Hf1).
  fold w1 in Hs1. fold obs in Hobs. rewrite <- Hobs.
  rewrite <- (saveConfig_sim E w1 _ _ _ Hs1). fold newConf.
  set (w1' := (parseConfig old w0).1) in *.
  set (w2 := if (0 <? size obs)%nat
             then (emit (EvLog (updateWarning appName cPath)) w1').1
             else w1') in *.
  assert (Hw2 : sim w1 w2 ∧ files w2 = files w).
  { subst w2. destruct (0 <? size obs)%nat; simpl.
    - split; [apply Hs1|]. by rewrite Hf1.
    - split; [done|]. by rewrite Hf1. }
  destruct Hw2 as (Hs2 & Hf2).
  destruct (String.eqb_spec old newConf) as [Heq|Hne].
  - left. split; [by left|].
    destruct (flag_Parse_sim E w2 w1 (sim_sym _ _ Hs2)) as [Hps Hpo].
    destruct (flag_Parse_tail E w2) as (cmd & _ & _ & _ & Hff).
    split; [done|]. split; [done|]. rewrite Hff, Hf2.
    pose proof (ConfyGo_newConf_nonempty E w1 appName obs) as Hne.
    fold newConf in Hne.
    assert (Hex : files w !! cPath = Some newConf).
    { unfold old in Heq. destruct (files w !! cPath) as [c|]; simpl in Heq;
        [by rewrite Heq|by destruct Hne]. }
    by rewrite insert_id.
  - destruct (WriteFile_files E cPath newConf w2) as [Hwf Hwe].
    destruct (WriteFile_trace E cPath newConf w2) as (_ & Hs3).
    destruct (ConfyGo.WriteFile E cPath newConf w2) as [w3 err].
    simpl in Hwf, Hwe, Hs3.
    assert (Hs13 : sim w3 w1).
    { apply sim_sym. eapply sim_trans; eauto. }
    destruct (openFault E cPath) as [e|] eqn:Ho.
    { subst err. right. simpl. split; [done|]. split; [left; eauto|].
      split; [done|]. split; [eauto|]. by rewrite Hwf, Hf2. }
    destruct (writeFault E) as [[n e]|] eqn:Hw; simpl in Hwe; subst err.
    { right. simpl. split; [done|]. split; [right; eauto|].
      split; [done|]. split; [eauto|]. by rewrite Hwf, Hf2. }
    left. split; [by right|].
    destruct (flag_Parse_sim E w3 w1 Hs13) as [Hps Hpo].
    destruct (flag_Parse_tail E w3) as (cmd & _ & _ & _ & Hff).
    split; [done|]. split; [done|]. by rewrite Hff, Hwf, Hf2.
Qed.

Lemma ConfyGo_Parse_read_error E appName cPath w (e : error) :
  parsed (flags w) = false →
  (ConfyGo.getConfigFilePath E appName w).2 = (cPath, None) →
  readFault E cPath = Some e →
  ConfyGo.Parse E appName w
  = ((emit (EvReadFile cPath) (ConfyGo.getConfigFilePath E appName w).1).1,
     Returns (Some ("unable to read " +:+ appName +:+ " config file "
                    +:+ cPath +:+ ": " +:+ e))).
Proof.
  intros Hp Hpath Hread.
  unfold ConfyGo.Parse, flag_Parsed. unfold bind at 1. unfold gets at 1.
  rewrite Hp. unfold bind at 1.
  destruct (ConfyGo.getConfigFilePath E appName w) as [wp [c' e']].
  simpl in Hpath. simplify_eq.
  unfold bind at 1. unfold ConfyGo.ReadFile. unfold bind at 1.
  by rewrite Hread.
Qed.

(** X9.  How [Parse] of [confy.go] takes the result of reading the file.
    An error of the read that is not "the file does not exist" makes it
    return an error, with nothing changed.  A file that does not exist
    is read as an empty one: when the write works, [Parse] creates it
    with the header and the blocks of the flags with the values they
    have, and goes on to the command line. *)
Theorem ConfyGo_Parse_reads E appName cPath w :
  parsed (flags w) = false →
  (ConfyGo.getConfigFilePath E appName w).2 = (cPath, None) →
  let r := ConfyGo.Parse E appName w in
  (∀ e, readFault E cPath = Some e →
     r.2 = Returns (Some ("unable to read " +:+ appName +:+ " config file "
                          +:+ cPath +:+ ": " +:+ e))
     ∧ flags r.1 = flags w ∧ heap r.1 = heap w ∧ files r.1 = files w)
  ∧ (readFault E cPath = None → files w !! cPath = None →
     openFault E cPath = None → writeFault E = None →
     files r.1
     = <[cPath:=generatedFile E (ConfyGo.configHeader appName) w]> (files w)
     ∧ sim r.1 (flag_Parse E w).1
     ∧ r.2 = (flag_Parse E w).2).
Proof.
  intros Hp Hpath r. subst r. split.
  - intros e Hread.
    rewrite (ConfyGo_Parse_read_error E appName cPath w e Hp Hpath Hread).
    destruct (getConfigFilePath_world E appName w) as [[Hfl Hh] Hfp].
    simpl. done.
  - intros Hread Hmiss Hopen Hwrite.
    pose proof (ConfyGo_Parse_run E appName cPath w Hp Hpath Hread) as Hrun.
    cbv zeta in Hrun. rewrite Hmiss in Hrun.
    change (parseConfig (default EmptyString None) w)
      with (w, ∅ : gmap string string) in Hrun.
    simpl in Hrun.
    destruct Hrun as [(_ & Hs & Ho & Hf)|(_ & Hfl & _)]; [done|].
    rewrite Hopen, Hwrite in Hfl. by destruct Hfl as [[? ?]|[? ?]].
Qed.

(** X10.  The two revisions agree.  When both resolve the same path and
    no file operation fails, they leave the same flag set and the same
    values and end in the same way, and the files they leave differ in
    the header only. *)
Theorem revisions_agree E appName cPath w :
  parsed (flags w) = false →
  (Part000.getConfigPath E appName w).2 = (cPath, None) →
  (ConfyGo.getConfigFilePath E appName w).2 = (cPath, None) →
  openFault E cPath = None →
  readFault E cPath = None →
  rewriteWorks E →
  let r1 := Part000.Parse E appName w in
  let r2 := ConfyGo.Parse E appName w in
  flags r1.1 = flags r2.1
  ∧ heap r1.1 = heap r2.1
  ∧ r1.2 = r2.2
  ∧ ∃ body,
      files r1.1 = <[cPath:=Part000.configHeader appName +:+ body]> (files w)
      ∧ files r2.1
        = <[cPath:=ConfyGo.configHeader appName +:+ body]> (files w).
Proof.
  intros Hp Hpath1 Hpath2 Hopen Hread Hwk r1 r2. subst r1 r2.
  destruct (Part000_Parse_run E appName cPath w Hp Hpath1 Hopen)
    as [(_ & [Hf1 Hh1] & Ho1 & Hfs1)|(_ & Hfl & _)];
    [|destruct (rewrite_works_not_fails E Hwk Hfl)].
  destruct (ConfyGo_Parse_run E appName cPath w Hp Hpath2 Hread)
    as [(_ & [Hf2 Hh2] & Ho2 & Hfs2)|(_ & Hfl & _)].
  - split; [congruence|]. split; [congruence|]. split; [congruence|].
    rewrite Hfs1, Hfs2, !saveConfig_eq, !sapp_assoc. eauto.
  - destruct Hwk as (_ & _ & Hw). rewrite Hopen, Hw in Hfl.
    by destruct Hfl as [[? ?]|[? ?]].
Qed.

Lemma ConfyGo_Parse_path_error E appName w (c : string) (e : error) :
  parsed (flags w) = false →
  (ConfyGo.getConfigFilePath E appName w).2 = (c, Some e) →
  ConfyGo.Parse E appName w
  = ((ConfyGo.getConfigFilePath E appName w).1, Returns (Some e)).
Proof.
  intros Hp Hpath.
  unfold ConfyGo.Parse, flag_Parsed. unfold bind at 1. unfold gets at 1.
  rewrite Hp. unfold bind at 1.
  destruct (ConfyGo.getConfigFilePath E appName w) as [wp [c' e']].
  simpl in Hpath. by simplify_eq.
Qed.

Lemma ConfyGo_Parse_early E appName w :
  parsed (flags w) = true
  ∨ is_Some (ConfyGo.getConfigFilePath E appName w).2.2
  ∨ is_Some (readFault E (ConfyGo.getConfigFilePath E appName w).2.1) →
  sim w (ConfyGo.Parse E appName w).1
  ∧ files (ConfyGo.Parse E appName w).1 = files w
  ∧ ∃ err, (ConfyGo.Parse E appName w).2 = Returns (Some err).
Proof.
  intros Hearly. destruct (parsed (flags w)) eqn:Hp.
  { destruct (Parse_parsed E appName w Hp) as [_ ->]. simpl.
    split; [done|]. split; [done|]. eauto. }
  destruct Hearly as [?|Hearly]; [done|].
  destruct (getConfigFilePath_world E appName w) as [Hsp Hfp].
  destruct ((ConfyGo.getConfigFilePath E appName w).2) as [c [e|]] eqn:Hg.
  { rewrite (ConfyGo_Parse_path_error E appName w c e Hp Hg). simpl. eauto. }
  simpl in Hearly. destruct Hearly as [[? ?]|[e He]]; [done|].
  rewrite (ConfyGo_Parse_read_error E appName c w e Hp Hg He). simpl. eauto.
Qed.

Lemma ConfyGo_Parse_cases E appName w :
  (parsed (flags w) = true
   ∨ is_Some (ConfyGo.getConfigFilePath E appName w).2.2
   ∨ is_Some (readFault E (ConfyGo.getConfigFilePath E appName w).2.1))
  ∨ (parsed (flags w) = false
     ∧ (ConfyGo.getConfigFilePath E appName w).2
       = ((ConfyGo.getConfigFilePath E appName w).2.1, None)
     ∧ readFault E (ConfyGo.getConfigFilePath E appName w).2.1 = None).
Proof.
  destruct (parsed (flags w)); [by left; left|].
  destruct (ConfyGo.getConfigFilePath E appName w) as [wp [cPath [e|]]]; simpl.
  { left. right. left. eauto. }
  destruct (readFault E cPath) as [e|]; [left; right; right; eauto|].
  by right.
Qed.

Lemma ConfyGo_Parse_other_files E appName w (p : string) :
  p ≠ (ConfyGo.getConfigFilePath E appName w).2.1 →
  files (ConfyGo.Parse E appName w).1 !! p = files w !! p.
Proof.
  intros Hne.
  destruct (ConfyGo_Parse_cases E appName w) as [Hearly|(Hp & Hpath & Hread)].
  { destruct (ConfyGo_Parse_early E appName w Hearly) as (_ & -> & _). done. }
  destruct (ConfyGo_Parse_run E appName _ w Hp Hpath Hread)
    as [(_ & _ & _ & ->)|(_ & _ & _ & _ & ->)].
  - by apply lookup_insert_ne.
  - destruct (openFault E _); [done|].
    destruct (writeFault E) as [[n e]|]; [|done]. by apply lookup_insert_ne.
Qed.

Lemma ConfyGo_Parse_heap_frame E appName w (r : ref) :
  unregistered w r → heap (ConfyGo.Parse E appName w).1 r = heap w r.
Proof.
  intros Hun.
  destruct (ConfyGo_Parse_cases E appName w) as [Hearly|(Hp & Hpath & Hread)].
  { destruct (ConfyGo_Parse_early E appName w Hearly) as ([_ <-] & _). done. }
  set (old := default EmptyString
                (files w !! (ConfyGo.getConfigFilePath E appName w).2.1)).
  pose proof (parseConfig_frame old w r Hun) as Hfile.
  pose proof (parseConfig_formal old w) as Hformal.
  destruct (ConfyGo_Parse_run E appName _ w Hp Hpath Hread)
    as [(_ & [_ ->] & _)|(_ & _ & [_ ->] & _)]; fold old; [|done].
  rewrite flag_Parse_frame; [done|].
  by apply (unregistered_formal w).
Qed.

(** X11.  [Parse] leaves every file alone but the one whose path it
    resolves, in both revisions and however the call ends. *)
Theorem Parse_leaves_other_files E appName w (p : string) :
  (p ≠ (Part000.getConfigPath E appName w).2.1 →
   files (Part000.Parse E appName w).1 !! p = files w !! p)
  ∧ (p ≠ (ConfyGo.getConfigFilePath E appName w).2.1 →
     files (ConfyGo.Parse E appName w).1 !! p = files w !! p).
Proof.
  split; [apply Part000_Parse_other_files|apply ConfyGo_Parse_other_files].
Qed.

(** X12.  [Parse] changes no variable that no registered flag points to,
    in both revisions and however the call ends: neither a line of the
    file nor an argument of the command line reaches it. *)
Theorem Parse_sets_registered_values_only E appName w (r : ref) :
  unregistered w r →
  heap (Part000.Parse E appName w).1 r = heap w r
  ∧ heap (ConfyGo.Parse E appName w).1 r = heap w r.
Proof.
  intros Hun.
  split; [by apply Part000_Parse_heap_frame|by apply ConfyGo_Parse_heap_frame].
Qed.

Lemma unregistered_VisitAll w (r : ref) :
  Forall (λ f, Value f ≠ r) (VisitAll (flags w)) → unregistered w r.
Proof.
  rewrite Forall_forall. intros Hall name fl Hl. apply Hall.
  apply VisitAll_lookup. unfold lookupFlag in *.
  destruct (formal (flags w) !! name) as [d|] eqn:Hd; [|done].
  simpl in Hl. simplify_eq. simpl. by rewrite Hd.
Qed.

(** X13.  A line and its normal form [key=value] are the same line to
    [parseConfig]: what [saveConfig] writes for a pair that a line
    yielded is read back as that pair. *)
Theorem parseConfig_line_normal_form (obsKeys : gmap string string)
    (text k v : string) w :
  spec_parseLine text = Some (k, v) →
  parseConfig_line obsKeys (k +:+ "=" +:+ v) w
  = parseConfig_line obsKeys text w.
Proof.
  intros Hspec.
  by rewrite !parseConfig_line_eq, (spec_parseLine_render text k v Hspec), Hspec.
Qed.

Lemma spec_parseLine_noSeparator (t k v : string) :
  spec_parseLine t = Some (k, v) → noSeparator k.
Proof.
  unfold spec_parseLine. destruct (_ || _); [done|].
  destruct (cutAtSeparator _) as [[before after]|] eqn:Hcut; [|done].
  intros ?. simplify_eq.
  destruct (cutAtSeparator_Some _ _ _ Hcut) as (c & _ & _ & Hno).
  by apply TrimSpace_noSeparator.
Qed.

(** X14.  No line of a file reaches a flag whose name holds [=] or [:]:
    a variable that only such flags point to keeps its value, whatever
    the file says. *)
Theorem parseConfig_never_sets_names_with_separator (input : string) w
    (r : ref) :
  (∀ name fl, lookupFlag (flags w) name = Some fl → Value fl = r →
     ¬ noSeparator name) →
  heap (parseConfig input w).1 r = heap w r.
Proof.
  intros Hsep. apply parseConfig_loop_heap_frame.
  intros t k v fl _ Hspec Hfl Hr.
  apply (Hsep k fl Hfl Hr). by apply (spec_parseLine_noSeparator t k v).
Qed.

Lemma spec_parseLine_empty : spec_parseLine EmptyString = None.
Proof. reflexivity. Qed.

(** X15.  The line feed after the last line is optional: a file reads the
    same with and without it. *)
Theorem parseConfig_final_newline (input : string) w :
  parseConfig (input +:+ nl) w = parseConfig input w.
Proof.
  unfold parseConfig, Bufio.ScanLines.
  destruct (splitLines_snoc_nl input) as [-> | ->]; [done|].
  rewrite fmap_app, parseConfig_loop_app. simpl. unfold bind.
  change (Bufio.dropCR EmptyString) with EmptyString.
  rewrite parseConfig_line_skip by apply spec_parseLine_empty.
  unfold ret. by destruct (parseConfig_loop _ _ w).
Qed.

Lemma ScanLines_unlinesCRLF (l : list string) :
  Forall (λ a, plainb a = true) l → Bufio.ScanLines (unlinesCRLF l) = l.
Proof.
  intros Hl. unfold Bufio.ScanLines.
  assert (Hsplit : Bufio.splitLines (unlinesCRLF l)
                   = (λ a, a +:+ String "013" EmptyString) <$> l).
  { induction Hl as [|a l Ha Hl IH]; [done|].
    unfold unlinesCRLF. rewrite !fmap_cons. simpl.
    change (a +:+ crlf) with (a +:+ (String "013" EmptyString +:+ nl)).
    rewrite <- sapp_assoc, sapp_assoc.
    rewrite splitLines_line_noLF.
    - f_equal. exact IH.
    - rewrite noLF_app, (plainb_noLF a Ha). done. }
  rewrite Hsplit, <- list_fmap_compose. clear Hsplit Hl.
  induction l as [|a l IH]; [done|]. rewrite fmap_cons. simpl.
  rewrite dropCR_snoc. simpl. by f_equal.
Qed.

(** X16.  A file whose lines end in carriage return and line feed reads
    as the file whose lines end in a line feed. *)
Theorem parseConfig_crlf (l : list string) w :
  Forall (λ a, plainb a = true) l →
  parseConfig (unlinesCRLF l) w = parseConfig (unlines l) w.
Proof.
  intros Hl. unfold parseConfig.
  by rewrite ScanLines_unlinesCRLF, ScanLines_unlines.
Qed.

(** X17.  [parseConfig] reads and sets the registry only: it leaves the
    files, the registered flags, the arguments and the mark of a parsed
    flag set as they are, its only events are calls of [Set], and what
    it does depends on neither the files nor the trace. *)
Theorem parseConfig_touches_the_registry_only (input : string) w :
  let r := parseConfig input w in
  files r.1 = files w
  ∧ formal (flags r.1) = formal (flags w)
  ∧ parsed (flags r.1) = parsed (flags w)
  ∧ args (flags r.1) = args (flags w)
  ∧ actual (flags w) ⊆ actual (flags r.1)
  ∧ (∃ evs, trace r.1 = trace w ++ evs ∧ Forall isValueSet evs
            ∧ heap r.1 = replay evs (heap w))
  ∧ ∀ w2, flags w2 = flags w → heap w2 = heap w →
      flags (parseConfig input w2).1 = flags r.1
      ∧ heap (parseConfig input w2).1 = heap r.1
      ∧ (parseConfig input w2).2 = r.2.
Proof.
  intros r. subst r.
  destruct (registry_only_parseConfig input w)
    as (evs & Hf & Ht & Hh & He & Hfo & Hp & Ha & Hs).
  do 4 (split; [done|]). split; [apply parseConfig_loop_actual|].
  split; [by exists evs|]. intros w2 Hfl2 Hh2.
  destruct (Hs w2) as ([Hfl' Hh'] & Heq & _); [by split|]. done.
Qed.

(** X18.  What [saveConfig] writes, [parseConfig] reads back.  When the
    lines of the header are comment lines and the block of every flag
    that is written reads back (its two lines are lines, the assignment
    yields the name and the rendered value, and the value of the flag
    accepts the rendered value and renders it the same way), reading the
    generated file records no obsolete entry and leaves every registered
    flag, also one that has no block of its own, with the string form
    that was rendered. *)
Theorem saveConfig_parseConfig_round_trip E (hl : list string) w wgen :
  formal (flags wgen) = formal (flags w) →
  commentLines hl →
  (∀ f, f ∈ representatives (VisitAll (flags w)) → readsBack w wgen f) →
  let old := generatedFile E (unlines hl) wgen in
  (parseConfig old w).2 = ∅
  ∧ ∀ f, f ∈ VisitAll (flags w) →
      vString (heap (parseConfig old w).1 (Value f))
      = vString (heap wgen (Value f)).
Proof. apply generated_file_reads_back. Qed.

(** *** The section of the obsolete entries, read back *)

Lemma flag_Set_unknown (k v : string) w :
  lookupFlag (flags w) k = None →
  flag_Set k v w = (w, Some ("no such flag -" +:+ k)).
Proof. intros Hk. unfold flag_Set. unfold_M. by rewrite Hk. Qed.

Lemma parseConfig_loop_skip (l : list string) (obs : gmap string string) w :
  Forall (λ a, spec_parseLine a = None) l →
  parseConfig_loop obs l w = (w, obs).
Proof.
  induction 1 as [|a l Ha Hl IH]; [done|]. simpl. unfold bind.
  by rewrite parseConfig_line_skip.
Qed.

Lemma parseConfig_loop_unknown (L : list (string * string))
    (obs0 : gmap string string) w :
  (∀ kv, kv ∈ L →
     lookupFlag (flags w) kv.1 = None
     ∧ spec_parseLine (kv.1 +:+ "=" +:+ kv.2) = Some kv) →
  parseConfig_loop obs0 ((λ kv, kv.1 +:+ "=" +:+ kv.2) <$> L) w
  = (w, recordAll obs0 L).
Proof.
  revert obs0. induction L as [|[k v] L IH]; intros obs0 HL; [done|].
  destruct (HL (k, v) ltac:(by left)) as [Hk Hspec]. simpl in Hk, Hspec.
  rewrite fmap_cons. simpl. unfold bind.
  rewrite parseConfig_line_eq, Hspec, (flag_Set_unknown k v w Hk).
  rewrite IH; [done|]. intros kv Hkv. apply HL. by right.
Qed.

(** Every entry that [parseConfig] records is the pair of a line
    without a line feed. *)
Lemma parseConfig_loop_entries (lines : list string)
    (obs0 : gmap string string) w (P : string → string → Prop) :
  (∀ k v, obs0 !! k = Some v → P k v) →
  (∀ t k v, t ∈ lines → spec_parseLine t = Some (k, v) → P k v) →
  ∀ k v, (parseConfig_loop obs0 lines w).2 !! k = Some v → P k v.
Proof.
  revert obs0 w. induction lines as [|t lines IH]; intros obs0 w H0 Hl;
    [done|].
  simpl. unfold bind. rewrite parseConfig_line_eq.
  destruct (spec_parseLine t) as [[k' v']|] eqn:Hspec.
  - destruct (flag_Set k' v' w) as [w' [e|]].
    + apply IH.
      * intros k v. destruct (decide (k' = k)) as [->|Hne].
        -- rewrite lookup_insert_eq. intros ?. simplify_eq.
           apply (Hl t); [by left|done].
        -- rewrite lookup_insert_ne by done. apply H0.
      * intros t0 k v Ht0. apply Hl. by right.
    + apply IH; [done|]. intros t0 k v Ht0. apply Hl. by right.
  - apply IH; [done|]. intros t0 k v Ht0. apply Hl. by right.
Qed.

Lemma parseConfig_entries (input : string) w (k v : string) :
  (parseConfig input w).2 !! k = Some v →
  spec_parseLine (k +:+ "=" +:+ v) = Some (k, v)
  ∧ noLF (k +:+ "=" +:+ v) = true
  ∧ Bufio.dropCR (k +:+ "=" +:+ v) = k +:+ "=" +:+ v.
Proof.
  apply (parseConfig_loop_entries (Bufio.ScanLines input) ∅ w
           (λ k v, spec_parseLine (k +:+ "=" +:+ v) = Some (k, v)
                   ∧ noLF (k +:+ "=" +:+ v) = true
                   ∧ Bufio.dropCR (k +:+ "=" +:+ v) = k +:+ "=" +:+ v)).
  - intros k' v' Hk. by rewrite lookup_empty in Hk.
  - intros t k' v' Ht Hspec. split; [by eapply spec_parseLine_render|].
    apply (spec_parseLine_noLF t); [done|].
    pose proof (ScanLines_noLF input) as Hno.
    rewrite Forall_forall in Hno. by apply Hno.
Qed.

Lemma recordAll_union (L : list (string * string)) (m : gmap string string) :
  NoDup L.*1 → recordAll m L = list_to_map L ∪ m.
Proof.
  revert m. induction L as [|[k v] L IH]; intros m Hnd.
  { simpl. by rewrite (left_id_L ∅ (∪)). }
  rewrite fmap_cons in Hnd. apply NoDup_cons in Hnd as [Hk Hnd].
  change (recordAll m ((k, v) :: L)) with (recordAll (<[k:=v]> m) L).
  rewrite IH by done. simpl.
  rewrite <- insert_union_l.
  by rewrite insert_union_r by by apply not_elem_of_list_to_map_1.
Qed.

Lemma ScanLines_unlines_fixed (l : list string) :
  Forall (λ a, noLF a = true ∧ Bufio.dropCR a = a) l →
  Bufio.ScanLines (unlines l) = l.
Proof.
  intros Hl. unfold Bufio.ScanLines.
  rewrite splitLines_unlines_noLF
    by (eapply Forall_impl; [exact Hl|]; by intros a [? _]).
  induction Hl as [|a l [_ Ha] Hl IH]; [done|].
  by rewrite fmap_cons, Ha, IH.
Qed.

Lemma ScanLines_app (body rest : string) :
  body = EmptyString ∨ (∃ b, body = b +:+ nl) →
  Bufio.ScanLines (body +:+ rest)
  = Bufio.ScanLines body ++ Bufio.ScanLines rest.
Proof.
  intros [->|[b ->]]; [by rewrite sapp_nil_l|].
  unfold Bufio.ScanLines. by rewrite splitLines_app_nl, fmap_app.
Qed.

Lemma obsoleteSection_lines E (obs : gmap string string) :
  (0 <? size obs)%nat = true →
  obsoleteSection E obs
  = unlines
      ([EmptyString; EmptyString;
        "# The following options are probably deprecated and not used currently!"]
       ++ ((λ kv, kv.1 +:+ "=" +:+ kv.2) <$> rangeOrder E obs)).
Proof.
  intros Hsz. unfold obsoleteSection. rewrite Hsz, unlines_app.
  f_equal. generalize (rangeOrder E obs). intros L.
  induction L as [|kv L IH]; [done|].
  rewrite !fmap_cons. unfold unlines in *. rewrite fmap_cons. simpl.
  rewrite IH. unfold obsoleteLine. by rewrite !sapp_assoc.
Qed.

(** The section of the obsolete entries, read behind a text. *)
Lemma obsoleteSection_reads_back E (input body : string) w0 w :
  let obs := (parseConfig input w0).2 in
  (∀ k, is_Some (obs !! k) → lookupFlag (flags w) k = None) →
  rangeOrder E obs ≡ₚ map_to_list obs →
  body = EmptyString ∨ (∃ b, body = b +:+ nl) →
  parseConfig (body +:+ obsoleteSection E obs) w
  = ((parseConfig body w).1, obs ∪ (parseConfig body w).2).
Proof.
  intros obs Hunk Hperm Hbody.
  destruct (0 <? size obs)%nat eqn:Hsz.
  2:{ apply Nat.ltb_ge in Hsz.
      assert (Hempty : obs = ∅) by (apply map_size_empty_iff; lia).
      unfold obsoleteSection. rewrite Hempty, map_size_empty. simpl.
      rewrite sapp_nil_r, (left_id_L ∅ (∪)).
      by destruct (parseConfig body w). }
  rewrite (obsoleteSection_lines E obs Hsz).
  set (L := rangeOrder E obs) in *.
  assert (HL : ∀ kv, kv ∈ L → obs !! kv.1 = Some kv.2).
  { intros [k v] Hkv. rewrite Hperm in Hkv.
    by apply elem_of_map_to_list in Hkv. }
  unfold parseConfig at 1. rewrite (ScanLines_app body _ Hbody).
  rewrite ScanLines_unlines_fixed.
  2:{ apply Forall_app. split; [by repeat constructor|].
      apply Forall_fmap, Forall_forall. intros [k v] Hkv.
      apply HL in Hkv. simpl in *.
      by destruct (parseConfig_entries input w0 k v Hkv) as (_ & ? & ?). }
  rewrite parseConfig_loop_app. fold (parseConfig body w).
  pose proof (parseConfig_formal body w) as Hformal.
  destruct (parseConfig body w) as [w' obs']. simpl in Hformal.
  cbn [fst snd].
  rewrite parseConfig_loop_app, (parseConfig_loop_skip [_; _; _]).
  2:{ repeat constructor. }
  cbn [fst snd]. rewrite parseConfig_loop_unknown.
  - f_equal. rewrite recordAll_union.
    + f_equal.
      trans (list_to_map (map_to_list obs) : gmap string string);
        [|apply list_to_map_to_list].
      apply list_to_map_proper; [|done].
      rewrite Hperm. apply NoDup_fst_map_to_list.
    + rewrite Hperm. apply NoDup_fst_map_to_list.
  - intros [k v] Hkv. apply HL in Hkv. simpl in *. split.
    + rewrite (lookupFlag_formal _ _ k Hformal). apply Hunk. eauto.
    + by destruct (parseConfig_entries input w0 k v Hkv) as (? & _).
Qed.

(** X19.  The section of the obsolete entries reads back as these
    entries.  When [saveConfig] has written the entries that
    [parseConfig] recorded behind a text, and their keys name no flag,
    reading the whole records them again, over what the text itself
    makes [parseConfig] record: obsolete entries stay in the file from
    run to run. *)
Theorem obsolete_section_reads_back E (input body : string) w0 w :
  let obs := (parseConfig input w0).2 in
  (∀ k, is_Some (obs !! k) → lookupFlag (flags w) k = None) →
  rangeOrder E obs ≡ₚ map_to_list obs →
  body = EmptyString ∨ (∃ b, body = b +:+ nl) →
  parseConfig (body +:+ obsoleteSection E obs) w
  = ((parseConfig body w).1, obs ∪ (parseConfig body w).2).
Proof. apply obsoleteSection_reads_back. Qed.

(** *** Regeneration with obsolete entries *)

Lemma unlines_ends (l : list string) :
  unlines l = EmptyString ∨ ∃ b, unlines l = b +:+ nl.
Proof.
  induction l as [|a l IH] using rev_ind; [by left|]. right.
  rewrite unlines_app. unfold unlines at 2. simpl.
  exists (unlines l +:+ a). by rewrite sapp_nil_r, sapp_assoc.
Qed.

Lemma generatedFile_lines E (hl : list string) w :
  generatedFile E (unlines hl) w
  = unlines (hl ++ concat (blockLines w
                             <$> representatives (VisitAll (flags w)))).
Proof.
  unfold generatedFile. rewrite saveConfig_eq.
  unfold obsoleteSection. rewrite map_size_empty. simpl.
  by rewrite sapp_nil_r, unlines_app, blocks_unlines.
Qed.

Lemma saveConfig_section E E0 w (buf : string) (obs : gmap string string) :
  rangeOrder E obs = rangeOrder E0 obs →
  saveConfig E w buf obs = generatedFile E0 buf w +:+ obsoleteSection E0 obs.
Proof.
  intros Hr. unfold generatedFile. rewrite !saveConfig_eq.
  unfold obsoleteSection at 2. rewrite map_size_empty. simpl.
  rewrite sapp_nil_r. f_equal. unfold obsoleteSection. by rewrite Hr.
Qed.

(** A generated file with the section of the entries reads back: the
    entries are recorded again, and the flags get their string
    forms. *)
Lemma generated_file_with_entries_reads_back E0 (hl : list string) w wgen
    (input : string) w0 :
  formal (flags wgen) = formal (flags w) →
  commentLines hl →
  (∀ f, f ∈ representatives (VisitAll (flags w)) → readsBack w wgen f) →
  let obs := (parseConfig input w0).2 in
  (∀ k, is_Some (obs !! k) → lookupFlag (flags w) k = None) →
  rangeOrder E0 obs ≡ₚ map_to_list obs →
  let old := saveConfig E0 wgen (unlines hl) obs in
  (parseConfig old w).2 = obs
  ∧ ∀ f, f ∈ VisitAll (flags w) →
      vString (heap (parseConfig old w).1 (Value f))
      = vString (heap wgen (Value f)).
Proof.
  intros Hformal Hhl Hall obs Hunk Hperm old.
  destruct (generated_file_reads_back E0 hl w wgen Hformal Hhl Hall)
    as [Hobs Hstr].
  assert (Hold : old = generatedFile E0 (unlines hl) wgen
                       +:+ obsoleteSection E0 obs).
  { by apply saveConfig_section. }
  assert (Hbody : generatedFile E0 (unlines hl) wgen = EmptyString
                  ∨ ∃ b, generatedFile E0 (unlines hl) wgen = b +:+ nl).
  { rewrite generatedFile_lines. apply unlines_ends. }
  pose proof (obsoleteSection_reads_back E0 input
                (generatedFile E0 (unlines hl) wgen) w0 w Hunk Hperm Hbody)
    as Hread.
  fold obs in Hread. rewrite <- Hold in Hread. rewrite Hread. simpl.
  split; [|done]. rewrite Hobs. apply (right_id_L ∅ (∪)).
Qed.

(** X22.  Idempotence with obsolete entries.  When the file holds what an
    earlier run generated, with the section of the entries it recorded,
    the blocks of the flags read back, the entries still name no flag,
    and [range] enumerates the entries in the order in which they stand
    in the file, then [Parse] regenerates the bytes of the file and
    neither seeks, truncates nor writes; it warns again when there are
    entries. *)
Theorem Parse_idempotent_with_obsolete_entries E E0 appName cPath w wgen
    (input : string) w0 :
  parsed (flags w) = false →
  (Part000.getConfigPath E appName w).2 = (cPath, None) →
  openFault E cPath = None →
  formal (flags wgen) = formal (flags w) →
  plainb appName = true →
  (∀ f, f ∈ representatives (VisitAll (flags w)) → readsBack w wgen f) →
  let obs := (parseConfig input w0).2 in
  files w !! cPath
  = Some (saveConfig E0 wgen (Part000.configHeader appName) obs) →
  (∀ k, is_Some (obs !! k) → lookupFlag (flags w) k = None) →
  rangeOrder E0 obs ≡ₚ map_to_list obs →
  rangeOrder E obs = rangeOrder E0 obs →
  files (Part000.Parse E appName w).1 = files w
  ∧ ∃ evs, trace (Part000.Parse E appName w).1 = trace w ++ evs
      ∧ Forall (λ e, ¬ isWriteEvent e) evs
      ∧ (obs ≠ ∅ → EvStderr (updateWarning appName cPath) ∈ evs).
Proof.
  intros Hp Hpath Hopen Hformal Hplain Hall obs Hfile Hunk Hperm Horder.
  destruct (configHeader_lines appName Hplain) as (Hh & Hcl & _).
  destruct (generated_file_with_entries_reads_back E0 _ w wgen input w0
              Hformal Hcl Hall Hunk Hperm) as [Hobs Hstr].
  fold obs in Hobs, Hstr. rewrite <- Hh in Hobs, Hstr.
  set (old := saveConfig E0 wgen (Part000.configHeader appName) obs) in *.
  assert (Hregen : saveConfig E (parseConfig old w).1
                     (Part000.configHeader appName) (parseConfig old w).2
                   = old).
  { assert (Hext : saveConfig E (parseConfig old w).1
                     (Part000.configHeader appName) obs
                   = saveConfig E wgen (Part000.configHeader appName) obs).
    { apply saveConfig_ext.
      - by rewrite parseConfig_formal.
      - intros f Hf. apply Hstr. unfold VisitAll in *.
        by rewrite parseConfig_formal in Hf. }
    rewrite Hobs, Hext. unfold old.
    rewrite (saveConfig_section E E0 _ _ obs Horder).
    by rewrite (saveConfig_section E0 E0 wgen _ obs eq_refl). }
  destruct (Part000_Parse_shape E appName cPath w Hp Hpath Hopen)
    as (pathEvs & setEvs & wrEvs & tailEvs & Ht & Hpe & Hse & _ & _
        & Hsame & Hte & _).
  rewrite Hfile in Hsame, Ht. simpl in Hsame, Ht. fold old in Hsame, Ht.
  destruct (Hsame (eq_sym Hregen)) as [-> Hfiles].
  split; [by apply Hfiles|].
  eexists. split; [exact Ht|]. rewrite Hobs. split.
  - apply Forall_app_2.
    { eapply Forall_impl; [exact Hpe|]. intros e He.
      apply not_write_classes. tauto. }
    apply Forall_cons_2; [simpl; tauto|].
    apply Forall_app_2.
    { eapply Forall_impl; [exact Hse|]. intros e He.
      apply not_write_classes. tauto. }
    apply Forall_app_2.
    { destruct (0 <? size obs)%nat; [|constructor].
      apply Forall_singleton. simpl. tauto. }
    simpl. eapply Forall_impl; [exact Hte|]. intros e He.
    apply not_write_classes. tauto.
  - intros Hne.
    assert (Hsz : (0 <? size obs)%nat = true).
    { apply Nat.ltb_lt. destruct (size obs) eqn:Hs; [|lia].
      by apply map_size_empty_iff in Hs. }
    rewrite Hsz. apply elem_of_app. right. apply elem_of_cons. right.
    apply elem_of_app. right. apply elem_of_app. left. by left.
Qed.

End Further.

(** *** The test *)

Lemma envname_not_MYAPPRC (x : string) :
  String.eqb (x +:+ "INF0") "MYAPPRC" = false.
Proof.
  apply String.eqb_neq. intros Heq.
  assert (Hlen : String.length x = 3%nat).
  { apply (f_equal String.length) in Heq. rewrite slength_app in Heq.
    simpl in Heq. lia. }
  destruct x as [|a [|b [|c [|d x]]]]; simpl in Hlen; try lia.
  rewrite !sapp_cons, sapp_nil_l in Heq. congruence.
Qed.

Section TestProperties.
Context `{!GoLib} `{!Strconv}.

(** X20.  The variable that the test sets is not the one [Parse] reads:
    for every application name, [Parse] does with [MYAPPRC] set what it
    does without. *)
Theorem Parse_ignores_MYAPPRC {V : Type} `{!ValueImpl V} (E : Env)
    (value appName : string) (w : World V) :
  ConfyGo.Parse (Test.Setenv "MYAPPRC" value E) appName w
  = ConfyGo.Parse E appName w
  ∧ Part000.Parse (Test.Setenv "MYAPPRC" value E) appName w
    = Part000.Parse E appName w.
Proof.
  assert (Hc : ∀ u : World V,
            ConfyGo.getConfigFilePath (Test.Setenv "MYAPPRC" value E) appName u
            = ConfyGo.getConfigFilePath E appName u).
  { intros u. unfold ConfyGo.getConfigFilePath, Getenv. unfold bind at 1 3.
    unfold bind at 1 2. unfold emit at 1 2. unfold ret at 1 2. simpl.
    by rewrite envname_not_MYAPPRC. }
  assert (Hp : ∀ u : World V,
            Part000.getConfigPath (Test.Setenv "MYAPPRC" value E) appName u
            = Part000.getConfigPath E appName u).
  { intros u. unfold Part000.getConfigPath, Getenv. unfold bind at 1 3.
    unfold bind at 1 2. unfold emit at 1 2. unfold ret at 1 2. simpl.
    by rewrite envname_not_MYAPPRC. }
  split.
  - unfold ConfyGo.Parse, bind.
    destruct (flag_Parsed w) as [w0 []]; [reflexivity|].
    rewrite Hc. reflexivity.
  - unfold Part000.Parse, bind.
    destruct (flag_Parsed w) as [w0 []]; [reflexivity|].
    rewrite Hp. reflexivity.
Qed.

Lemma flag_Var_heap (r : ref) (v : Test.testValue) (name usage : string)
    (w : World Test.testValue) :
  heap (Test.flag_Var r v name usage w).1 = <[r:=v]> (heap w).
Proof.
  unfold Test.flag_Var. unfold_M. simpl.
  by destruct (formal (flags w) !! name).
Qed.

Lemma orPanic_verdict (m : M Test.testValue (option string))
    (k : M Test.testValue Test.verdict) (w : World Test.testValue) :
  (∃ msg, (Test.orPanic m k w).2 = Test.Panicked msg)
  ∨ (Test.orPanic m k w).2 = (k (m w).1).2.
Proof.
  unfold Test.orPanic, bind. destruct (m w) as [w' [msg|]]; simpl; eauto.
Qed.

Lemma unregistered_NewFlagSet (w : World Test.testValue) (r : ref) :
  unregistered (set_flags Test.NewFlagSet w) r.
Proof. intros name fl. unfold lookupFlag. simpl. by rewrite lookup_empty. Qed.

(** With no flag registered [Parse] leaves the variables of the test as
    they are. *)
Lemma TestParse_tail E (port host debug logLevel : ref)
    (w : World Test.testValue) :
  let r := ((λ w, (set_flags Test.NewFlagSet w, tt)) ;;;
            out <- ConfyGo.Parse E "myapp" ;;
            match out with
            | Returns (Some err) =>
                ret (Test.FailedNow ("Parse() error: " +:+ err))
            | Exits code => ret (Test.Exited code)
            | Returns None =>
                failures <- gets (Test.checks port host debug logLevel) ;;
                ret (Test.Finished failures)
            end) w in
  ∀ failures, r.2 = Test.Finished failures →
    failures = Test.checks port host debug logLevel w.
Proof.
  intros r failures. subst r. unfold bind at 1. simpl. unfold bind at 1.
  assert (Hheap : ∀ x, heap (ConfyGo.Parse E "myapp"
                               (set_flags Test.NewFlagSet w)).1 x
                       = heap w x).
  { intros x. rewrite ConfyGo_Parse_heap_frame; [done|].
    apply unregistered_NewFlagSet. }
  destruct (ConfyGo.Parse E "myapp" (set_flags Test.NewFlagSet w))
    as [w' [[err|]|code]]; simpl in *; [done| |done].
  unfold_M. simpl. intros Heq. simplify_eq.
  unfold Test.checks. by rewrite !Hheap.
Qed.

(** X21.  [TestParse] never passes.  It registers its four flags with the
    flag set that it then replaces by a new one, so [Parse] knows none
    of them and sets none of their variables: when the test gets past
    [Parse], the port, the host and the log level still have their
    defaults, and it reports these three failures. *)
Theorem TestParse_never_passes E (tmp : result string)
    (port host debug logLevel : ref) (w : World Test.testValue) :
  NoDup [port; host; debug; logLevel] →
  (Test.TestParse E tmp port host debug logLevel w).2 ≠ Test.Finished []
  ∧ ∀ failures,
      (Test.TestParse E tmp port host debug logLevel w).2
      = Test.Finished failures →
      failures = ["Expected port 8080, got " +:+ Itoa 0;
                  "Expected host 'localhost', got ''";
                  "Expected log-level 'info', got ''"].
Proof.
  intros Hnd.
  assert (Hall : ∀ failures,
            (Test.TestParse E tmp port host debug logLevel w).2
            = Test.Finished failures →
            failures = ["Expected port 8080, got " +:+ Itoa 0;
                        "Expected host 'localhost', got ''";
                        "Expected log-level 'info', got ''"]);
    [|split; [intros Hfin; by specialize (Hall _ Hfin)|exact Hall]].
  intros failures. unfold Test.TestParse.
  destruct tmp as [dir|err]; [|done].
  cbv zeta.
  set (configFilePath := filepath_Join dir ".myappconfig").
  set (E' := Test.Setenv "MYAPPRC" configFilePath E).
  unfold bind at 1.
  match goal with |- context [(let '(w', a) := ?inner w in _)] =>
    set (run := inner w) end.
  assert (Hrun : ∀ fs, run.2 = Test.Finished fs →
            fs = ["Expected port 8080, got " +:+ Itoa 0;
                  "Expected host 'localhost', got ''";
                  "Expected log-level 'info', got ''"]).
  { subst run. unfold bind at 1.
    destruct (ConfyGo.WriteFile E' configFilePath Test.configContent w)
      as [w1 [err|]]; [done|].
    intros fs.
    set (w2 := (Test.flag_Var port (Test.intValue 0) "port"
                  "Port to run the server on" w1).1).
    set (w3 := (Test.flag_Var host
                  (Test.otherValue (stringValue EmptyString)) "host"
                  "Host address for the server" w2).1).
    set (w4 := (Test.flag_Var debug (Test.otherValue (boolValue false))
                  "debug" "Enable debug mode" w3).1).
    set (w5 := (Test.flag_Var logLevel
                  (Test.otherValue (stringValue EmptyString)) "log-level"
                  "Log level for the application" w4).1).
    do 4 (match goal with |- context [Test.orPanic ?m ?k ?u] =>
            destruct (orPanic_verdict m k u) as [[msg ->]| ->]; [done|]
          end).
    fold w2 w3 w4 w5.
    intros Hfin.
    rewrite (TestParse_tail E' port host debug logLevel w5 fs Hfin).
    assert (Hh5 : heap w5
                  = <[logLevel:=Test.otherValue (stringValue EmptyString)]>
                      (<[debug:=Test.otherValue (boolValue false)]>
                         (<[host:=Test.otherValue (stringValue EmptyString)]>
                            (<[port:=Test.intValue 0]> (heap w1))))).
    { subst w5 w4 w3 w2. by rewrite !flag_Var_heap. }
    apply NoDup_cons in Hnd as [Hp Hnd].
    apply NoDup_cons in Hnd as [Hh Hnd].
    apply NoDup_cons in Hnd as [Hd _].
    apply not_elem_of_cons in Hp as [Hph Hp].
    apply not_elem_of_cons in Hp as [Hpd Hp].
    apply not_elem_of_cons in Hp as [Hpl _].
    apply not_elem_of_cons in Hh as [Hhd Hh].
    apply not_elem_of_cons in Hh as [Hhl _].
    apply not_elem_of_cons in Hd as [Hdl _].
    unfold Test.checks. rewrite Hh5.
    rewrite (fn_lookup_insert_ne _ logLevel port) by done.
    rewrite (fn_lookup_insert_ne _ debug port) by done.
    rewrite (fn_lookup_insert_ne _ host port) by done.
    rewrite (fn_lookup_insert_ne _ logLevel host) by done.
    rewrite (fn_lookup_insert_ne _ debug host) by done.
    rewrite (fn_lookup_insert_ne _ logLevel debug) by done.
    rewrite !fn_lookup_insert. reflexivity. }
  destruct run as [w' v]. simpl in Hrun.
  destruct v as [fs|msg|msg|code]; simpl; try done.
  intros Heq. simplify_eq. by apply Hrun.
Qed.

End TestProperties.

(** ** The examples *)

Existing Instance asciiLib.

(** *** C1: a default value that ends in a space *)

(** The first call, which finds no file, writes the file of
    [sepWorld]. *)
Lemma sepWorld_file_from_first_run :
  (Part000.Parse exEnvNoArgs "MyApp" sepWorldNoFile).2 = Returns None
  ∧ files (Part000.Parse exEnvNoArgs "MyApp" sepWorldNoFile).1
    = files sepWorld.
Proof. split; vm_compute; reflexivity. Qed.



(** *** C2: the file says [localhost], the command line [example.net] *)

Lemma goValue_boolStable : boolStable (V:=goValue).
Proof.
  intros [s0|b] s; simpl; [done|]. by destruct (ParseBool s).
Qed.

Lemma Parse_command_line_wins_witness :
  parsed (flags exWorld) = false
  ∧ (Part000.getConfigPath exEnvCmdline "MyApp" exWorld).2 = (exPath, None)
  ∧ openFault exEnvCmdline exPath = None
  ∧ boolStable (V:=goValue)
  ∧ (Part000.Parse exEnvCmdline "MyApp" exWorld).2 = Returns None
  ∧ ∃ fileEvs cmd,
      trace (Part000.Parse exEnvCmdline "MyApp" exWorld).1
      = trace exWorld ++ fileEvs
          ++ EvFlagParse (osArgs exEnvCmdline) :: cmd ++ [EvClose]
      ∧ (∀ a, EvFlagParse a ∉ fileEvs)
      ∧ Forall isFlagEvent cmd
      ∧ scanned exWorld (osArgs exEnvCmdline) cmd
      ∧ heap (Part000.Parse exEnvCmdline "MyApp" exWorld).1
        = replay cmd
            (heap (parseConfig (default EmptyString (files exWorld !! exPath))
                     exWorld).1)
      ∧ (∀ r s cmd1 cmd2,
           cmd = cmd1 ++ EvValueSet r s :: cmd2 →
           (∀ s', EvValueSet r s' ∉ cmd2) →
           heap (Part000.Parse exEnvCmdline "MyApp" exWorld).1 r
           = (vSet (replay cmd1
                      (heap (parseConfig
                               (default EmptyString (files exWorld !! exPath))
                               exWorld).1) r) s).1)
      ∧ ∀ name value fl before after,
          cmdlineAssignments (isBoolIn exWorld) (osArgs exEnvCmdline)
          = before ++ (name, value) :: after →
          lookupFlag (flags exWorld) name = Some fl →
          (∀ name' value' fl',
             (name', value') ∈ after →
             lookupFlag (flags exWorld) name' = Some fl' →
             Value fl' ≠ Value fl) →
          heap (Part000.Parse exEnvCmdline "MyApp" exWorld).1 (Value fl)
          = (vSet (replay (take (length before) cmd)
                     (heap (parseConfig
                              (default EmptyString (files exWorld !! exPath))
                              exWorld).1) (Value fl)) value).1.
Proof.
  assert (Hpath : (Part000.getConfigPath exEnvCmdline "MyApp" exWorld).2
                  = (exPath, None)) by (vm_compute; reflexivity).
  assert (Hok : (Part000.Parse exEnvCmdline "MyApp" exWorld).2
                = Returns None)
    by (vm_compute; reflexivity).
  split; [reflexivity|]. split; [exact Hpath|]. split; [reflexivity|].
  split; [exact goValue_boolStable|]. split; [exact Hok|].
  exact (Parse_command_line_wins exEnvCmdline "MyApp" exPath exWorld
           eq_refl Hpath eq_refl goValue_boolStable Hok).
Defined.

(** The file set [host] to [localhost]; in the end it is
    [example.org]. *)
Lemma Parse_command_line_wins_example :
  heap (parseConfig exFile exWorld).1 0%nat = stringValue "localhost"
  ∧ heap (Part000.Parse exEnv "MyApp" exWorld).1 0%nat
    = stringValue "example.org".
Proof. split; vm_compute; reflexivity. Qed.

(** The assignments of a command line in the three forms, which end at
    the argument that is no flag; the file set [host] to [localhost]
    and [v] to [true], in the end they are [example.net], from the last
    assignment, and [false]. *)
Lemma cmdlineAssignments_example :
  cmdlineAssignments (isBoolIn exWorld) (osArgs exEnvCmdline)
  = [("host", "example.org"); ("v", "false"); ("host", "example.net")]
  ∧ heap (parseConfig exFile exWorld).1 0%nat = stringValue "localhost"
  ∧ heap (parseConfig exFile exWorld).1 1%nat = boolValue true
  ∧ heap (Part000.Parse exEnvCmdline "MyApp" exWorld).1 0%nat
    = stringValue "example.net"
  ∧ heap (Part000.Parse exEnvCmdline "MyApp" exWorld).1 1%nat
    = boolValue false.
Proof. repeat split; vm_compute; reflexivity. Qed.

(** A Boolean flag takes no value from the argument that follows it,
    and [--] ends the flags. *)
Lemma cmdlineAssignments_boolean_example :
  cmdlineAssignments (isBoolIn exWorld) ["-v"; "-host"; "h"; "--"; "-v=0"]
  = [("v", "true"); ("host", "h")].
Proof. vm_compute. reflexivity. Qed.

(** *** C3: runes, not bytes *)

(** Of two names of one value, [éé] (four bytes, two runes) and [abc]
    (three bytes, three runes), [abc] is the one written. *)
Lemma representatives_count_runes :
  let ee := String (ascii_of_nat 195) (String (ascii_of_nat 169)
              (String (ascii_of_nat 195) (String (ascii_of_nat 169)
                 EmptyString))) in
  let fl := sortFlags
              {[ ee := {| declUsage := "u"; declValue := 0%nat;
                          declDefValue := "d" |};
                 "abc" := {| declUsage := "u"; declValue := 0%nat;
                             declDefValue := "d" |} ]} in
  String.length ee = 4%nat ∧ Utf8.RuneCountInString ee = 2%nat
  ∧ Name <$> representatives fl = ["abc"].
Proof. repeat split; vm_compute; reflexivity. Qed.

(** *** C4 *)


(** *** C6 *)

Lemma Parse_one_shot_guard_witness :
  let w1 := (Part000.Parse exEnv "MyApp" exWorld).1 in
  Part000.Parse exEnv "MyApp" exWorld = (w1, Returns None)
  ∧ Part000.Parse exEnv "MyApp" w1
    = (w1, Returns (Some "flags have been parsed already"))
  ∧ ConfyGo.Parse exEnv "MyApp" w1
    = (w1, Returns (Some "flags have been parsed already")).
Proof.
  intros w1.
  assert (Hfirst : Part000.Parse exEnv "MyApp" exWorld = (w1, Returns None))
    by (vm_compute; reflexivity).
  split; [done|].
  apply (Parse_one_shot_guard exEnv "MyApp" w1).
  right. left. by exists exEnv, "MyApp", exWorld.
Defined.

(** *** Reading back, flag by flag *)

(** The blocks of the example flags read back, so the second call on
    their generated file leaves the files as they are. *)
Lemma Parse_idempotent_plain_example :
  files (Part000.Parse exEnvNoArgs "MyApp" exWorldGenerated).1
  = files exWorldGenerated.
Proof.
  assert (Hpath : (Part000.getConfigPath exEnvNoArgs "MyApp"
                     exWorldGenerated).2 = (exPath, None))
    by (vm_compute; reflexivity).
  assert (Hfile : files exWorldGenerated !! exPath
                  = Some (generatedFile exEnvNoArgs
                            (Part000.configHeader "MyApp")
                            (exWorldOf exFormal exHeap ∅)))
    by (vm_compute; reflexivity).
  assert (Hall : ∀ f, f ∈ representatives (VisitAll (flags exWorldGenerated)) →
            readsBack exWorldGenerated (exWorldOf exFormal exHeap ∅) f).
  { apply Forall_forall.
    let r := eval vm_compute in
               (representatives (VisitAll (flags exWorldGenerated))) in
    change (representatives (VisitAll (flags exWorldGenerated))) with r.
    repeat (apply Forall_cons; split;
            [repeat split; vm_compute; reflexivity|]).
    apply Forall_nil_2. }
  exact (proj1 (Parse_idempotent_plain exEnvNoArgs "MyApp" exPath
                  exWorldGenerated (exWorldOf exFormal exHeap ∅)
                  eq_refl Hpath eq_refl eq_refl Hfile eq_refl Hall)).
Qed.

(** *** C8: a usage text with a line break *)



(** The block of a flag with a usage text of one line: the back quotes
    are gone, and the default value stands on the comment line of the
    usage text. *)
Lemma optionBlock_example :
  optionBlock exWorld
    {| Name := "host"; Usage := "Host `address` for the server";
       Value := 0%nat; DefValue := "localhost" |}
  = nl +:+ "# Host address for the server (default localhost)" +:+ nl
    +:+ "host=" +:+ nl.
Proof. vm_compute. reflexivity. Qed.

(** *** C9 *)

Lemma Parse_rewrite_failure_witness :
  parsed (flags exWorld) = false
  ∧ (Part000.getConfigPath exEnvDiskFull "MyApp" exWorld).2 = (exPath, None)
  ∧ openFault exEnvDiskFull exPath = None
  ∧ exFile ≠ saveConfig exEnvDiskFull (parseConfig exFile exWorld).1
               (Part000.configHeader "MyApp") (parseConfig exFile exWorld).2
  ∧ rewriteFails exEnvDiskFull
  ∧ ∃ err,
      (Part000.Parse exEnvDiskFull "MyApp" exWorld).2 = Returns (Some err)
      ∧ isConfigIOError exPath err
      ∧ heap (Part000.Parse exEnvDiskFull "MyApp" exWorld).1
        = heap (parseConfig exFile exWorld).1
      ∧ flags (Part000.Parse exEnvDiskFull "MyApp" exWorld).1
        = flags (parseConfig exFile exWorld).1.
Proof.
  assert (Hpath : (Part000.getConfigPath exEnvDiskFull "MyApp" exWorld).2
                  = (exPath, None)) by (vm_compute; reflexivity).
  assert (Hdiff : exFile
                  ≠ saveConfig exEnvDiskFull (parseConfig exFile exWorld).1
                      (Part000.configHeader "MyApp")
                      (parseConfig exFile exWorld).2).
  { intros Heq. vm_compute in Heq. discriminate Heq. }
  assert (Hfail : rewriteFails exEnvDiskFull).
  { right. right. right. by eexists. }
  do 5 (split; [done|]).
  by apply (Parse_rewrite_failure_keeps_values exEnvDiskFull "MyApp" exPath
              exWorld).
Defined.

(** The values of the file are in the registry after the failed
    call. *)
Lemma Parse_rewrite_failure_example :
  heap (Part000.Parse exEnvDiskFull "MyApp" exWorld).1 0%nat
  = stringValue "localhost"
  ∧ heap (Part000.Parse exEnvDiskFull "MyApp" exWorld).1 1%nat
    = boolValue true.
Proof. split; vm_compute; reflexivity. Qed.

(** *** C10: a later line through another name of the value *)

Lemma parseConfig_alias_overrides :
  ¬ LastLineWins aliasWorld ["verbose=a"; "verbose=b"; "v=c"].
Proof.
  intros Hlast.
  specialize (Hlast ["verbose=a"] "verbose=b" ["v=c"] "verbose" "b"
                verboseFlag eq_refl).
  assert (Hval : heap (parseConfig_loop ∅ ["verbose=a"; "verbose=b"; "v=c"]
                         aliasWorld).1 (Value verboseFlag)
                 ≠ heap (flag_Set "verbose" "b"
                           (parseConfig_loop ∅ ["verbose=a"] aliasWorld).1).1
                     (Value verboseFlag)).
  { vm_compute. discriminate. }
  apply Hval, Hlast.
  - vm_compute. reflexivity.
  - split; vm_compute; reflexivity.
  - exists [], "verbose=a", [], "a". split; [done|].
    split; vm_compute; reflexivity.
  - clear Hlast Hval. intros l2 t l2' v' Heq [Hspec _].
    destruct l2 as [|x l2].
    + injection Heq as <- _. vm_compute in Hspec. discriminate Hspec.
    + injection Heq as _ Heq. by destruct l2.
Qed.

(** A later line that is rejected can change the value as well:
    [boolValue.Set] stores [false] when it rejects its argument. *)
Lemma parseConfig_rejected_line_resets :
  let input := "verbose=true" +:+ nl +:+ "verbose=true" +:+ nl
               +:+ "verbose=maybe" in
  heap (parseConfig input exWorld).1 1%nat = boolValue false
  ∧ (parseConfig input exWorld).2 = {[ "verbose" := "maybe" ]}.
Proof. split; vm_compute; reflexivity. Qed.

Lemma parseConfig_last_line_wins_witness :
  let input := "v=a" +:+ nl +:+ "verbose=b" +:+ nl +:+ "# done" +:+ nl
               +:+ "other=1" in
  Bufio.ScanLines input = ["v=a"] ++ "verbose=b" :: ["# done"; "other=1"]
  ∧ lookupFlag (flags aliasWorld) "verbose" = Some verboseFlag
  ∧ appliedAt aliasWorld ["v=a"] "verbose=b" "verbose" "b"
  ∧ heap (parseConfig input aliasWorld).1 (Value verboseFlag)
    = heap (flag_Set "verbose" "b"
              (parseConfig_loop ∅ ["v=a"] aliasWorld).1).1 (Value verboseFlag)
  ∧ heap (parseConfig input aliasWorld).1 (Value verboseFlag)
    = (vSet (heap (parseConfig_loop ∅ ["v=a"] aliasWorld).1
               (Value verboseFlag)) "b").1.
Proof.
  intros input.
  assert (Hlines : Bufio.ScanLines input
                   = ["v=a"] ++ "verbose=b" :: ["# done"; "other=1"])
    by (vm_compute; reflexivity).
  assert (Hfl : lookupFlag (flags aliasWorld) "verbose" = Some verboseFlag)
    by (vm_compute; reflexivity).
  assert (Happ : appliedAt aliasWorld ["v=a"] "verbose=b" "verbose" "b")
    by (split; vm_compute; reflexivity).
  do 3 (split; [done|]).
  apply (parseConfig_last_line_wins input aliasWorld ["v=a"]
           ["# done"; "other=1"] "verbose=b" "verbose" "b" verboseFlag
           Hlines Hfl Happ).
  intros t k' v' fl' Ht Hspec Hl.
  apply elem_of_cons in Ht as [->|Ht].
  { vm_compute in Hspec. discriminate Hspec. }
  apply elem_of_cons in Ht as [->|Ht]; [|by apply elem_of_nil in Ht].
  vm_compute in Hspec. injection Hspec as <- <-.
  vm_compute in Hl. discriminate Hl.
Defined.

(** ** The examples of the further properties *)

Lemma Parse_leaves_other_files_witness :
  "/etc/motd" ≠ (Part000.getConfigPath exEnv "MyApp" exWorld).2.1
  ∧ files (Part000.Parse exEnv "MyApp" exWorld).1 !! "/etc/motd"
    = files exWorld !! "/etc/motd".
Proof.
  assert (Hne : "/etc/motd"
                ≠ (Part000.getConfigPath exEnv "MyApp" exWorld).2.1)
    by (vm_compute; discriminate).
  split; [exact Hne|].
  exact (proj1 (Parse_leaves_other_files exEnv "MyApp" exWorld "/etc/motd")
           Hne).
Defined.

Lemma Parse_sets_registered_values_only_witness :
  unregistered exWorld 7%nat
  ∧ heap (Part000.Parse exEnv "MyApp" exWorld).1 7%nat = heap exWorld 7%nat
  ∧ heap (ConfyGo.Parse exEnv "MyApp" exWorld).1 7%nat = heap exWorld 7%nat.
Proof.
  assert (Hun : unregistered exWorld 7%nat).
  { apply unregistered_VisitAll. refine (bool_decide_unpack _ _).
    vm_compute. exact I. }
  split; [exact Hun|].
  exact (Parse_sets_registered_values_only exEnv "MyApp" exWorld 7%nat Hun).
Defined.

Lemma Parse_writes_the_values_of_the_file_witness :
  parsed (flags exWorld) = false
  ∧ (Part000.getConfigPath exEnv "MyApp" exWorld).2 = (exPath, None)
  ∧ openFault exEnv exPath = None
  ∧ (∀ err, (Part000.Parse exEnv "MyApp" exWorld).2 ≠ Returns (Some err))
  ∧ (let old := default EmptyString (files exWorld !! exPath) in
     let w1 := (parseConfig old exWorld).1 in
     let obs := (parseConfig old exWorld).2 in
     files (Part000.Parse exEnv "MyApp" exWorld).1
     = <[exPath:=saveConfig exEnv w1 (Part000.configHeader "MyApp") obs]>
         (files exWorld)).
Proof.
  assert (Hpath : (Part000.getConfigPath exEnv "MyApp" exWorld).2
                  = (exPath, None)) by (vm_compute; reflexivity).
  assert (Hout : (Part000.Parse exEnv "MyApp" exWorld).2 = Returns None)
    by (vm_compute; reflexivity).
  assert (Hok : ∀ err, (Part000.Parse exEnv "MyApp" exWorld).2
                       ≠ Returns (Some err)).
  { intros err. rewrite Hout. discriminate. }
  split; [reflexivity|]. split; [exact Hpath|]. split; [reflexivity|].
  split; [exact Hok|].
  exact (Parse_writes_the_values_of_the_file exEnv "MyApp" exPath exWorld
           eq_refl Hpath eq_refl Hok).
Defined.

Lemma Parse_creates_missing_file_witness :
  parsed (flags exWorldNoFile) = false
  ∧ (Part000.getConfigPath exEnvNoArgs "MyApp" exWorldNoFile).2
    = (exPath, None)
  ∧ openFault exEnvNoArgs exPath = None
  ∧ files exWorldNoFile !! exPath = None
  ∧ rewriteWorks exEnvNoArgs
  ∧ files (Part000.Parse exEnvNoArgs "MyApp" exWorldNoFile).1
    = <[exPath:=generatedFile exEnvNoArgs (Part000.configHeader "MyApp")
                  exWorldNoFile]> (files exWorldNoFile)
  ∧ sim (Part000.Parse exEnvNoArgs "MyApp" exWorldNoFile).1
      (flag_Parse exEnvNoArgs exWorldNoFile).1
  ∧ (Part000.Parse exEnvNoArgs "MyApp" exWorldNoFile).2
    = (flag_Parse exEnvNoArgs exWorldNoFile).2.
Proof.
  assert (Hpath : (Part000.getConfigPath exEnvNoArgs "MyApp"
                     exWorldNoFile).2 = (exPath, None))
    by (vm_compute; reflexivity).
  assert (Hwk : rewriteWorks exEnvNoArgs) by (repeat split).
  split; [reflexivity|]. split; [exact Hpath|]. split; [reflexivity|].
  split; [reflexivity|]. split; [exact Hwk|].
  exact (Parse_creates_missing_file exEnvNoArgs "MyApp" exPath exWorldNoFile
           eq_refl Hpath eq_refl eq_refl Hwk).
Defined.

Lemma Parse_fails_before_the_file_witness :
  parsed (flags exWorld) = false
  ∧ (Part000.getConfigPath exEnvNoOpen "MyApp" exWorld).2 = (exPath, None)
  ∧ (is_Some (None : option error) ∨ is_Some (openFault exEnvNoOpen exPath))
  ∧ (let r := Part000.Parse exEnvNoOpen "MyApp" exWorld in
     (∃ err, r.2 = Returns (Some err)
        ∧ (None = Some err
           ∨ None = (None : option error)
             ∧ ∃ e, openFault exEnvNoOpen exPath = Some e
                    ∧ err = "unable to open " +:+ "MyApp" +:+ " config file "
                            +:+ exPath +:+ " for reading and writing: "
                            +:+ e))
     ∧ flags r.1 = flags exWorld ∧ heap r.1 = heap exWorld
     ∧ files r.1 = files exWorld
     ∧ ∃ evs, trace r.1 = trace exWorld ++ evs
              ∧ Forall (λ ev, isPathEvent ev ∨ ev = EvOpen exPath) evs).
Proof.
  assert (Hpath : (Part000.getConfigPath exEnvNoOpen "MyApp" exWorld).2
                  = (exPath, None)) by (vm_compute; reflexivity).
  assert (Hfail : is_Some (None : option error)
                  ∨ is_Some (openFault exEnvNoOpen exPath)).
  { right. by exists "permission denied". }
  split; [reflexivity|]. split; [exact Hpath|]. split; [exact Hfail|].
  exact (Parse_fails_before_the_file exEnvNoOpen "MyApp" exPath exWorld None
           eq_refl Hpath Hfail).
Defined.

Lemma Parse_failed_rewrite_leaves_witness :
  parsed (flags exWorld) = false
  ∧ (Part000.getConfigPath exEnvDiskFull "MyApp" exWorld).2 = (exPath, None)
  ∧ openFault exEnvDiskFull exPath = None
  ∧ (let old := default EmptyString (files exWorld !! exPath) in
     let w1 := (parseConfig old exWorld).1 in
     let obs := (parseConfig old exWorld).2 in
     let newConf :=
       saveConfig exEnvDiskFull w1 (Part000.configHeader "MyApp") obs in
     old ≠ newConf
     ∧ (is_Some (seekResult exEnvDiskFull).2
        ∨ (seekResult exEnvDiskFull).1 ≠ 0
        ∨ is_Some (truncateFault exEnvDiskFull) →
        files (Part000.Parse exEnvDiskFull "MyApp" exWorld).1 !! exPath
        = Some old)
     ∧ (∀ n e, seekResult exEnvDiskFull = (0, None) →
          truncateFault exEnvDiskFull = None →
          writeFault exEnvDiskFull = Some (n, e) →
          files (Part000.Parse exEnvDiskFull "MyApp" exWorld).1 !! exPath
          = Some (String.substring 0 n newConf))).
Proof.
  assert (Hpath : (Part000.getConfigPath exEnvDiskFull "MyApp" exWorld).2
                  = (exPath, None)) by (vm_compute; reflexivity).
  assert (Hne : default EmptyString (files exWorld !! exPath)
                ≠ saveConfig exEnvDiskFull
                    (parseConfig (default EmptyString
                                    (files exWorld !! exPath)) exWorld).1
                    (Part000.configHeader "MyApp")
                    (parseConfig (default EmptyString
                                    (files exWorld !! exPath)) exWorld).2)
    by (vm_compute; discriminate).
  split; [reflexivity|]. split; [exact Hpath|]. split; [reflexivity|].
  split; [exact Hne|].
  exact (Parse_failed_rewrite_leaves exEnvDiskFull "MyApp" exPath exWorld
           eq_refl Hpath eq_refl Hne).
Defined.

(** After three bytes the disk is full: the file is left with the first
    three bytes of the new contents. *)
Lemma Parse_failed_rewrite_example :
  files (Part000.Parse exEnvDiskFull "MyApp" exWorld).1 !! exPath
  = Some "# M".
Proof. vm_compute. reflexivity. Qed.

Lemma Parse_returns_or_exits_witness :
  parsed (flags exWorld) = false
  ∧ (Part000.getConfigPath exEnv "MyApp" exWorld).2 = (exPath, None)
  ∧ openFault exEnv exPath = None
  ∧ (let r := Part000.Parse exEnv "MyApp" exWorld in
     ((r.2 = Returns None ∨ r.2 = Exits 0 ∨ r.2 = Exits 2)
      ∧ parsed (flags r.1) = true)
     ∨ ((∃ err, r.2 = Returns (Some err) ∧ isConfigIOError exPath err)
        ∧ parsed (flags r.1) = false ∧ rewriteFails exEnv)).
Proof.
  assert (Hpath : (Part000.getConfigPath exEnv "MyApp" exWorld).2
                  = (exPath, None)) by (vm_compute; reflexivity).
  split; [reflexivity|]. split; [exact Hpath|]. split; [reflexivity|].
  exact (Parse_returns_or_exits exEnv "MyApp" exPath exWorld
           eq_refl Hpath eq_refl).
Defined.

(** A flag that is not defined ends the process with status 2, after
    the file has been written. *)
Lemma Parse_exits_example :
  (Part000.Parse (exEnvWith ["-nosuch"] None) "MyApp" exWorldNoFile).2
  = Exits 2
  ∧ is_Some (files (Part000.Parse (exEnvWith ["-nosuch"] None) "MyApp"
                      exWorldNoFile).1 !! exPath).
Proof. split; [vm_compute; reflexivity|]. vm_compute. eauto. Qed.

Lemma Parse_closes_the_file_witness :
  parsed (flags exWorld) = false
  ∧ (Part000.getConfigPath exEnv "MyApp" exWorld).2 = (exPath, None)
  ∧ openFault exEnv exPath = None
  ∧ (let r := Part000.Parse exEnv "MyApp" exWorld in
     ∃ evs, trace r.1 = trace exWorld ++ evs
       ∧ EvOpen exPath ∈ evs
       ∧ match r.2 with
         | Returns _ => ∃ evs', evs = evs' ++ [EvClose] ∧ EvClose ∉ evs'
         | Exits _ => EvClose ∉ evs
         end).
Proof.
  assert (Hpath : (Part000.getConfigPath exEnv "MyApp" exWorld).2
                  = (exPath, None)) by (vm_compute; reflexivity).
  split; [reflexivity|]. split; [exact Hpath|]. split; [reflexivity|].
  exact (Parse_closes_the_file exEnv "MyApp" exPath exWorld
           eq_refl Hpath eq_refl).
Defined.

Lemma Parse_without_flag_arguments_witness :
  parsed (flags exWorld) = false
  ∧ (Part000.getConfigPath exEnvPositional "MyApp" exWorld).2
    = (exPath, None)
  ∧ openFault exEnvPositional exPath = None
  ∧ rewriteWorks exEnvPositional
  ∧ noFlagArgs (osArgs exEnvPositional) = true
  ∧ (let old := default EmptyString (files exWorld !! exPath) in
     let w1 := (parseConfig old exWorld).1 in
     let r := Part000.Parse exEnvPositional "MyApp" exWorld in
     r.2 = Returns None
     ∧ heap r.1 = heap w1
     ∧ actual (flags r.1) = actual (flags w1)
     ∧ args (flags r.1) = osArgs exEnvPositional).
Proof.
  assert (Hpath : (Part000.getConfigPath exEnvPositional "MyApp" exWorld).2
                  = (exPath, None)) by (vm_compute; reflexivity).
  assert (Hwk : rewriteWorks exEnvPositional) by (repeat split).
  split; [reflexivity|]. split; [exact Hpath|]. split; [reflexivity|].
  split; [exact Hwk|]. split; [reflexivity|].
  exact (Parse_without_flag_arguments exEnvPositional "MyApp" exPath exWorld
           eq_refl Hpath eq_refl Hwk eq_refl).
Defined.

Lemma Parse_marks_flags_of_the_file_witness :
  parsed (flags exWorld) = false
  ∧ (Part000.getConfigPath exEnvNoArgs "MyApp" exWorld).2 = (exPath, None)
  ∧ openFault exEnvNoArgs exPath = None
  ∧ Bufio.ScanLines (default EmptyString (files exWorld !! exPath))
    = [] ++ "host = localhost"
         :: ["old-flag: 42"; "v=true"; "just some text"]
  ∧ appliedAt exWorld [] "host = localhost" "host" "localhost"
  ∧ "host" ∈ actual (flags (Part000.Parse exEnvNoArgs "MyApp" exWorld).1).
Proof.
  assert (Hpath : (Part000.getConfigPath exEnvNoArgs "MyApp" exWorld).2
                  = (exPath, None)) by (vm_compute; reflexivity).
  assert (Hlines : Bufio.ScanLines
                     (default EmptyString (files exWorld !! exPath))
                   = [] ++ "host = localhost"
                        :: ["old-flag: 42"; "v=true"; "just some text"])
    by (vm_compute; reflexivity).
  assert (Happ : appliedAt exWorld [] "host = localhost" "host" "localhost")
    by (split; vm_compute; reflexivity).
  split; [reflexivity|]. split; [exact Hpath|]. split; [reflexivity|].
  split; [exact Hlines|]. split; [exact Happ|].
  exact (Parse_marks_flags_of_the_file exEnvNoArgs "MyApp" exPath exWorld
           [] ["old-flag: 42"; "v=true"; "just some text"]
           "host = localhost" "host" "localhost"
           eq_refl Hpath eq_refl Hlines Happ).
Defined.

Lemma ConfyGo_Parse_reads_witness :
  parsed (flags exWorldNoFile) = false
  ∧ (ConfyGo.getConfigFilePath exEnvNoArgs "MyApp" exWorldNoFile).2
    = (exPath, None)
  ∧ (let r := ConfyGo.Parse exEnvNoArgs "MyApp" exWorldNoFile in
     (∀ e, readFault exEnvNoArgs exPath = Some e →
        r.2 = Returns (Some ("unable to read " +:+ "MyApp"
                             +:+ " config file " +:+ exPath +:+ ": " +:+ e))
        ∧ flags r.1 = flags exWorldNoFile ∧ heap r.1 = heap exWorldNoFile
        ∧ files r.1 = files exWorldNoFile)
     ∧ (readFault exEnvNoArgs exPath = None →
        files exWorldNoFile !! exPath = None →
        openFault exEnvNoArgs exPath = None →
        writeFault exEnvNoArgs = None →
        files r.1
        = <[exPath:=generatedFile exEnvNoArgs (ConfyGo.configHeader "MyApp")
                      exWorldNoFile]> (files exWorldNoFile)
        ∧ sim r.1 (flag_Parse exEnvNoArgs exWorldNoFile).1
        ∧ r.2 = (flag_Parse exEnvNoArgs exWorldNoFile).2)).
Proof.
  assert (Hpath : (ConfyGo.getConfigFilePath exEnvNoArgs "MyApp"
                     exWorldNoFile).2 = (exPath, None))
    by (vm_compute; reflexivity).
  split; [reflexivity|]. split; [exact Hpath|].
  exact (ConfyGo_Parse_reads exEnvNoArgs "MyApp" exPath exWorldNoFile
           eq_refl Hpath).
Defined.

(** A read that fails for another reason than a missing file. *)
Lemma ConfyGo_Parse_read_failure_example :
  ConfyGo.Parse exEnvNoRead "MyApp" exWorld
  = ({| flags := flags exWorld; heap := heap exWorld; files := files exWorld;
        trace := [EvGetenv "MYAPPINF0"; EvUserCurrent; EvReadFile exPath] |},
     Returns (Some "unable to read MyApp config file /home/u/.myappinf0: input/output error")).
Proof. vm_compute. reflexivity. Qed.

Lemma revisions_agree_witness :
  parsed (flags exWorld) = false
  ∧ (Part000.getConfigPath exEnv "MyApp" exWorld).2 = (exPath, None)
  ∧ (ConfyGo.getConfigFilePath exEnv "MyApp" exWorld).2 = (exPath, None)
  ∧ openFault exEnv exPath = None
  ∧ readFault exEnv exPath = None
  ∧ rewriteWorks exEnv
  ∧ (let r1 := Part000.Parse exEnv "MyApp" exWorld in
     let r2 := ConfyGo.Parse exEnv "MyApp" exWorld in
     flags r1.1 = flags r2.1
     ∧ heap r1.1 = heap r2.1
     ∧ r1.2 = r2.2
     ∧ ∃ body,
         files r1.1
         = <[exPath:=Part000.configHeader "MyApp" +:+ body]> (files exWorld)
         ∧ files r2.1
           = <[exPath:=ConfyGo.configHeader "MyApp" +:+ body]>
               (files exWorld)).
Proof.
  assert (Hpath1 : (Part000.getConfigPath exEnv "MyApp" exWorld).2
                   = (exPath, None)) by (vm_compute; reflexivity).
  assert (Hpath2 : (ConfyGo.getConfigFilePath exEnv "MyApp" exWorld).2
                   = (exPath, None)) by (vm_compute; reflexivity).
  assert (Hwk : rewriteWorks exEnv) by (repeat split).
  split; [reflexivity|]. split; [exact Hpath1|]. split; [exact Hpath2|].
  split; [reflexivity|]. split; [reflexivity|]. split; [exact Hwk|].
  exact (revisions_agree exEnv "MyApp" exPath exWorld
           eq_refl Hpath1 Hpath2 eq_refl eq_refl Hwk).
Defined.

Lemma parseConfig_line_normal_form_witness :
  spec_parseLine "  host : localhost  " = Some ("host", "localhost")
  ∧ parseConfig_line ∅ ("host" +:+ "=" +:+ "localhost") exWorld
    = parseConfig_line ∅ "  host : localhost  " exWorld.
Proof.
  assert (Hspec : spec_parseLine "  host : localhost  "
                  = Some ("host", "localhost")) by (vm_compute; reflexivity).
  split; [exact Hspec|].
  exact (parseConfig_line_normal_form ∅ "  host : localhost  " "host"
           "localhost" exWorld Hspec).
Defined.

Lemma parseConfig_never_sets_names_with_separator_witness :
  (∀ name fl, lookupFlag (flags colonWorld) name = Some fl →
     Value fl = 0%nat → ¬ noSeparator name)
  ∧ heap (parseConfig ("a:b=2" +:+ nl) colonWorld).1 0%nat
    = heap colonWorld 0%nat.
Proof.
  assert (Hsep : ∀ name fl, lookupFlag (flags colonWorld) name = Some fl →
            Value fl = 0%nat → ¬ noSeparator name).
  { intros name fl Hl _. unfold lookupFlag in Hl. simpl in Hl.
    destruct (decide (name = "a:b")) as [->|Hne].
    - simpl. intros (_ & Hcolon & _). discriminate Hcolon.
    - rewrite lookup_singleton_ne in Hl by done. discriminate Hl. }
  split; [exact Hsep|].
  exact (parseConfig_never_sets_names_with_separator ("a:b=2" +:+ nl)
           colonWorld 0%nat Hsep).
Defined.

(** The line that [saveConfig] writes for such a flag is read as an
    entry for the key before the colon. *)
Lemma parseConfig_colon_example :
  (parseConfig (generatedFile exEnvNoArgs EmptyString colonWorld)
     colonWorld).2
  = {[ "a" := "b=1" ]}.
Proof. vm_compute. reflexivity. Qed.

Lemma parseConfig_crlf_witness :
  Forall (λ a, plainb a = true) ["host = localhost"; "v=true"]
  ∧ parseConfig (unlinesCRLF ["host = localhost"; "v=true"]) exWorld
    = parseConfig (unlines ["host = localhost"; "v=true"]) exWorld.
Proof.
  assert (Hl : Forall (λ a, plainb a = true) ["host = localhost"; "v=true"])
    by (repeat constructor).
  split; [exact Hl|].
  exact (parseConfig_crlf ["host = localhost"; "v=true"] exWorld Hl).
Defined.

Lemma parseConfig_touches_the_registry_only_witness :
  flags exWorldNoFile = flags exWorld
  ∧ heap exWorldNoFile = heap exWorld
  ∧ flags (parseConfig exFile exWorldNoFile).1
    = flags (parseConfig exFile exWorld).1
  ∧ heap (parseConfig exFile exWorldNoFile).1
    = heap (parseConfig exFile exWorld).1
  ∧ (parseConfig exFile exWorldNoFile).2 = (parseConfig exFile exWorld).2.
Proof.
  split; [reflexivity|]. split; [reflexivity|].
  exact (proj2 (proj2 (proj2 (proj2 (proj2 (proj2
           (parseConfig_touches_the_registry_only exFile exWorld))))))
           exWorldNoFile eq_refl eq_refl).
Defined.

Lemma obsolete_section_reads_back_witness :
  (let obs := (parseConfig exFile exWorld).2 in
   (∀ k, is_Some (obs !! k) → lookupFlag (flags exWorld) k = None)
   ∧ rangeOrder exEnvNoArgs obs ≡ₚ map_to_list obs
   ∧ ("# x" +:+ nl = EmptyString ∨ (∃ b, "# x" +:+ nl = b +:+ nl))
   ∧ parseConfig (("# x" +:+ nl) +:+ obsoleteSection exEnvNoArgs obs) exWorld
     = ((parseConfig ("# x" +:+ nl) exWorld).1,
        obs ∪ (parseConfig ("# x" +:+ nl) exWorld).2)).
Proof.
  assert (Hobs : (parseConfig exFile exWorld).2 = {[ "old-flag" := "42" ]})
    by (vm_compute; reflexivity).
  assert (Hunk : ∀ k, is_Some ((parseConfig exFile exWorld).2 !! k) →
            lookupFlag (flags exWorld) k = None).
  { intros k. rewrite Hobs. intros [v Hk].
    apply lookup_singleton_Some in Hk as [<- _]. vm_compute. reflexivity. }
  assert (Hperm : rangeOrder exEnvNoArgs (parseConfig exFile exWorld).2
                  ≡ₚ map_to_list (parseConfig exFile exWorld).2)
    by reflexivity.
  assert (Hbody : "# x" +:+ nl = EmptyString ∨ (∃ b, "# x" +:+ nl = b +:+ nl)).
  { right. by exists "# x". }
  cbv zeta. split; [exact Hunk|]. split; [exact Hperm|]. split; [exact Hbody|].
  exact (obsolete_section_reads_back exEnvNoArgs exFile ("# x" +:+ nl)
           exWorld exWorld Hunk Hperm Hbody).
Defined.

Lemma saveConfig_parseConfig_round_trip_witness :
  formal (flags exWorldNoFile) = formal (flags exWorldNoFile)
  ∧ commentLines (headerLines_Part000 "MyApp")
  ∧ (∀ f, f ∈ representatives (VisitAll (flags exWorldNoFile)) →
       readsBack exWorldNoFile exWorldNoFile f)
  ∧ (let old := generatedFile exEnvNoArgs
                  (unlines (headerLines_Part000 "MyApp")) exWorldNoFile in
     (parseConfig old exWorldNoFile).2 = ∅
     ∧ ∀ f, f ∈ VisitAll (flags exWorldNoFile) →
         vString (heap (parseConfig old exWorldNoFile).1 (Value f))
         = vString (heap exWorldNoFile (Value f))).
Proof.
  assert (Hcl : commentLines (headerLines_Part000 "MyApp")).
  { unfold commentLines. refine (bool_decide_unpack _ _). vm_compute. exact I. }
  assert (Hall : ∀ f, f ∈ representatives (VisitAll (flags exWorldNoFile)) →
            readsBack exWorldNoFile exWorldNoFile f).
  { apply Forall_forall.
    let r := eval vm_compute in
               (representatives (VisitAll (flags exWorldNoFile))) in
    change (representatives (VisitAll (flags exWorldNoFile))) with r.
    repeat (apply Forall_cons; split;
            [repeat split; vm_compute; reflexivity|]).
    apply Forall_nil_2. }
  split; [reflexivity|]. split; [exact Hcl|]. split; [exact Hall|].
  exact (saveConfig_parseConfig_round_trip exEnvNoArgs
           (headerLines_Part000 "MyApp") exWorldNoFile exWorldNoFile
           eq_refl Hcl Hall).
Defined.

Lemma TestParse_never_passes_witness :
  NoDup [0%nat; 1%nat; 2%nat; 3%nat]
  ∧ (Test.TestParse (H0:=exStrconv) exEnvNoArgs (Ok "/tmp/confy_test1")
       0%nat 1%nat 2%nat 3%nat exTestWorld).2 ≠ Test.Finished []
  ∧ ∀ failures,
      (Test.TestParse (H0:=exStrconv) exEnvNoArgs (Ok "/tmp/confy_test1")
         0%nat 1%nat 2%nat 3%nat exTestWorld).2
      = Test.Finished failures →
      failures = ["Expected port 8080, got " +:+ Itoa (Strconv:=exStrconv) 0;
                  "Expected host 'localhost', got ''";
                  "Expected log-level 'info', got ''"].
Proof.
  assert (Hnd : NoDup [0%nat; 1%nat; 2%nat; 3%nat]).
  { refine (bool_decide_unpack _ _). vm_compute. exact I. }
  split; [exact Hnd|].
  exact (TestParse_never_passes (H0:=exStrconv) exEnvNoArgs
           (Ok "/tmp/confy_test1") 0%nat 1%nat 2%nat 3%nat exTestWorld Hnd).
Defined.

(** The run of the test in this world: [Parse] returns, and the three
    failures are reported. *)
Lemma TestParse_example :
  (Test.TestParse (H0:=exStrconv) exEnvNoArgs (Ok "/tmp/confy_test1")
     0%nat 1%nat 2%nat 3%nat exTestWorld).2
  = Test.Finished ["Expected port 8080, got 0";
                   "Expected host 'localhost', got ''";
                   "Expected log-level 'info', got ''"].
Proof. vm_compute. reflexivity. Qed.

Lemma Parse_idempotent_with_obsolete_entries_witness :
  parsed (flags exWorldEntries) = false
  ∧ (Part000.getConfigPath exEnvNoArgs "MyApp" exWorldEntries).2
    = (exPath, None)
  ∧ openFault exEnvNoArgs exPath = None
  ∧ formal (flags exWorldNoFile) = formal (flags exWorldEntries)
  ∧ plainb "MyApp" = true
  ∧ (∀ f, f ∈ representatives (VisitAll (flags exWorldEntries)) →
       readsBack exWorldEntries exWorldNoFile f)
  ∧ (let obs := (parseConfig exTwoEntries exWorldNoFile).2 in
     files exWorldEntries !! exPath
     = Some (saveConfig exEnvNoArgs exWorldNoFile
               (Part000.configHeader "MyApp") obs)
     ∧ (∀ k, is_Some (obs !! k) → lookupFlag (flags exWorldEntries) k = None)
     ∧ rangeOrder exEnvNoArgs obs ≡ₚ map_to_list obs
     ∧ rangeOrder exEnvNoArgs obs = rangeOrder exEnvNoArgs obs
     ∧ files (Part000.Parse exEnvNoArgs "MyApp" exWorldEntries).1
       = files exWorldEntries
     ∧ ∃ evs, trace (Part000.Parse exEnvNoArgs "MyApp" exWorldEntries).1
              = trace exWorldEntries ++ evs
         ∧ Forall (λ e, ¬ isWriteEvent e) evs
         ∧ (obs ≠ ∅ → EvStderr (updateWarning "MyApp" exPath) ∈ evs)).
Proof.
  assert (Hpath : (Part000.getConfigPath exEnvNoArgs "MyApp"
                     exWorldEntries).2 = (exPath, None))
    by (vm_compute; reflexivity).
  assert (Hall : ∀ f, f ∈ representatives (VisitAll (flags exWorldEntries)) →
            readsBack exWorldEntries exWorldNoFile f).
  { apply Forall_forall.
    let r := eval vm_compute in
               (representatives (VisitAll (flags exWorldEntries))) in
    change (representatives (VisitAll (flags exWorldEntries))) with r.
    repeat (apply Forall_cons; split;
            [repeat split; vm_compute; reflexivity|]).
    apply Forall_nil_2. }
  assert (Hfile : files exWorldEntries !! exPath
                  = Some (saveConfig exEnvNoArgs exWorldNoFile
                            (Part000.configHeader "MyApp")
                            (parseConfig exTwoEntries exWorldNoFile).2))
    by (vm_compute; reflexivity).
  assert (Hobs : (parseConfig exTwoEntries exWorldNoFile).2
                 = {[ "a" := "1"; "b" := "2" ]})
    by (vm_compute; reflexivity).
  assert (Hunk : ∀ k, is_Some ((parseConfig exTwoEntries exWorldNoFile).2
                                 !! k) →
            lookupFlag (flags exWorldEntries) k = None).
  { intros k. rewrite Hobs. intros [v Hk].
    apply lookup_insert_Some in Hk as [[<- _]|[_ Hk]];
      [vm_compute; reflexivity|].
    apply lookup_singleton_Some in Hk as [<- _]. vm_compute. reflexivity. }
  assert (Hperm : rangeOrder exEnvNoArgs
                    (parseConfig exTwoEntries exWorldNoFile).2
                  ≡ₚ map_to_list (parseConfig exTwoEntries exWorldNoFile).2)
    by reflexivity.
  split; [reflexivity|]. split; [exact Hpath|]. split; [reflexivity|].
  split; [reflexivity|]. split; [reflexivity|]. split; [exact Hall|].
  cbv zeta. split; [exact Hfile|]. split; [exact Hunk|].
  split; [exact Hperm|]. split; [reflexivity|].
  exact (Parse_idempotent_with_obsolete_entries exEnvNoArgs exEnvNoArgs
           "MyApp" exPath exWorldEntries exWorldNoFile exTwoEntries
           exWorldNoFile eq_refl Hpath eq_refl eq_refl eq_refl Hall Hfile
           Hunk Hperm eq_refl).
Defined.

(** When [range] enumerates the two entries the other way round, the
    regenerated bytes differ from the file, and [Parse] rewrites it. *)
Lemma Parse_rewrites_for_another_order :
  files (Part000.Parse exEnvReversed "MyApp" exWorldEntries).1 !! exPath
  = Some (saveConfig exEnvReversed exWorldNoFile
            (Part000.configHeader "MyApp")
            (parseConfig exTwoEntries exWorldNoFile).2)
  ∧ files (Part000.Parse exEnvReversed "MyApp" exWorldEntries).1 !! exPath
    ≠ files exWorldEntries !! exPath.
Proof.
  split.
  - vm_compute. reflexivity.
  - vm_compute. discriminate.
Qed.
